(** * Block symmetric Toeplitz and circulant matrices of Capytaine

    A shallow embedding of [capytaine/matrices/block_toeplitz_matrices.py]
    and the properties of its index grids, constructors, accessors of
    blocks, shapes and positions, transposition and matrix-vector
    products.

    Conventions of the embedding:
    - Python integers are MathComp's [int]; list indices, slices and
      [range] follow Python's rules (negative indices count from the end).
    - A numpy array is a record of its shape, its dtype and its entries in
      row-major (C) order.  The entries are exact complex numbers ([algC]):
      [float64] and [complex128] are read as the real and the complex
      numbers, so rounding is not part of the model, while the dtype of
      every array, and what a cast to it does, is.  Arrays of other
      dtypes are outside the model.
    - [np.array] on a list of lists of blocks is modelled with what it
      checks and does: the blocks must have one shape, and they are cast
      to their common dtype.
    - An operation that can raise returns a [result]; the value
      [NotImplemented] that [__matmul__] may return is a value, not an
      exception. *)

From HB Require Import structures.
From Stdlib Require Import ZArith Lia ZifyClasses ZifyInst ZifyBool.
From mathcomp Require Import boot algebra.
From mathcomp Require Import algC cyclotomic.
From mathcomp Require Import ring_tactic.

Set Implicit Arguments.
Unset Strict Implicit.
Unset Printing Implicit Defensive.

Import GRing.Theory Num.Theory.

(** ** Results of Python calls *)

Inductive exn :=
  | ValueError
  | IndexError
  | AssertionError
  | AttributeError
  | NotModelled.

Inductive result (T : Type) :=
  | Ok of T
  | Raise of exn.

Arguments Ok {T} _.
Arguments Raise {T} _.

Definition bind {T U : Type} (x : result T) (f : T -> result U) : result U :=
  match x with
  | Ok v => f v
  | Raise e => Raise e
  end.

Notation "x <- e ;; k" := (bind e (fun x => k))
  (at level 100, e at next level, right associativity).

(** A list of calls that may raise, run from left to right. *)
Definition mapM {A B : Type} (f : A -> result B) (s : seq A)
  : result (seq B) :=
  foldr (fun a acc => x <- f a ;; xs <- acc ;; Ok (x :: xs)) (Ok [::]) s.

(** ** Python lists, slices and ranges *)

Module Py.

(** The position a slice bound [k] denotes in a list of length [n]:
    a negative bound counts from the end, and the result is clamped to
    [0..n]. *)
Definition bound (n : nat) (k : int) : nat :=
  match k with
  | Posz m => minn m n
  | Negz m => n - m.+1
  end.

(** [s[k:]] *)
Definition slice_from {T : Type} (k : int) (s : seq T) : seq T :=
  drop (bound (size s) k) s.

(** [s[:k]] *)
Definition slice_to {T : Type} (k : int) (s : seq T) : seq T :=
  take (bound (size s) k) s.

(** [s[::-1]] *)
Definition reversed {T : Type} (s : seq T) : seq T := rev s.

(** [len(s)] *)
Definition len {T : Type} (s : seq T) : int := Posz (size s).

(** [list(range(lo, hi))] *)
Definition range (lo hi : int) : seq int :=
  match (hi - lo)%R with
  | Posz n => [seq (lo + Posz k)%R | k <- iota 0 n]
  | Negz _ => [::]
  end.

(** [s[k]], with [IndexError] out of range. *)
Definition getitem {T : Type} (s : seq T) (k : int) : result T :=
  match k with
  | Posz m => if s is x :: _ then
                if m < size s then Ok (nth x s m) else Raise IndexError
              else Raise IndexError
  | Negz m => if s is x :: _ then
                if m < size s then Ok (nth x s (size s - m.+1))
                else Raise IndexError
              else Raise IndexError
  end.

(** A Python integer known to be a count, as a natural number. *)
Definition to_nat (k : int) : nat :=
  match k with
  | Posz n => n
  | Negz _ => 0
  end.

(** [[x] * n]: a negative [n] gives the empty list. *)
Definition repeat {T : Type} (x : T) (n : int) : seq T := nseq (to_nat n) x.

End Py.

(** ** numpy arrays *)

Module Np.

(** The two dtypes of the model.  Arrays of another dtype (integers,
    [float32], objects) are outside it. *)
Inductive dtype := float64 | complex128.

Definition dtype_eqb (d1 d2 : dtype) : bool :=
  match d1, d2 with
  | float64, float64 | complex128, complex128 => true
  | _, _ => false
  end.

(** numpy's type promotion on the two floating kinds. *)
Definition result_type (d1 d2 : dtype) : dtype :=
  match d1 with
  | float64 => d2
  | complex128 => complex128
  end.

Record ndarray := NdArray {
  shape : seq nat;
  dtype_of : dtype;
  data : seq algC
}.

Definition ndim (a : ndarray) : nat := size (shape a).

(** Number of entries of an array of a given shape. *)
Definition prod_shape (sh : seq nat) : nat := foldr muln 1 sh.

(** A [float64] array holds real numbers only, and an array holds as many
    entries as its shape says. *)
Definition wf (a : ndarray) : bool :=
  (size (data a) == prod_shape (shape a))
  && (if dtype_of a is float64 then all (fun x => x \is Num.real) (data a)
      else true).

(** The primitive [n]-th root of unity of the transform.  numpy takes
    [exp(-2 i pi / n)]; the properties below only use that the root is
    primitive (see [circular_convolution]), so they do not depend on which
    one is taken. *)
Definition omega (n : nat) : algC :=
  match n with
  | 0 => 1%R
  | n'.+1 => sval (C_prim_root_exists (ltn0Sn n'))
  end.

(** [np.zeros(n)] *)
Definition zeros (n : int) : result ndarray :=
  match n with
  | Posz k => Ok (NdArray [:: k] float64 (nseq k 0%R))
  | Negz _ => Raise ValueError
  end.

(** [np.concatenate([a, b])] on vectors. *)
Definition concatenate (a b : ndarray) : result ndarray :=
  match shape a, shape b with
  | [:: n], [:: m] =>
      Ok (NdArray [:: n + m] (result_type (dtype_of a) (dtype_of b))
                  (data a ++ data b))
  | _, _ => Raise NotModelled
  end.

(** [np.array(bs)] on a list of arrays: a stack along a new first axis. *)
Definition array (bs : seq ndarray) : result ndarray :=
  match bs with
  | [::] => Ok (NdArray [:: 0] float64 [::])
  | b :: _ =>
      if all (fun x => shape x == shape b) bs
      then Ok (NdArray (size bs :: shape b)
                       (foldr result_type float64 (map dtype_of bs))
                       (flatten (map data bs)))
      else Raise ValueError
  end.

(** [a.astype(d)] for a dtype [d] that holds the dtype of [a], as numpy's
    promotion of a list of arrays to one dtype does: the entries are
    kept. *)
Definition promote (d : dtype) (a : ndarray) : ndarray :=
  NdArray (shape a) d (data a).

(** The dtype numpy gives to an array made of the arrays [bs]. *)
Definition common_dtype (bs : seq ndarray) : dtype :=
  foldr result_type float64 (map dtype_of bs).

(** [np.array(rows)] on a list of lists of arrays: the rows must have one
    length and the arrays one shape, or numpy raises [ValueError]; the
    result has one dtype, to which every array is promoted.  The result
    is kept as the rows of its sub-arrays. *)
Definition array_of_blocks (rows : seq (seq ndarray))
  : result (seq (seq ndarray)) :=
  if ~~ all (fun row => size row == size (head [::] rows)) rows
  then Raise ValueError
  else
    match flatten rows with
    | [::] => Ok rows
    | (b :: _) as bs =>
        if all (fun x => shape x == shape b) bs
        then Ok [seq [seq promote (common_dtype bs) x | x <- row]
                | row <- rows]
        else Raise ValueError
    end.

(** [np.reshape(a, sh)] *)
Definition reshape (a : ndarray) (sh : seq nat) : result ndarray :=
  if prod_shape sh == size (data a)
  then Ok (NdArray sh (dtype_of a) (data a))
  else Raise ValueError.

(** [np.fft.fft(a, axis=0)]: entry [k] along the first axis is the sum of
    the entries [m] weighted by [omega ^ (m * k)]. *)
Definition fft (a : ndarray) : result ndarray :=
  match shape a with
  | [::] => Raise ValueError
  | n :: rest =>
      if n == 0 then Raise ValueError
      else
        let p := prod_shape rest in
        Ok (NdArray (shape a) complex128
              (mkseq (fun idx =>
                 (\sum_(0 <= m < n)
                    nth 0 (data a) (m * p + idx %% p)
                    * omega n ^+ (m * (idx %/ p)))%R)
                 (n * p)))
  end.

(** [np.fft.ifft(a, axis=0)] *)
Definition ifft (a : ndarray) : result ndarray :=
  match shape a with
  | [::] => Raise ValueError
  | n :: rest =>
      if n == 0 then Raise ValueError
      else
        let p := prod_shape rest in
        Ok (NdArray (shape a) complex128
              (mkseq (fun idx =>
                 (n%:R^-1 *
                  \sum_(0 <= k < n)
                    nth 0 (data a) (k * p + idx %% p)
                    * (omega n)^-1 ^+ (k * (idx %/ p)))%R)
                 (n * p)))
  end.

(** [a @ b] on two stacks of matrices with the same number of layers, the
    case [__matmul__] produces; other ranks and broadcasting are outside
    the model. *)
Definition matmul (a b : ndarray) : result ndarray :=
  match shape a, shape b with
  | [:: la; n; k], [:: lb; k'; p] =>
      if la != lb then Raise NotModelled
      else if k != k' then Raise ValueError
      else
        Ok (NdArray [:: la; n; p]
              (result_type (dtype_of a) (dtype_of b))
              (mkseq (fun idx =>
                 let l := idx %/ (n * p) in
                 let i := (idx %% (n * p)) %/ p in
                 let j := idx %% p in
                 (\sum_(0 <= t < k)
                    nth 0 (data a) (l * (n * k) + i * k + t)
                    * nth 0 (data b) (l * (k * p) + t * p + j))%R)
                 (la * (n * p))))
  | _, _ => Raise NotModelled
  end.

(** [d @ v] for a matrix and a vector. *)
Definition matvec (d v : ndarray) : result ndarray :=
  match shape d, shape v with
  | [:: n; k], [:: k'] =>
      if k != k' then Raise ValueError
      else
        Ok (NdArray [:: n] (result_type (dtype_of d) (dtype_of v))
              (mkseq (fun i =>
                 (\sum_(0 <= t < k)
                    nth 0 (data d) (i * k + t) * nth 0 (data v) t)%R)
                 n))
  | _, _ => Raise NotModelled
  end.

(** [np.asarray(a, dtype=d)]: a cast to [float64] drops imaginary parts. *)
Definition asarray (a : ndarray) (d : dtype) : ndarray :=
  NdArray (shape a) d
    (match d with
     | float64 => [seq ('Re x)%R | x <- data a]
     | complex128 => data a
     end).

(** [a.T]: the transpose of a matrix; a vector is its own transpose, and
    arrays of higher rank are outside the model. *)
Definition T (a : ndarray) : result ndarray :=
  match shape a with
  | [:: r; c] =>
      Ok (NdArray [:: c; r] (dtype_of a)
            (mkseq (fun k => nth 0%R (data a) ((k %% r) * c + k %/ r))
                   (c * r)))
  | [::] | [:: _] => Ok a
  | _ => Raise NotModelled
  end.

(** [a[:k]] for a vector. *)
Definition slice_to (k : int) (a : ndarray) : ndarray :=
  let d := Py.slice_to k (data a) in
  NdArray [:: size d] (dtype_of a) d.

(** [row[idx]] for a list [idx] of positions. *)
Definition take_indices {T : Type} (row : seq T) (idx : seq int)
  : result (seq T) :=
  mapM (Py.getitem row) idx.

End Np.

Import Np.

(** ** The block matrices *)

(** The state every block matrix holds.  [_stored_blocks] is the 2-D
    store of blocks, [_stored_nb_blocks] its two lengths, and
    [_stored_block_shapes] the row counts of the blocks of the first
    column and the column counts of the blocks of the first row. *)
Record BlockMatrix := mkBlockMatrix {
  _stored_blocks : seq (seq ndarray);
  _stored_nb_blocks : int * int;
  _stored_block_shapes : seq nat * seq nat
}.

(** An object of one of the three concrete classes of the file.  The two
    circulant classes add the attribute [_nb_blocks] that their
    [__init__] sets. *)
Inductive matrix :=
  | BlockSymmetricToeplitzMatrix of BlockMatrix
  | EvenBlockSymmetricCirculantMatrix of BlockMatrix & int
  | OddBlockSymmetricCirculantMatrix of BlockMatrix & int.

Definition base (self : matrix) : BlockMatrix :=
  match self with
  | BlockSymmetricToeplitzMatrix b => b
  | EvenBlockSymmetricCirculantMatrix b _ => b
  | OddBlockSymmetricCirculantMatrix b _ => b
  end.

(** What [self.__class__] tells apart. *)
Inductive class := Toeplitz | EvenCirculant | OddCirculant.

Definition __class__ (self : matrix) : class :=
  match self with
  | BlockSymmetricToeplitzMatrix _ => Toeplitz
  | EvenBlockSymmetricCirculantMatrix _ _ => EvenCirculant
  | OddBlockSymmetricCirculantMatrix _ _ => OddCirculant
  end.

(** The keyword arguments of the constructors. *)
Record kwargs := Kwargs {
  kw_stored_block_shapes : option (seq nat * seq nat);
  check_dim : bool
}.

(** A call without keyword arguments: the shapes are read from the blocks
    and the dimensions are checked. *)
Definition no_kwargs : kwargs := Kwargs None true.

(** [self._stored_blocks[0, :]] *)
Definition stored_row (b : BlockMatrix) : seq ndarray :=
  nth [::] (_stored_blocks b) 0.

(** [_check_dimension]: every block of the stored row has the shape of the
    first one.  The [assert] is the test of this boolean; the constructor
    has refused a row without a first block before it runs. *)
Definition _check_dimension (b : BlockMatrix) : bool :=
  match stored_row b with
  | [::] => true
  | b00 :: rest => all (fun blk => shape blk == shape b00) rest
  end.

(** Modelled from the spec: [BlockMatrix.__init__], of
    [capytaine.matrices.block_matrices], which is not among the sources.
    It stores the blocks with their per-axis shape lists (taken from the
    keyword argument when given) and runs the dimension check unless
    [check_dim] is off.  A store without a first block has no shape to
    read and is refused. *)
Definition BlockMatrix__init__ (blocks : seq (seq ndarray)) (kw : kwargs)
  : result BlockMatrix :=
  match blocks with
  | ((b00 :: _) as row) :: _ =>
      let shapes :=
        match kw_stored_block_shapes kw with
        | Some s => s
        | None => ([seq nth 0 (shape (nth b00 r 0)) 0 | r <- blocks],
                   [seq nth 0 (shape b) 1 | b <- row])
        end in
      let self := mkBlockMatrix blocks (Py.len blocks, Py.len row) shapes in
      if check_dim kw then
        if _check_dimension self then Ok self else Raise AssertionError
      else Ok self
  | _ => Raise IndexError
  end.

(** [BlockSymmetricToeplitzMatrix(blocks, **kwargs)] *)
Definition Toeplitz__init__ (blocks : seq (seq ndarray)) (kw : kwargs)
  : result matrix :=
  b <- BlockMatrix__init__ blocks kw ;;
  Ok (BlockSymmetricToeplitzMatrix b).

(** [EvenBlockSymmetricCirculantMatrix(blocks, **kwargs)] *)
Definition Even__init__ (blocks : seq (seq ndarray)) (kw : kwargs)
  : result matrix :=
  b <- BlockMatrix__init__ blocks kw ;;
  Ok (EvenBlockSymmetricCirculantMatrix b
        (((_stored_nb_blocks b).2 - 1) * 2)%R).

(** [OddBlockSymmetricCirculantMatrix(blocks, **kwargs)] *)
Definition Odd__init__ (blocks : seq (seq ndarray)) (kw : kwargs)
  : result matrix :=
  b <- BlockMatrix__init__ blocks kw ;;
  Ok (OddBlockSymmetricCirculantMatrix b
        ((_stored_nb_blocks b).2 * 2 - 1)%R).

(** [self.__class__(blocks)] *)
Definition construct (c : class) (blocks : seq (seq ndarray)) (kw : kwargs)
  : result matrix :=
  match c with
  | Toeplitz => Toeplitz__init__ blocks kw
  | EvenCirculant => Even__init__ blocks kw
  | OddCirculant => Odd__init__ blocks kw
  end.

(** *** Accessing data *)

(** [nb_blocks], overridden by the circulant classes. *)
Definition nb_blocks (self : matrix) : int * int :=
  match self with
  | BlockSymmetricToeplitzMatrix b =>
      ((_stored_nb_blocks b).2, (_stored_nb_blocks b).2)
  | EvenBlockSymmetricCirculantMatrix _ n
  | OddBlockSymmetricCirculantMatrix _ n => (n, n)
  end.

(** [block_shape]: the shape of the first stored block, read from the
    shape lists at index 0; a constructed matrix has a first block, so the
    index exists unless the caller handed over empty lists. *)
Definition block_shape (self : matrix) : nat * nat :=
  (nth 0 (_stored_block_shapes (base self)).1 0,
   nth 0 (_stored_block_shapes (base self)).2 0).

(** [shape]: the total size of the matrix. *)
Definition shape_of (self : matrix) : int * int :=
  ((Posz (nth 0 (_stored_block_shapes (base self)).1 0)
    * (nb_blocks self).1)%R,
   (Posz (nth 0 (_stored_block_shapes (base self)).2 0)
    * (nb_blocks self).2)%R).

(** [_baseline_grid] of the even class:
    [blocks_indices[:-1] + blocks_indices[1:][::-1]]. *)
Definition Even_baseline_grid (b : BlockMatrix) : seq int :=
  let blocks_indices := Py.range 0 (Py.len (stored_row b)) in
  Py.slice_to (-1)%R blocks_indices
  ++ Py.reversed (Py.slice_from 1%R blocks_indices).

(** [_baseline_grid] of the odd class:
    [blocks_indices[:] + blocks_indices[1:][::-1]]. *)
Definition Odd_baseline_grid (b : BlockMatrix) : seq int :=
  let blocks_indices := Py.range 0 (Py.len (stored_row b)) in
  Py.slice_from 0%R blocks_indices
  ++ Py.reversed (Py.slice_from 1%R blocks_indices).

(** [_baseline_grid]; the Toeplitz class and the abstract circulant class
    have none. *)
Definition _baseline_grid (self : matrix) : result (seq int) :=
  match self with
  | BlockSymmetricToeplitzMatrix _ => Raise AttributeError
  | EvenBlockSymmetricCirculantMatrix b _ => Ok (Even_baseline_grid b)
  | OddBlockSymmetricCirculantMatrix b _ => Ok (Odd_baseline_grid b)
  end.

(** [_index_grid] of the Toeplitz class:
    [[[abs(i-j) for i in range(n)] for j in range(n)]]. *)
Definition Toeplitz_index_grid (n : int) : seq (seq int) :=
  [seq [seq `|i - j|%R | i <- Py.range 0 n] | j <- Py.range 0 n].

(** [_index_grid] of the circulant classes: the baseline, then for [i] in
    [range(1, nb_blocks)] the row [line[-i:] + line[:-i]]. *)
Definition Circulant_index_grid (line : seq int) (n : int) : seq (seq int) :=
  line :: [seq Py.slice_from (- i)%R line ++ Py.slice_to (- i)%R line
          | i <- Py.range 1 n].

(** [_index_grid], by class. *)
Definition _index_grid (self : matrix) : result (seq (seq int)) :=
  match self with
  | BlockSymmetricToeplitzMatrix _ =>
      Ok (Toeplitz_index_grid (nb_blocks self).1)
  | _ =>
      line <- _baseline_grid self ;;
      Ok (Circulant_index_grid line (nb_blocks self).1)
  end.

(** [first_block_line]: the stored row for the Toeplitz class, the stored
    row read at the baseline grid for the circulant classes. *)
Definition first_block_line (self : matrix) : result (seq ndarray) :=
  match self with
  | BlockSymmetricToeplitzMatrix b => Ok (stored_row b)
  | _ =>
      line <- _baseline_grid self ;;
      take_indices (stored_row (base self)) line
  end.

(** [all_blocks]: [np.array] of the blocks of the full matrix, one list
    per row of the index grid.  The rows of the grid are rows of the
    array [np.array(grid)]: a grid without any entry is an array of
    floats, whose rows cannot index [first_block_line]. *)
Definition all_blocks (self : matrix) : result (seq (seq ndarray)) :=
  grid <- _index_grid self ;;
  line <- first_block_line self ;;
  rows <- mapM (fun indices =>
                  if flatten grid is [::] then Raise IndexError
                  else take_indices line indices)
               grid ;;
  array_of_blocks rows.

(** [block_shapes]: the row counts and the column counts of the blocks of
    the full matrix.  The Toeplitz class hands over the stored list of
    column counts; the circulant classes, whose stored row is shorter than
    the matrix, repeat the first one. *)
Definition block_shapes (self : matrix) : result (seq nat * seq nat) :=
  let stored := _stored_block_shapes (base self) in
  match self with
  | BlockSymmetricToeplitzMatrix _ =>
      r <- Py.getitem stored.1 0%R ;;
      Ok (Py.repeat r (nb_blocks self).1, stored.2)
  | _ =>
      r <- Py.getitem stored.1 0%R ;;
      c <- Py.getitem stored.2 0%R ;;
      Ok (Py.repeat r (nb_blocks self).1, Py.repeat c (nb_blocks self).2)
  end.

(** [_positions_of_index] of the Toeplitz class:
    [[(i, j) for i in range(n) for j in range(n) if abs(i-j) == k]]. *)
Definition Toeplitz_positions_of_index (n k : int) : seq (int * int) :=
  flatten [seq [seq (i, j) | j <- Py.range 0 n & `|i - j|%R == k]
          | i <- Py.range 0 n].

(** [grid[i, j]] on a two-dimensional array of integers. *)
Definition getitem2 (grid : seq (seq int)) (i j : int) : result int :=
  row <- Py.getitem grid i ;;
  Py.getitem row j.

(** [_positions_of_index] of the circulant classes:
    [[(i, j) for i in range(n) for j in range(n) if grid[i, j] == k]],
    the cells being read in this order. *)
Definition Circulant_positions_of_index (grid : seq (seq int)) (n k : int)
  : result (seq (int * int)) :=
  rows <- mapM (fun i =>
            cells <- mapM (fun j => g <- getitem2 grid i j ;; Ok (j, g == k))
                       (Py.range 0 n) ;;
            Ok [seq (i, cell.1) | cell <- cells & cell.2])
          (Py.range 0 n) ;;
  Ok (flatten rows).

(** [_positions_of_index], by class. *)
Definition _positions_of_index (self : matrix) (k : int)
  : result (seq (int * int)) :=
  match self with
  | BlockSymmetricToeplitzMatrix _ =>
      Ok (Toeplitz_positions_of_index (nb_blocks self).1 k)
  | _ =>
      grid <- _index_grid self ;;
      Circulant_positions_of_index grid (nb_blocks self).1 k
  end.

(** *** Transforming data *)

(** An operand of [@]: a numpy array, or any other object. *)
Inductive pyobject :=
  | PyArray of ndarray
  | PyOther.

(** What [__matmul__] returns. *)
Inductive matmul_value :=
  | Vector of ndarray
  | NotImplemented.

(** [y.reshape(n)] for a Python integer [n]; numpy reads a negative [n] as
    a wildcard, which no call of the file uses. *)
Definition reshape_flat (y : ndarray) (n : int) : result ndarray :=
  match n with
  | Posz k => reshape y [:: k]
  | Negz _ => Raise NotModelled
  end.

(** [__matmul__] of the circulant classes.  The blocks of the store are
    numpy arrays, so [first_block_line] is stacked as it is. *)
Definition Circulant__matmul__ (self : matrix) (other : pyobject)
  : result matmul_value :=
  match other with
  | PyArray other =>
      if (ndim other == 1)
         && ((shape_of self).2 == Posz (nth 0 (shape other) 0))
      then
        line <- first_block_line self ;;
        AA <- array line ;;
        AAt <- fft AA ;;
        o3 <- reshape other (take 2 (shape AAt) ++ [:: 1]) ;;
        bt <- fft o3 ;;
        yt <- matmul AAt bt ;;
        yi <- ifft yt ;;
        y <- reshape_flat yi (shape_of self).1 ;;
        Ok (Vector (asarray y (dtype_of other)))
      else Ok NotImplemented
  | PyOther => Ok NotImplemented
  end.

(** [__matmul__] of the Toeplitz class.  [A] is an even circulant matrix,
    so [A @ b] is the circulant [__matmul__]; it cannot decline [b], whose
    length is [A.shape[1]] by construction. *)
Definition Toeplitz__matmul__ (self : matrix) (other : pyobject)
  : result matmul_value :=
  match other with
  | PyArray other =>
      if (ndim other == 1)
         && ((shape_of self).2 == Posz (nth 0 (shape other) 0))
      then
        A <- Even__init__ (_stored_blocks (base self))
               (Kwargs (Some (_stored_block_shapes (base self))) false) ;;
        z <- zeros ((shape_of A).2 - (shape_of self).2)%R ;;
        b <- concatenate other z ;;
        Ab <- Circulant__matmul__ A (PyArray b) ;;
        match Ab with
        | Vector y => Ok (Vector (Np.slice_to (shape_of self).1 y))
        | NotImplemented => Raise NotModelled
        end
      else Ok NotImplemented
  | PyOther => Ok NotImplemented
  end.

(** [self @ other], by class. *)
Definition __matmul__ (self : matrix) (other : pyobject)
  : result matmul_value :=
  match self with
  | BlockSymmetricToeplitzMatrix _ => Toeplitz__matmul__ self other
  | _ => Circulant__matmul__ self other
  end.

(** [T]: [self.__class__(np.array([[block.T for block in
    self._stored_blocks[0, :]]]))]. *)
Definition T (self : matrix) : result matrix :=
  transposed_row <- mapM Np.T (stored_row (base self)) ;;
  transposed_blocks <- array_of_blocks [:: transposed_row] ;;
  construct (__class__ self) transposed_blocks no_kwargs.

(** *** Transposition and the memory of the blocks *)

(** The arrays that are alive, by address.  An object of the three
    classes refers to the blocks of its stored row by their addresses. *)
Definition heap := seq ndarray.

(** The arrays at the addresses [addrs]. *)
Definition deref (h : heap) (addrs : seq nat) : result (seq ndarray) :=
  mapM (fun a => Py.getitem h (Posz a)) addrs.

(** [T] run on a heap, for an object of class [c] whose stored blocks are
    at [addrs].  [block.T] is a view: it reads the block and writes
    nothing; [np.array] allocates the array of the transposes, and the
    constructor stores its blocks.  No statement of [T] assigns to [self]
    or to an array.  The result is the heap after the call, the addresses
    of the stored blocks of the transpose, and the transpose. *)
Definition T_on_heap (h : heap) (c : class) (addrs : seq nat)
  : result (heap * seq nat * matrix) :=
  row <- deref h addrs ;;
  transposed_row <- mapM Np.T row ;;
  transposed_blocks <- array_of_blocks [:: transposed_row] ;;
  A' <- construct c transposed_blocks no_kwargs ;;
  let new := stored_row (base A') in
  Ok (h ++ new, iota (size h) (size new), A').

(** *** The dense reference *)

(** Modelled from the spec: [full_matrix], of the class [BlockMatrix]
    that is not among the sources: the dense array "obtainable by
    materializing blocks according to [index_grid()]", that is, the blocks
    of [all_blocks] laid out side by side. *)
Definition full_matrix (self : matrix) : result ndarray :=
  blocks <- all_blocks self ;;
  let n := Py.to_nat (nb_blocks self).1 in
  let r := (block_shape self).1 in
  let c := (block_shape self).2 in
  Ok (NdArray [:: n * r; n * c]
        (foldr result_type float64 (map dtype_of (flatten blocks)))
        (mkseq (fun idx =>
           let p := idx %/ (n * c) in
           let q := idx %% (n * c) in
           nth 0%R
             (data (nth (NdArray [::] float64 [::])
                        (nth [::] blocks (p %/ r)) (q %/ c)))
             ((p %% r) * c + q %% c))
           ((n * r) * (n * c)))).

(** The product the fast paths are compared with:
    [self.full_matrix() @ v]. *)
Definition dense_matvec (self : matrix) (v : ndarray) : result ndarray :=
  d <- full_matrix self ;;
  matvec d v.

(** *** Sample data *)

(** A real block of one entry, and stored rows made of it. *)
Definition unit_block : ndarray := NdArray [:: 1; 1] float64 [:: 1%R].

Definition row_of (n : nat) : seq ndarray := nseq n unit_block.

Definition sample_store (n : nat) : BlockMatrix :=
  mkBlockMatrix [:: row_of n] (1%R, Posz n)
    ([:: 1], nseq n 1).

(** A block of one entry. *)
Definition scalar_block (d : dtype) (x : algC) : ndarray :=
  NdArray [:: 1; 1] d [:: x].

(** The stored row of the three real blocks [1], [2], [3]. *)
Definition scenario_row : seq ndarray :=
  [:: scalar_block float64 1%R; scalar_block float64 2%:R%R;
      scalar_block float64 3%:R%R].

(** A complex block. *)
Definition imaginary_block : ndarray := scalar_block complex128 'i%R.

(** A real block of one row and two columns. *)
Definition wide_block : ndarray := NdArray [:: 1; 2] float64 [:: 1%R; 0%R].

(** Real vectors of ones. *)
Definition ones (n : nat) : ndarray := NdArray [:: n] float64 (nseq n 1%R).

(** The first vector of the canonical basis, as a real array. *)
Definition basis_vector (n : nat) : ndarray :=
  NdArray [:: n] float64 (1%R :: nseq n.-1 0%R).

(** *** Notions of the statements *)

(** A stored row of well-formed blocks of shape [(r, c)]. *)
Definition row_of_shape (r c : nat) (row : seq ndarray) : bool :=
  all (fun b => (shape b == [:: r; c]) && wf b) row.

(** A stored row of [float64] blocks. *)
Definition real_row (row : seq ndarray) : bool :=
  all (fun b => dtype_eqb (dtype_of b) float64) row.

(** A well-formed vector. *)
Definition is_vector (v : ndarray) : bool := (ndim v == 1) && wf v.

(** The vector [v] padded with zeros on the right to the length [n]. *)
Definition padded (n : nat) (v : ndarray) : ndarray :=
  NdArray [:: n] (dtype_of v) (data v ++ nseq (n - size (data v)) 0%R).

(** The state the base constructor builds from one stored row of blocks
    of shape [(r, c)]. *)
Definition store_of (r c : nat) (row : seq ndarray) : BlockMatrix :=
  mkBlockMatrix [:: row] (1%R, Posz (size row)) ([:: r], nseq (size row) c).

(** Keyword arguments that leave the shapes to the constructor. *)
Definition checked (chk : bool) : kwargs := Kwargs None chk.

(** The list [0, 1, ..., n-1]. *)
Definition ascending (n : nat) : seq int := [seq Posz k | k <- iota 0 n].

(** The list [hi, hi-1, ...] of length [n]. *)
Definition descending (hi n : nat) : seq int :=
  [seq Posz (hi - k) | k <- iota 0 n].

(** Entry [(i, j)] of an index grid. *)
Definition entry (grid : seq (seq int)) (i j : nat) : int :=
  nth 0%R (nth [::] grid i) j.

(** A grid of [n] rows of [n] entries. *)
Definition square_grid (n : nat) (grid : seq (seq int)) : bool :=
  (size grid == n) && all (fun row => size row == n) grid.

(** The offset [(j - i) mod m] of a column from a row. *)
Definition cyclic_offset (m i j : nat) : int :=
  ((Posz j - Posz i) %% Posz m)%Z.

(** The distance of two block positions. *)
Definition dist (i j : nat) : nat := if i <= j then j - i else i - j.

(** The distance of [k] to the nearer end of the period [m]: what both
    baselines hold at position [k]. *)
Definition fold_index (m k : nat) : nat := if k <= m - k then k else m - k.

(** The stored index at block position [(i, j)] of a circulant matrix of
    period [m]. *)
Definition circulant_index (m i j : nat) : nat := fold_index m (dist i j).

(** The entries of the product of a block matrix with a vector [x], when
    the block at position [(i, j)] is the stored block [index i j]: the
    matrix has [m] by [m] blocks of shape [(r, r)]. *)
Definition block_product (r m : nat) (index : nat -> nat -> nat)
    (row : seq ndarray) (x : seq algC) : seq algC :=
  mkseq (fun p =>
    (\sum_(0 <= q < m) \sum_(0 <= t < r)
       nth 0 (data (nth unit_block row (index (p %/ r)%N q)))
             ((p %% r) * r + t)%N
       * nth 0 x (q * r + t)%N)%R)
    (m * r).

(** A stored row of blocks of one dtype [d].  [np.array], which
    [all_blocks] and [T] apply to lists of blocks, gives the blocks of
    such a row back as they are; on a row that mixes the two dtypes it
    would first promote the real blocks. *)
Definition row_of_dtype (d : dtype) (row : seq ndarray) : bool :=
  all (fun b => dtype_eqb (dtype_of b) d) row.

(** Block [(i, j)] of the rows of blocks that [all_blocks] returns. *)
Definition block_at (blocks : seq (seq ndarray)) (i j : nat) : ndarray :=
  nth unit_block (nth [::] blocks i) j.

(** The stored index of the block at position [(i, j)] of a matrix of
    [n] by [n] blocks: the distance of [i] and [j], folded over the period
    in the circulant classes. *)
Definition stored_index (c : class) (n i j : nat) : nat :=
  if c is Toeplitz then dist i j else circulant_index n i j.

(** The object of class [c] that a constructor makes of the state [b] of
    the base class. *)
Definition instance_of (c : class) (b : BlockMatrix) : matrix :=
  match c with
  | Toeplitz => BlockSymmetricToeplitzMatrix b
  | EvenCirculant =>
      EvenBlockSymmetricCirculantMatrix b
        (((_stored_nb_blocks b).2 - 1) * 2)%R
  | OddCirculant =>
      OddBlockSymmetricCirculantMatrix b
        ((_stored_nb_blocks b).2 * 2 - 1)%R
  end.

(** * Properties *)

(** ** Linear arithmetic on [nat]

    [lia] is taught the operations of ssrnat. *)

#[global] Instance Op_addn : BinOp addn := Op_plus.
Add Zify BinOp Op_addn.

#[global] Instance Op_subn : BinOp subn := Op_sub.
Add Zify BinOp Op_subn.

#[global] Instance Op_muln : BinOp muln := Op_mul.
Add Zify BinOp Op_muln.

Lemma leq_lebE (m n : nat) : (m <= n) = Nat.leb m n.
Proof. by apply/leP/idP => [/Nat.leb_le|/Nat.leb_le]. Qed.

#[global] Instance Op_leq : BinOp leq :=
  { TBOp := Z.leb;
    TBOpInj := fun m n =>
      eq_trans (leq_lebE m n) (TBOpInj (BinOp := Op_nat_leb) m n) }.
Add Zify BinOp Op_leq.

Lemma eqn_eqbE (m n : nat) : (m == n) = Nat.eqb m n.
Proof. by apply/eqP/idP => [/Nat.eqb_eq|/Nat.eqb_eq]. Qed.

#[global] Instance Op_eqn : BinOp (@eq_op nat : nat -> nat -> bool) :=
  { TBOp := Z.eqb;
    TBOpInj := fun m n =>
      eq_trans (eqn_eqbE m n) (TBOpInj (BinOp := Op_nat_eqb) m n) }.
Add Zify BinOp Op_eqn.

Ltac slia := unfold is_true in *; lia.
Ltac snia := unfold is_true in *; nia.

(** ** Python ranges and slices *)

Section PyLemmas.

Variable U : Type.
Implicit Types (s : seq U) (i n : nat).

Lemma range_nat (a b : nat) :
  Py.range (Posz a) (Posz b) = [seq Posz k | k <- iota a (b - a)].
Proof.
rewrite /Py.range; case: (leqP a b) => [le_ab | lt_ba].
  rewrite subzn //; apply: (@eq_from_nth _ 0%R) => [|k].
    by rewrite !size_map !size_iota.
  rewrite size_map size_iota => lt_k.
  by rewrite !(nth_map 0) ?size_iota // !nth_iota // add0n PoszD.
have -> : b - a = 0 by slia.
have -> : (Posz b - Posz a = Negz (a - b).-1)%R.
  rewrite -opprB subzn 1?ltnW // NegzE prednK //; slia.
by [].
Qed.

Lemma range0_nat n : Py.range 0 (Posz n) = [seq Posz k | k <- iota 0 n].
Proof. by rewrite (range_nat 0 n) subn0. Qed.

Lemma slice_from_neg i s :
  0 < i -> Py.slice_from (- Posz i)%R s = drop (size s - i) s.
Proof. by case: i => // i _; rewrite -NegzE. Qed.

Lemma slice_to_neg i s :
  0 < i -> Py.slice_to (- Posz i)%R s = take (size s - i) s.
Proof. by case: i => // i _; rewrite -NegzE. Qed.

Lemma slice_from_pos i s : Py.slice_from (Posz i) s = drop i s.
Proof.
rewrite /Py.slice_from /Py.bound; case: (leqP i (size s)) => h //.
by rewrite !drop_oversize // ltnW.
Qed.

End PyLemmas.

(** ** The baseline grids *)

Lemma rev_iota1 (m : nat) :
  [seq Posz k | k <- rev (iota 1 m)] = descending m m.
Proof.
apply: (@eq_from_nth _ 0%R) => [|k].
  by rewrite !size_map size_rev !size_iota.
rewrite size_map size_rev size_iota => lt_k.
rewrite (nth_map 0) ?size_rev ?size_iota // nth_rev ?size_iota //.
rewrite (nth_map 0) ?size_iota // !nth_iota //; first by slia.
by congr Posz; slia.
Qed.

Lemma Even_baseline_gridE (b : BlockMatrix) :
  let n := size (stored_row b) in
  Even_baseline_grid b = ascending (n - 1) ++ descending (n - 1) (n - 1).
Proof.
rewrite /Even_baseline_grid /Py.len /Py.reversed range0_nat.
rewrite (@slice_to_neg _ 1) // (@slice_from_pos _ 1) -rev_iota1.
rewrite size_map size_iota -map_take -map_drop -map_rev.
by rewrite take_iota drop_iota add0n (minn_idPl (leq_subr _ _)).
Qed.

Lemma Odd_baseline_gridE (b : BlockMatrix) :
  let n := size (stored_row b) in
  Odd_baseline_grid b = ascending n ++ descending (n - 1) (n - 1).
Proof.
rewrite /Odd_baseline_grid /Py.len /Py.reversed range0_nat.
rewrite (@slice_from_pos _ 0) drop0.
rewrite (@slice_from_pos _ 1) -rev_iota1 -map_drop -map_rev.
by rewrite drop_iota add0n.
Qed.

Lemma nth_ascending (n k : nat) : k < n -> nth 0%R (ascending n) k = Posz k.
Proof.
by move=> lt_k; rewrite (nth_map 0) ?size_iota // nth_iota // add0n.
Qed.

Lemma nth_descending (hi n k : nat) :
  k < n -> nth 0%R (descending hi n) k = Posz (hi - k).
Proof.
by move=> lt_k; rewrite (nth_map 0) ?size_iota // nth_iota // add0n.
Qed.

Lemma size_ascending n : size (ascending n) = n.
Proof. by rewrite size_map size_iota. Qed.

Lemma size_descending hi n : size (descending hi n) = n.
Proof. by rewrite size_map size_iota. Qed.

Lemma nth_even_baseline (n k : nat) :
  k < (n - 1) * 2 ->
  nth 0%R (ascending (n - 1) ++ descending (n - 1) (n - 1)) k
  = Posz (fold_index ((n - 1) * 2) k).
Proof.
move=> lt_k; rewrite nth_cat size_ascending /fold_index.
case: (ltnP k (n - 1)) => h.
  by rewrite nth_ascending //; have -> : k <= (n - 1) * 2 - k by slia.
rewrite nth_descending; first by slia.
by case: ifP => h2; congr Posz; slia.
Qed.

Lemma nth_odd_baseline (n k : nat) :
  k < n * 2 - 1 ->
  nth 0%R (ascending n ++ descending (n - 1) (n - 1)) k
  = Posz (fold_index (n * 2 - 1) k).
Proof.
move=> lt_k; rewrite nth_cat size_ascending /fold_index.
case: (ltnP k n) => h.
  by rewrite nth_ascending //; have -> : k <= n * 2 - 1 - k by slia.
rewrite nth_descending; first by slia.
by case: ifP => h2; congr Posz; slia.
Qed.

(** ** The index grids *)

Section Rotations.

Variable U : Type.
Variable x0 : U.
Implicit Types (s : seq U) (i j m : nat).

Lemma nth_rotr s i j :
  i < size s -> j < size s ->
  nth x0 (rotr i s) j = nth x0 s ((j + size s - i) %% size s).
Proof.
move=> lt_i lt_j; rewrite /rotr /rot nth_cat size_drop.
have -> : size s - (size s - i) = i by slia.
case: (ltnP j i) => h.
  rewrite nth_drop modn_small; first by slia.
  by congr nth; slia.
rewrite nth_take; first by slia.
have -> : j + size s - i = (j - i) + size s by slia.
by rewrite modnDr modn_small //; slia.
Qed.

Lemma rotr1_rotr s i : i.+1 < size s -> rotr 1 (rotr i s) = rotr i.+1 s.
Proof.
move=> lt_i; rewrite /rotr size_rot rot_add_mod ?leq_subr //.
case: ifP => h; first by slia.
by congr rot; slia.
Qed.

End Rotations.

Lemma Circulant_rowE (line : seq int) (i : nat) :
  i < size line ->
  nth [::] (Circulant_index_grid line (Posz (size line))) i = rotr i line.
Proof.
case: i => [|i] lt_i; first by rewrite /= /rotr subn0 rot_size.
rewrite /Circulant_index_grid /= (range_nat 1) -map_comp.
rewrite (nth_map 0) ?size_iota; first by slia.
rewrite nth_iota /=; first by slia.
by rewrite slice_from_neg // slice_to_neg.
Qed.

Lemma size_Circulant_index_grid (line : seq int) :
  0 < size line ->
  size (Circulant_index_grid line (Posz (size line))) = size line.
Proof.
by move=> gt0; rewrite /= (range_nat 1) !size_map size_iota; slia.
Qed.

Lemma Circulant_square (line : seq int) :
  0 < size line ->
  square_grid (size line) (Circulant_index_grid line (Posz (size line))).
Proof.
move=> gt0; rewrite /square_grid size_Circulant_index_grid // eqxx andTb.
apply/(all_nthP [::]) => i; rewrite size_Circulant_index_grid // => lt_i.
by rewrite Circulant_rowE // size_rotr.
Qed.

(** The grid always has its first row, the baseline: [max(1, M)] rows of
    [M] entries. *)
Lemma Circulant_index_grid_sizes (line : seq int) :
  let grid := Circulant_index_grid line (Posz (size line)) in
  size grid = maxn 1 (size line)
  /\ all (fun zs => size zs == size line) grid.
Proof.
move=> grid; split.
  rewrite /grid /= (range_nat 1) !size_map size_iota.
  by rewrite /maxn; case: ifP => ?; slia.
case: (posnP (size line)) => [M0 | M_gt0]; last first.
  by case/andP: (Circulant_square M_gt0).
by rewrite /grid /Circulant_index_grid M0 /=; move/size0nil: (M0) => ->.
Qed.

Lemma Circulant_entry (line : seq int) (i j : nat) :
  i < size line -> j < size line ->
  entry (Circulant_index_grid line (Posz (size line))) i j
  = nth 0%R line ((j + size line - i) %% size line).
Proof. by move=> lt_i lt_j; rewrite /entry Circulant_rowE // nth_rotr. Qed.

Lemma Toeplitz_entry (n i j : nat) :
  i < n -> j < n ->
  entry (Toeplitz_index_grid (Posz n)) i j = `|Posz i - Posz j|%R.
Proof.
move=> lt_i lt_j; rewrite /entry /Toeplitz_index_grid range0_nat.
rewrite (nth_map 0%R) ?size_map ?size_iota //.
rewrite (nth_map 0%R) ?size_map ?size_iota //.
rewrite !(nth_map 0) ?size_iota //.
by rewrite !nth_iota // !add0n /= distrC.
Qed.

Lemma Toeplitz_square (n : nat) :
  square_grid n (Toeplitz_index_grid (Posz n)).
Proof.
rewrite /square_grid /Toeplitz_index_grid range0_nat !size_map size_iota.
rewrite eqxx /=; apply/allP => row /mapP [j _ ->].
by rewrite !size_map size_iota.
Qed.

(** ** The constructors *)

Lemma BlockMatrix__init__P (row : seq ndarray) (kw : kwargs) (b : BlockMatrix) :
  BlockMatrix__init__ [:: row] kw = Ok b ->
  [/\ _stored_blocks b = [:: row],
      _stored_nb_blocks b = (1%R, Posz (size row)),
      0 < size row
    & check_dim kw -> _check_dimension b].
Proof.
rewrite /BlockMatrix__init__; case: row => [|b00 row] //.
set self := mkBlockMatrix _ _ _.
case: (check_dim kw) => [|[<-]]; last by split.
by case chk: (_check_dimension self) => // -[<-]; split.
Qed.

Lemma stored_row_init (row : seq ndarray) (kw : kwargs) (b : BlockMatrix) :
  BlockMatrix__init__ [:: row] kw = Ok b -> stored_row b = row.
Proof. by case/BlockMatrix__init__P; rewrite /stored_row => ->. Qed.

Lemma Toeplitz__init__P (row : seq ndarray) (kw : kwargs) (A : matrix) :
  Toeplitz__init__ [:: row] kw = Ok A ->
  exists2 b, BlockMatrix__init__ [:: row] kw = Ok b
           & A = BlockSymmetricToeplitzMatrix b.
Proof.
rewrite /Toeplitz__init__; case: (BlockMatrix__init__ _ _) => [b|e] //=.
by case=> <-; exists b.
Qed.

Lemma Even__init__P (row : seq ndarray) (kw : kwargs) (A : matrix) :
  Even__init__ [:: row] kw = Ok A ->
  exists2 b, BlockMatrix__init__ [:: row] kw = Ok b
           & A = EvenBlockSymmetricCirculantMatrix b
                   (Posz ((size row - 1) * 2)).
Proof.
rewrite /Even__init__; case ini: (BlockMatrix__init__ _ _) => [b|e] //=.
case=> <-; exists b => //; case/BlockMatrix__init__P: ini => _ -> gt0 _ /=.
by rewrite subzn // -PoszM.
Qed.

Lemma Odd__init__P (row : seq ndarray) (kw : kwargs) (A : matrix) :
  Odd__init__ [:: row] kw = Ok A ->
  exists2 b, BlockMatrix__init__ [:: row] kw = Ok b
           & A = OddBlockSymmetricCirculantMatrix b
                   (Posz (size row * 2 - 1)).
Proof.
rewrite /Odd__init__; case ini: (BlockMatrix__init__ _ _) => [b|e] //=.
case=> <-; exists b => //; case/BlockMatrix__init__P: ini => _ -> gt0 _ /=.
by rewrite -PoszM subzn //; slia.
Qed.

(** The period of a circulant matrix is the length of its baseline. *)
Lemma size_even_baseline (n : nat) :
  size (ascending (n - 1) ++ descending (n - 1) (n - 1)) = (n - 1) * 2.
Proof. by rewrite size_cat size_ascending size_descending; slia. Qed.

Lemma size_odd_baseline (n : nat) :
  0 < n -> size (ascending n ++ descending (n - 1) (n - 1)) = n * 2 - 1.
Proof. by move=> ?; rewrite size_cat size_ascending size_descending; slia. Qed.

Lemma fold_index_sym (m k : nat) :
  0 < k -> k < m -> fold_index m (m - k) = fold_index m k.
Proof.
by move=> gt0 lt_k; rewrite /fold_index; do 2![case: ifP => ?]; slia.
Qed.

(** A list that holds [fold_index] gives a symmetric circulant grid. *)
Lemma Circulant_entry_fold (line : seq int) (i j : nat) :
  (forall k, k < size line ->
     nth 0%R line k = Posz (fold_index (size line) k)) ->
  i < size line -> j < size line ->
  entry (Circulant_index_grid line (Posz (size line))) i j
  = Posz (fold_index (size line) (if i <= j then j - i else i - j)).
Proof.
move=> line_fold lt_i lt_j; rewrite Circulant_entry //.
case: (leqP i j) => h.
  have -> : j + size line - i = (j - i) + size line by slia.
  rewrite modnDr modn_small; first by slia.
  by rewrite line_fold //; slia.
rewrite modn_small; first by slia.
rewrite line_fold; first by slia.
have -> : j + size line - i = size line - (i - j) by slia.
by rewrite fold_index_sym //; slia.
Qed.

Lemma cyclic_offsetE (m i j : nat) :
  i < m -> j < m -> cyclic_offset m i j = Posz ((j + m - i) %% m).
Proof.
move=> lt_i lt_j; rewrite /cyclic_offset -modz_nat -(modzDr _ (Posz m)).
by congr modz; rewrite -subzn; [slia | rewrite PoszD addrAC].
Qed.

Lemma sample_init (n : nat) :
  0 < n -> BlockMatrix__init__ [:: row_of n] no_kwargs = Ok (sample_store n).
Proof.
case: n => // n _; rewrite /BlockMatrix__init__ /row_of /=.
set self := mkBlockMatrix _ _ _.
have -> : _check_dimension self.
  by rewrite /_check_dimension /stored_row /= all_nseq eqxx orbT.
by rewrite /self /sample_store /Py.len /= size_nseq map_nseq.
Qed.

(** ** The baseline grids and block counts of the two variants *)

(** C3.  For a stored row of length [N_s], the even variant has
    [2 * (N_s - 1)] logical blocks and the baseline grid
    [0, ..., N_s - 2] followed by [N_s - 1, ..., 1]; the odd variant has
    [2 * N_s - 1] logical blocks and the baseline grid [0, ..., N_s - 1]
    followed by [N_s - 1, ..., 1]. *)
Theorem baseline_grid_formulas (row : seq ndarray) (kw : kwargs) (A : matrix) :
  let n := size row in
  (Even__init__ [:: row] kw = Ok A ->
     nb_blocks A = ((2 * (Posz n - 1))%R, (2 * (Posz n - 1))%R)
     /\ _baseline_grid A
        = Ok (ascending (n - 1) ++ descending (n - 1) (n - 1)))
  /\ (Odd__init__ [:: row] kw = Ok A ->
     nb_blocks A = ((2 * Posz n - 1)%R, (2 * Posz n - 1)%R)
     /\ _baseline_grid A
        = Ok (ascending n ++ descending (n - 1) (n - 1))).
Proof.
move=> n; split.
  rewrite /Even__init__; case ini: (BlockMatrix__init__ _ _) => [b|e] //=.
  case=> <- /=; rewrite Even_baseline_gridE (stored_row_init ini).
  by case/BlockMatrix__init__P: ini => _ -> _ _ /=; rewrite mulrC.
rewrite /Odd__init__; case ini: (BlockMatrix__init__ _ _) => [b|e] //=.
case=> <- /=; rewrite Odd_baseline_gridE (stored_row_init ini).
by case/BlockMatrix__init__P: ini => _ -> _ _ /=; rewrite mulrC.
Qed.

Lemma baseline_grid_formulas_witness :
  (nb_blocks (EvenBlockSymmetricCirculantMatrix (sample_store 4) 6)
   = ((2 * (4 - 1))%R, (2 * (4 - 1))%R)
   /\ _baseline_grid (EvenBlockSymmetricCirculantMatrix (sample_store 4) 6)
      = Ok [:: 0; 1; 2; 3; 2; 1]%R)
  /\ (nb_blocks (OddBlockSymmetricCirculantMatrix (sample_store 4) 7)
      = ((2 * 4 - 1)%R, (2 * 4 - 1)%R)
      /\ _baseline_grid (OddBlockSymmetricCirculantMatrix (sample_store 4) 7)
         = Ok [:: 0; 1; 2; 3; 3; 2; 1]%R).
Proof.
split.
  apply: (proj1 (baseline_grid_formulas (row_of 4) no_kwargs _)).
  by rewrite /Even__init__ sample_init.
apply: (proj2 (baseline_grid_formulas (row_of 4) no_kwargs _)).
by rewrite /Odd__init__ sample_init.
Defined.

(** ** The index grid of the Toeplitz class *)

(** C4.  The index grid of a Toeplitz matrix of [N] stored blocks is an
    [N x N] grid whose entry [(i, j)] is [|i - j|], and two Toeplitz
    matrices with the same [N] have the same grid. *)
Theorem Toeplitz_index_grid_law (row : seq ndarray) (kw : kwargs) (A : matrix) :
  Toeplitz__init__ [:: row] kw = Ok A ->
  exists grid,
    [/\ _index_grid A = Ok grid,
        square_grid (size row) grid,
        forall i j, i < size row -> j < size row ->
          entry grid i j = `|Posz i - Posz j|%R
      & forall row' kw' B,
          Toeplitz__init__ [:: row'] kw' = Ok B -> size row' = size row ->
          _index_grid B = Ok grid].
Proof.
case/Toeplitz__init__P => b /BlockMatrix__init__P [_ nb _ _] ->.
exists (Toeplitz_index_grid (Posz (size row))); split.
- by rewrite /= nb.
- exact: Toeplitz_square.
- by move=> i j; exact: Toeplitz_entry.
move=> row' kw' B /Toeplitz__init__P [b' /BlockMatrix__init__P [_ nb' _ _] ->].
by move=> <-; rewrite /= nb'.
Qed.

Lemma Toeplitz_index_grid_law_witness :
  exists grid,
    [/\ _index_grid (BlockSymmetricToeplitzMatrix (sample_store 3)) = Ok grid,
        square_grid 3 grid,
        forall i j, i < 3 -> j < 3 -> entry grid i j = `|Posz i - Posz j|%R
      & forall row' kw' B,
          Toeplitz__init__ [:: row'] kw' = Ok B -> size row' = 3 ->
          _index_grid B = Ok grid].
Proof.
apply: (@Toeplitz_index_grid_law (row_of 3) no_kwargs).
by rewrite /Toeplitz__init__ sample_init.
Defined.

(** ** Symmetry of the index grids and the circulant diagonals *)

Lemma circulant_baseline_fold (c : class) (row : seq ndarray) (kw : kwargs)
    (A : matrix) :
  c <> Toeplitz -> construct c [:: row] kw = Ok A ->
  exists line,
    [/\ _baseline_grid A = Ok line,
        (nb_blocks A).1 = Posz (size line),
        forall k, k < size line ->
          nth 0%R line k = Posz (fold_index (size line) k)
      & size line = if c is EvenCirculant then (size row - 1) * 2
                    else size row * 2 - 1].
Proof.
case: c => [[]|_|_] //=.
  case/Even__init__P => b ini ->; rewrite /= Even_baseline_gridE.
  rewrite (stored_row_init ini); eexists; split; first by [].
  - by rewrite size_even_baseline.
  - by move=> k; rewrite size_even_baseline; exact: nth_even_baseline.
  by rewrite size_even_baseline.
case/Odd__init__P => b ini ->; rewrite /= Odd_baseline_gridE.
have gt0 : 0 < size row by case/BlockMatrix__init__P: ini.
rewrite (stored_row_init ini); eexists; split; first by [].
- by rewrite size_odd_baseline.
- by move=> k; rewrite size_odd_baseline //; exact: nth_odd_baseline.
by rewrite size_odd_baseline.
Qed.

(** C5.  The index grid of every constructed matrix has [max(1, M)] rows
    of [M] entries, [M] being the number of blocks per side, and is
    symmetric; for the two circulant variants its first row is the
    baseline grid, of length [M], every further row is the previous one
    rotated right by one position, and the entry [(i, j)] is the baseline
    read at [(j - i) mod M]. *)
Theorem index_grid_symmetric (c : class) (row : seq ndarray) (kw : kwargs)
    (A : matrix) :
  construct c [:: row] kw = Ok A ->
  let M := Py.to_nat (nb_blocks A).1 in
  exists grid,
    [/\ _index_grid A = Ok grid,
        size grid = maxn 1 M /\ all (fun line => size line == M) grid,
        forall i j, i < M -> j < M -> entry grid i j = entry grid j i
      & c <> Toeplitz ->
        exists line,
          [/\ _baseline_grid A = Ok line /\ size line = M,
              nth [::] grid 0 = line,
              forall i, i.+1 < M ->
                nth [::] grid i.+1 = rotr 1 (nth [::] grid i)
            & forall i j, i < M -> j < M ->
                entry grid i j
                = nth 0%R line (Py.to_nat (cyclic_offset M i j))]].
Proof.
have [-> | notT] : c = Toeplitz \/ c <> Toeplitz by case: c; [left|right|right].
  move=> /=.
  case/Toeplitz__init__P => b /BlockMatrix__init__P [_ nb gt0 _] -> /=.
  rewrite nb /=; exists (Toeplitz_index_grid (Posz (size row))).
  case/andP: (Toeplitz_square (size row)) => /eqP sz_grid sz_rows.
  split=> //; first by rewrite sz_grid; split=> //; rewrite /maxn; case: ifP; slia.
  by move=> i j lt_i lt_j; rewrite !Toeplitz_entry // distrC.
move=> cons; have [line [base nb line_fold _]] := circulant_baseline_fold notT cons.
have -> /= : _index_grid A
    = Ok (Circulant_index_grid line (Posz (size line))).
  by case: A base nb {cons} => [b|b n|b n] //= [->] /= ->.
rewrite nb /=; eexists; split; first by [].
- exact: Circulant_index_grid_sizes.
- move=> i j lt_i lt_j; rewrite !Circulant_entry_fold //.
  by case: (ltngtP i j) => // ->.
move=> _; exists line; split=> //.
  by move=> i lt_i; rewrite !Circulant_rowE ?(ltnW lt_i) // rotr1_rotr.
move=> i j lt_i lt_j.
by rewrite Circulant_entry // cyclic_offsetE.
Qed.

Lemma index_grid_symmetric_witness :
  let A := OddBlockSymmetricCirculantMatrix (sample_store 3) 5 in
  exists grid,
    [/\ _index_grid A = Ok grid,
        size grid = maxn 1 5 /\ all (fun line => size line == 5) grid,
        forall i j, i < 5 -> j < 5 -> entry grid i j = entry grid j i
      & OddCirculant <> Toeplitz ->
        exists line,
          [/\ _baseline_grid A = Ok line /\ size line = 5,
              nth [::] grid 0 = line,
              forall i, i.+1 < 5 ->
                nth [::] grid i.+1 = rotr 1 (nth [::] grid i)
            & forall i j, i < 5 -> j < 5 ->
                entry grid i j
                = nth 0%R line (Py.to_nat (cyclic_offset 5 i j))]].
Proof.
apply: (@index_grid_symmetric OddCirculant (row_of 3) no_kwargs).
by rewrite /construct /Odd__init__ sample_init.
Defined.

(** ** The leading block of the even embedding *)

(** C10.  For a stored row of length [N_s >= 2], the index grid of the
    even circulant variant agrees with the Toeplitz grid on the rows and
    columns [0 .. N_s - 1]: its entry [(i, j)] is [|i - j|]. *)
Theorem even_grid_leading_block (row : seq ndarray) (kw : kwargs) (A : matrix) :
  1 < size row ->
  Even__init__ [:: row] kw = Ok A ->
  exists grid,
    _index_grid A = Ok grid
    /\ forall i j, i < size row -> j < size row ->
         entry grid i j = `|Posz i - Posz j|%R.
Proof.
move=> gt1 cons.
have notT : EvenCirculant <> Toeplitz by [].
have [line [base nb line_fold sz]] := circulant_baseline_fold notT cons.
have -> /= : _index_grid A
    = Ok (Circulant_index_grid line (Posz (size line))).
  by case: A base nb {cons} => [b|b n|b n] //= [->] /= ->.
eexists; split; first by [].
move=> i j lt_i lt_j; rewrite Circulant_entry_fold //; try by slia.
rewrite -abszE /fold_index sz; congr Posz.
case: (leqP i j) => h.
  rewrite distnEr //.
  by have -> : j - i <= (size row - 1) * 2 - (j - i) by slia.
rewrite (distnEl (ltnW h)).
by have -> : i - j <= (size row - 1) * 2 - (i - j) by slia.
Qed.

Lemma even_grid_leading_block_witness :
  exists grid,
    _index_grid (EvenBlockSymmetricCirculantMatrix (sample_store 3) 4)
    = Ok grid
    /\ forall i j, i < 3 -> j < 3 -> entry grid i j = `|Posz i - Posz j|%R.
Proof.
apply: (@even_grid_leading_block (row_of 3) no_kwargs); first by [].
by rewrite /Even__init__ sample_init.
Defined.

(** ** Construction from a single stored block *)

Lemma single_block_init (blk : ndarray) (kw : kwargs) :
  exists2 b, BlockMatrix__init__ [:: [:: blk]] kw = Ok b
           & stored_row b = [:: blk].
Proof.
rewrite /BlockMatrix__init__; set self := mkBlockMatrix _ _ _.
by exists self => //; case: (check_dim kw).
Qed.

(** The claim of C7 fails: the even variant is constructed from a stored
    row of length 1, with no logical block at all. *)
Lemma even_single_block_is_constructed :
  Even__init__ [:: row_of 1] no_kwargs
  = Ok (EvenBlockSymmetricCirculantMatrix (sample_store 1) 0)
  /\ forall e, Even__init__ [:: row_of 1] no_kwargs <> Raise e.
Proof. by rewrite /Even__init__ sample_init. Qed.

(** C7, amended.  No constructor checks the length of the stored row.
    From a stored row of length 1 the even variant is constructed with
    [M = 0] logical blocks and an empty baseline grid, and the odd variant
    with [M = 1], the baseline grid [0] and the index grid [[0]]. *)
Theorem single_block_variants (blk : ndarray) (kw : kwargs) :
  exists b,
    [/\ Even__init__ [:: [:: blk]] kw
        = Ok (EvenBlockSymmetricCirculantMatrix b 0),
        nb_blocks (EvenBlockSymmetricCirculantMatrix b 0) = (0%R, 0%R)
      & _baseline_grid (EvenBlockSymmetricCirculantMatrix b 0) = Ok [::]]
    /\
    [/\ Odd__init__ [:: [:: blk]] kw
        = Ok (OddBlockSymmetricCirculantMatrix b 1),
        nb_blocks (OddBlockSymmetricCirculantMatrix b 1) = (1%R, 1%R),
        _baseline_grid (OddBlockSymmetricCirculantMatrix b 1) = Ok [:: 0%R]
      & _index_grid (OddBlockSymmetricCirculantMatrix b 1)
        = Ok [:: [:: 0%R]]].
Proof.
have [b ini row_b] := single_block_init blk kw; exists b.
have [_ nb _ _] := BlockMatrix__init__P ini.
by split; split; rewrite /Even__init__ /Odd__init__ ?ini /= ?nb
     /Even_baseline_grid /Odd_baseline_grid ?row_b.
Qed.

(** ** Operands that [__matmul__] declines *)

(** The claim of C8 fails: a vector of the wrong length and an operand
    that is no array get the same answer, the value [NotImplemented], and
    no exception is raised for either. *)
Lemma matmul_same_answer_for_both_failures :
  let A := BlockSymmetricToeplitzMatrix (sample_store 2) in
  (shape_of A).2 <> Posz (nth 0 (shape (ones 3)) 0)
  /\ __matmul__ A (PyArray (ones 3)) = __matmul__ A PyOther
  /\ __matmul__ A (PyArray (ones 3)) = Ok NotImplemented.
Proof. by []. Qed.

(** C8, amended.  Whatever the class of the matrix, a vector whose length
    is not the column count and an operand that is not a vector are both
    answered by returning [NotImplemented], before any numeric work; the
    two cases are not told apart. *)
Theorem matmul_declines (self : matrix) (v : ndarray) (other : pyobject) :
  ndim v = 1 -> (shape_of self).2 <> Posz (nth 0 (shape v) 0) ->
  (forall w, other = PyArray w -> ndim w <> 1) ->
  __matmul__ self (PyArray v) = Ok NotImplemented
  /\ __matmul__ self other = Ok NotImplemented.
Proof.
move=> _ /eqP/negbTE bad_len not_vec; split.
  by case: self bad_len => [b|b n|b n] /= ->; rewrite andbF.
case: other not_vec => [w|] not_vec; last by case: self {bad_len}.
have /eqP/negbTE w1 := not_vec w erefl.
by case: self {bad_len} => [b|b n|b n] /=; rewrite w1.
Qed.

Lemma matmul_declines_witness :
  __matmul__ (BlockSymmetricToeplitzMatrix (sample_store 2))
             (PyArray (ones 3)) = Ok NotImplemented
  /\ __matmul__ (BlockSymmetricToeplitzMatrix (sample_store 2))
                (PyArray (NdArray [:: 2; 1] float64 [:: 1%R; 1%R]))
     = Ok NotImplemented.
Proof.
apply: matmul_declines => //.
by move=> w [<-].
Defined.

(** ** The Toeplitz product on a single stored block *)

(** C6.  On a Toeplitz matrix of one stored block the product does not
    return the block times the vector, which the dense product gives: the
    even embedding has no block, the padding length
    [A.shape[1] - self.shape[1]] is negative and [np.zeros] raises
    [ValueError]. *)
Theorem single_block_matmul_raises :
  [/\ Toeplitz__init__ [:: row_of 1] no_kwargs
      = Ok (BlockSymmetricToeplitzMatrix (sample_store 1)),
      __matmul__ (BlockSymmetricToeplitzMatrix (sample_store 1))
                 (PyArray (ones 1)) = Raise ValueError
    & dense_matvec (BlockSymmetricToeplitzMatrix (sample_store 1)) (ones 1)
      = Ok (ones 1)].
Proof.
split; [by rewrite /Toeplitz__init__ sample_init | by [] |].
rewrite /dense_matvec /full_matrix /= /matvec /=.
by rewrite /ones /mkseq /= !big_nat1 /= mulr1.
Qed.

(** The same failure for every single stored block with at least one
    column. *)
Lemma single_block_matmul_always_raises (blk v : ndarray) (r c : nat)
    (chk : bool) (A : matrix) :
  shape blk = [:: r; c] -> 0 < c -> shape v = [:: c] ->
  Toeplitz__init__ [:: [:: blk]] (checked chk) = Ok A ->
  __matmul__ A (PyArray v) = Raise ValueError.
Proof.
move=> sh_blk c_gt0 sh_v /Toeplitz__init__P [b ini ->].
have eq_b : b = mkBlockMatrix [:: [:: blk]] (1%R, 1%R) ([:: r], [:: c]).
  move: ini; rewrite /BlockMatrix__init__ /= sh_blk /=.
  by case: chk => -[<-].
rewrite eq_b /= /ndim sh_v /= mulr1 eqxx /= mulr0 mulr1 sub0r.
by move: c_gt0 {eq_b sh_blk sh_v}; case: c.
Qed.

(** ** Lists of calls *)

Lemma bindE (U V : Type) (a : U) (f : U -> result V) : bind (Ok a) f = f a.
Proof. by []. Qed.

Section MapM.

Variables (U V : Type).

Lemma mapM_nth2 (f : U -> result V) (d : U) (e : V) (s : seq U) (t : seq V) :
  size s = size t ->
  (forall k, k < size s -> f (nth d s k) = Ok (nth e t k)) ->
  mapM f s = Ok t.
Proof.
elim: s t => [|x s IH] [|y t] //= [sz] ok_s.
rewrite (ok_s 0 (ltn0Sn _)) /= (IH t) // => k lt_k.
exact: (ok_s k.+1).
Qed.

Lemma mapM_nth (f : U -> result V) (g : U -> V) (d : U) (s : seq U) :
  (forall k, k < size s -> f (nth d s k) = Ok (g (nth d s k))) ->
  mapM f s = Ok (map g s).
Proof.
move=> ok_s; apply: (@mapM_nth2 _ d (g d)); first by rewrite size_map.
by move=> k lt_k; rewrite (nth_map d) // ok_s.
Qed.

End MapM.

Section Indexing.

Variable U : Type.

Lemma getitem_nat (d : U) (row : seq U) (k : nat) :
  k < size row -> Py.getitem row (Posz k) = Ok (nth d row k).
Proof.
case: row => [|x row] //= lt_k; rewrite lt_k.
by congr Ok; apply: set_nth_default.
Qed.

Lemma take_indices_ok (d : U) (row : seq U) (zs : seq int) :
  all (fun z => (0 <= z < Posz (size row))%R) zs ->
  take_indices row zs = Ok [seq nth d row (Py.to_nat z) | z <- zs].
Proof.
move=> /(all_nthP 0%R) in_range; apply: (@mapM_nth _ _ _ _ 0%R) => k lt_k.
by case: (nth _ zs k) (in_range k lt_k) => // m /= ?; apply: getitem_nat.
Qed.

End Indexing.

(** ** Transposition *)

Lemma Np_T_entry (blk t : ndarray) (r c i j : nat) :
  shape blk = [:: r; c] -> Np.T blk = Ok t -> i < r -> j < c ->
  nth 0%R (data t) (j * r + i) = nth 0%R (data blk) (i * c + j).
Proof.
rewrite /Np.T => -> [<-] lt_i lt_j /=.
rewrite nth_mkseq; first by snia.
rewrite modnMDl modn_small // divnMDl; first by slia.
by rewrite divn_small // addn0.
Qed.

Lemma Np_T_T (blk t : ndarray) (r c : nat) :
  shape blk = [:: r; c] -> size (data blk) = r * c ->
  Np.T blk = Ok t -> Np.T t = Ok blk.
Proof.
case: blk => sh dt dat /= -> sz; rewrite /Np.T /= => -[<-] /=.
congr (Ok (NdArray _ _ _)).
apply: (@eq_from_nth _ 0%R); rewrite size_mkseq ?sz // => k lt_k.
have c_gt0 : 0 < c by case: c lt_k {sz} => //; rewrite muln0.
have lt_q : k %/ c < r by rewrite ltn_divLR.
rewrite nth_mkseq // nth_mkseq.
  by have := ltn_pmod k c_gt0; move: (k %% c) (k %/ c) lt_q => a q; snia.
rewrite modnMDl modn_small // divnMDl; first by slia.
by rewrite (divn_small lt_q) addn0 -divn_eq.
Qed.

Lemma row_of_shapeP (r c : nat) (row : seq ndarray) (k : nat) :
  row_of_shape r c row -> k < size row ->
  [/\ shape (nth unit_block row k) = [:: r; c],
      size (data (nth unit_block row k)) = r * c
    & wf (nth unit_block row k)].
Proof.
move=> /(all_nthP unit_block) ok lt_k.
case/andP: (ok k lt_k) => /eqP sh wf_k; split=> //.
by case/andP: wf_k => /eqP ->; rewrite sh /= muln1.
Qed.

Lemma init_store_of (r c : nat) (row : seq ndarray) (chk : bool) :
  0 < size row -> row_of_shape r c row ->
  BlockMatrix__init__ [:: row] (checked chk) = Ok (store_of r c row).
Proof.
move=> gt0 shaped; rewrite /BlockMatrix__init__.
case: row gt0 shaped => [|b00 row'] // _ shaped.
set row := b00 :: row'; set self := mkBlockMatrix _ _ _.
have sh k : k < size row -> shape (nth unit_block row k) = [:: r; c].
  by move=> lt_k; case: (row_of_shapeP shaped lt_k).
have eq_self : self = store_of r c row.
  rewrite /self /store_of /Py.len /= (sh 0) //=; congr mkBlockMatrix.
  congr (_, _ :: _); apply: (@eq_from_nth _ 0).
    by rewrite size_map size_nseq.
  move=> k; rewrite size_map => lt_k.
  by rewrite (nth_map unit_block) // nth_nseq lt_k (sh k.+1).
have chk_ok : _check_dimension self.
  rewrite /_check_dimension /stored_row /=.
  apply/(all_nthP unit_block) => k lt_k.
  by rewrite (sh k.+1) // (sh 0).
by rewrite chk_ok eq_self /checked /=; case: chk.
Qed.

Lemma Toeplitz_index_grid_in_range (n : nat) :
  all (all (fun z => (0 <= z < Posz n)%R)) (Toeplitz_index_grid (Posz n)).
Proof.
rewrite /Toeplitz_index_grid range0_nat.
apply/allP => zs /mapP [_ /mapP [j j_in ->] ->].
apply/allP => z /mapP [_ /mapP [i i_in ->] ->].
move: i_in j_in; rewrite !mem_iota !add0n /= => lt_i lt_j.
rewrite -abszE; case: (leqP i j) => h.
  by rewrite distnEr // ltz_nat; slia.
by rewrite (distnEl (ltnW h)) ltz_nat; slia.
Qed.

Lemma all_flatten_seq (U : Type) (p : pred U) (ss : seq (seq U)) :
  all p (flatten ss) = all (all p) ss.
Proof. by elim: ss => [|s ss IH] //=; rewrite all_cat IH. Qed.

(** [np.array] on rows of one length of blocks of one shape. *)
Lemma array_of_blocks_ok (rows : seq (seq ndarray)) (m : nat)
    (sh : seq nat) :
  all (fun row => size row == m) rows ->
  all (all (fun x => shape x == sh)) rows ->
  array_of_blocks rows
  = Ok [seq [seq promote (common_dtype (flatten rows)) x | x <- row]
       | row <- rows].
Proof.
move=> sizes shapes; rewrite /array_of_blocks.
have -> : all (fun row => size row == size (head [::] rows)) rows.
  case: rows sizes {shapes} => [|row0 rows] //= /andP [/eqP -> sizes].
  by rewrite eqxx.
rewrite /=; case eq_bs: (flatten rows) => [|b bs].
  congr Ok; elim: rows eq_bs {sizes shapes} => [|row rows IH] //=.
  by case: row => //= /IH {1}->.
rewrite -eq_bs eqxx /=.
have -> // : all (fun x => shape x == shape b) bs.
have : all (fun x => shape x == sh) (flatten rows) by rewrite all_flatten_seq.
by rewrite eq_bs /= => /andP [/eqP ->].
Qed.

(** The rows of blocks that [all_blocks] hands to [np.array], for a grid
    with entries that are indices of the block line. *)
Lemma all_blocks_rows (self : matrix) (grid : seq (seq int))
    (line : seq ndarray) :
  _index_grid self = Ok grid -> first_block_line self = Ok line ->
  0 < size (flatten grid) ->
  all (all (fun z => (0 <= z < Posz (size line))%R)) grid ->
  all_blocks self
  = array_of_blocks
      [seq [seq nth unit_block line (Py.to_nat z) | z <- zs] | zs <- grid].
Proof.
move=> grid_ok line_ok has_entries /(all_nthP [::]) in_range.
rewrite /all_blocks grid_ok line_ok /=.
set rows := [seq _ | zs <- grid].
have -> : mapM (fun indices =>
                  if flatten grid is [::] then Raise IndexError
                  else take_indices line indices) grid
          = Ok rows.
  apply: (@mapM_nth _ _ _ _ [::]) => k lt_k.
  case: (flatten grid) has_entries => // z zs _.
  by apply: take_indices_ok; apply: in_range.
by rewrite bindE.
Qed.

(** What [np.array] returns when the blocks of the line have one shape. *)
Lemma all_blocks_ok (self : matrix) (grid : seq (seq int))
    (line : seq ndarray) (m : nat) (sh : seq nat) :
  _index_grid self = Ok grid -> first_block_line self = Ok line ->
  0 < size (flatten grid) ->
  all (fun zs => size zs == m) grid ->
  all (all (fun z => (0 <= z < Posz (size line))%R)) grid ->
  all (fun b => shape b == sh) line ->
  let rows :=
    [seq [seq nth unit_block line (Py.to_nat z) | z <- zs] | zs <- grid] in
  all_blocks self
  = Ok [seq [seq promote (common_dtype (flatten rows)) x | x <- row]
       | row <- rows].
Proof.
move=> grid_ok line_ok has_entries sizes in_range shapes rows.
rewrite (all_blocks_rows grid_ok line_ok has_entries in_range).
move/(all_nthP [::]): in_range => in_range.
apply: (@array_of_blocks_ok _ m sh).
  rewrite /rows all_map; apply/(all_nthP [::]) => k lt_k /=.
  by rewrite size_map; move/(all_nthP [::])/(_ k lt_k): sizes.
rewrite /rows all_map; apply/(all_nthP [::]) => k lt_k /=.
rewrite all_map; apply/(all_nthP 0%R) => j lt_j /=.
have := in_range k lt_k => /(all_nthP 0%R)/(_ j lt_j).
case: (nth 0%R _ j) => // z /=; rewrite ltz_nat => lt_z.
by move/(all_nthP unit_block)/(_ z lt_z): shapes.
Qed.

Lemma promote_data (d : dtype) (b : ndarray) : data (promote d b) = data b.
Proof. by []. Qed.

Lemma promote_shape (d : dtype) (b : ndarray) : shape (promote d b) = shape b.
Proof. by []. Qed.

Lemma promote_id (b : ndarray) : promote (dtype_of b) b = b.
Proof. by case: b. Qed.

Lemma row_shapes (r c : nat) (row : seq ndarray) :
  row_of_shape r c row -> all (fun b => shape b == [:: r; c]) row.
Proof.
move=> /(all_nthP unit_block) ok; apply/(all_nthP unit_block) => k lt_k.
by case/andP: (ok k lt_k).
Qed.

Lemma Toeplitz_index_grid_sizes (n : nat) :
  all (fun zs => size zs == n) (Toeplitz_index_grid (Posz n))
  /\ size (flatten (Toeplitz_index_grid (Posz n))) = n * n.
Proof.
case/andP: (Toeplitz_square n) => /eqP sz_grid sz_rows; split=> //.
rewrite size_flatten /seq.shape.
have -> : [seq size zs | zs <- Toeplitz_index_grid (Posz n)]
          = nseq n n.
  apply: (@eq_from_nth _ 0); first by rewrite size_map size_nseq.
  move=> k; rewrite size_map sz_grid => lt_k.
  rewrite (nth_map [::]) ?sz_grid // nth_nseq lt_k.
  by apply/eqP; move/(all_nthP [::]): sz_rows; apply; rewrite sz_grid.
by rewrite sumn_nseq.
Qed.

Lemma Toeplitz_full_matrix_ok (r c : nat) (row : seq ndarray) :
  0 < size row -> row_of_shape r c row ->
  exists D,
    full_matrix (BlockSymmetricToeplitzMatrix (store_of r c row)) = Ok D.
Proof.
move=> gt0 shaped.
have [sizes sz_flat] := Toeplitz_index_grid_sizes (size row).
have has_entries : 0 < size (flatten (Toeplitz_index_grid (Posz (size row)))).
  by rewrite sz_flat muln_gt0 gt0.
have ok := @all_blocks_ok (BlockSymmetricToeplitzMatrix (store_of r c row))
  _ row _ _ erefl erefl has_entries sizes
  (Toeplitz_index_grid_in_range _) (row_shapes shaped).
by rewrite /full_matrix ok /=; eexists.
Qed.

(** *** The dtype of an array of blocks *)

Lemma common_dtypeE (bs : seq ndarray) :
  common_dtype bs
  = if has (fun b => dtype_eqb (dtype_of b) complex128) bs then complex128
    else float64.
Proof.
elim: bs => [|b bs IH] //; rewrite /common_dtype /= -/(common_dtype bs) IH.
by case: (dtype_of b).
Qed.

Lemma common_dtype_uniform (d : dtype) (bs : seq ndarray) :
  0 < size bs -> all (fun b => dtype_eqb (dtype_of b) d) bs ->
  common_dtype bs = d.
Proof.
rewrite common_dtypeE; case: bs => [|b bs] //= _ /andP [].
case: (dtype_of b); case: d => //= _ all_bs.
suff -> : has (fun b => dtype_eqb (dtype_of b) complex128) bs = false by [].
apply/negbTE/negP => /(has_nthP unit_block) [k lt_k].
by move/(all_nthP unit_block)/(_ k lt_k): all_bs; case: (dtype_of _).
Qed.

Lemma common_dtype_real (bs : seq ndarray) :
  common_dtype bs = float64 ->
  all (fun b => dtype_eqb (dtype_of b) float64) bs.
Proof.
elim: bs => [|b bs IH] //; rewrite /common_dtype /= -/(common_dtype bs).
by case: (dtype_of b) => //= /IH.
Qed.

Lemma has_flatten_seq (U : Type) (p : pred U) (ss : seq (seq U)) :
  has p (flatten ss) = has (has p) ss.
Proof. by elim: ss => [|s ss IH] //=; rewrite has_cat IH. Qed.

Lemma wf_promote (d : dtype) (b : ndarray) :
  wf b -> (d = float64 -> dtype_of b = float64) -> wf (promote d b).
Proof.
rewrite /wf /= => /andP [-> real_b]; case: d => //= /(_ erefl) dt_b.
by move: real_b; rewrite dt_b.
Qed.

Lemma row_of_shape_promote (d : dtype) (r c : nat) (row : seq ndarray) :
  row_of_shape r c row ->
  (d = float64 -> all (fun b => dtype_eqb (dtype_of b) float64) row) ->
  row_of_shape r c (map (promote d) row).
Proof.
move=> /(all_nthP unit_block) shaped real.
apply/(all_nthP unit_block) => k; rewrite size_map => lt_k.
rewrite (nth_map unit_block) //; case/andP: (shaped k lt_k) => sh wf_k.
rewrite promote_shape sh /=; apply: wf_promote => // d_real.
move/(all_nthP unit_block)/(_ k lt_k): (real d_real).
by case: (dtype_of _).
Qed.

(** The blocks that [all_blocks] takes from the stored row of a Toeplitz
    matrix are all the blocks of the row, so they have its dtype. *)
Lemma Toeplitz_rows_common (row : seq ndarray) :
  0 < size row ->
  common_dtype
    (flatten [seq [seq nth unit_block row (Py.to_nat z) | z <- zs]
             | zs <- Toeplitz_index_grid (Posz (size row))])
  = common_dtype row.
Proof.
move=> gt0; rewrite !common_dtypeE; congr (if _ then _ else _).
set p := fun b => _; set grid := Toeplitz_index_grid _.
rewrite has_flatten_seq has_map.
case/andP: (Toeplitz_square (size row)) => /eqP sz_grid /(all_nthP [::]) sz_rows.
apply/idP/idP.
  case/hasP => zs zs_in /=; rewrite has_map => /hasP [z z_in /= pz].
  have /allP/(_ zs zs_in)/allP/(_ z z_in) :=
    Toeplitz_index_grid_in_range (size row).
  case: z pz {z_in} => // k pz; rewrite /= ltz_nat => lt_k.
  by apply/(has_nthP unit_block); exists k.
case/(has_nthP unit_block) => k lt_k pk.
have sz0 : size (nth [::] grid 0) = size row.
  by apply/eqP/sz_rows; rewrite sz_grid.
apply/hasP; exists (nth [::] grid 0); first by rewrite mem_nth // sz_grid.
rewrite /= has_map; apply/hasP; exists (Posz k) => //.
have <- : entry grid 0 k = Posz k.
  by rewrite /grid Toeplitz_entry // sub0r normrN -abszE.
by rewrite /entry mem_nth // sz0.
Qed.

(** *** The transposed row *)

Lemma transposed_row (r c : nat) (row : seq ndarray) :
  row_of_shape r c row ->
  exists trow,
    [/\ mapM Np.T row = Ok trow,
        mapM Np.T trow = Ok row,
        row_of_shape c r trow,
        size trow = size row
      & forall k, k < size row ->
          Np.T (nth unit_block row k) = Ok (nth unit_block trow k)
          /\ dtype_of (nth unit_block trow k)
             = dtype_of (nth unit_block row k)].
Proof.
move=> shaped.
pose tr blk := NdArray [:: c; r] (dtype_of blk)
  (mkseq (fun k => nth 0%R (data blk) ((k %% r) * c + k %/ r)) (c * r)).
have tr_ok k : k < size row ->
    Np.T (nth unit_block row k) = Ok (tr (nth unit_block row k)).
  by move=> lt_k; case: (row_of_shapeP shaped lt_k); rewrite /Np.T => ->.
exists (map tr row); split.
- exact: (@mapM_nth _ _ _ _ unit_block).
- apply: (@mapM_nth2 _ _ _ unit_block unit_block); first by rewrite size_map.
  move=> k; rewrite size_map => lt_k; rewrite (nth_map unit_block) //.
  case: (row_of_shapeP shaped lt_k) => sh sz _.
  by apply: (Np_T_T sh sz); exact: tr_ok.
- apply/(all_nthP unit_block) => k; rewrite size_map => lt_k.
  rewrite (nth_map unit_block) //= /wf /= size_mkseq muln1 !eqxx /=.
  case: (row_of_shapeP shaped lt_k) => _ _ /andP [_].
  case: (dtype_of _) => // /allP real_k; apply/(all_nthP 0%R) => i.
  rewrite size_mkseq => lt_i; rewrite nth_mkseq //.
  set j := _ + _; case: (ltnP j (size (data (nth unit_block row k)))) => h.
    by apply: real_k; rewrite mem_nth.
  by rewrite nth_default // rpred0.
- by rewrite size_map.
by move=> k lt_k; rewrite (nth_map unit_block) //; split=> //; exact: tr_ok.
Qed.

Lemma same_dtypes_common (s t : seq ndarray) :
  size s = size t ->
  (forall k, k < size s ->
     dtype_of (nth unit_block s k) = dtype_of (nth unit_block t k)) ->
  common_dtype s = common_dtype t.
Proof.
move=> sz dt; rewrite /common_dtype; congr (foldr _ _ _).
apply: (@eq_from_nth _ float64); first by rewrite !size_map.
move=> k; rewrite size_map => lt_k.
by rewrite !(nth_map unit_block) -?sz // dt.
Qed.

Lemma Np_T_promote (d : dtype) (x y : ndarray) :
  Np.T x = Ok y -> Np.T (promote d x) = Ok (promote d y).
Proof.
rewrite /Np.T /=; case: (shape x) => [|r [|c [|? ?]]] // [<-] //.
Qed.

Lemma mapM_T_promote (d : dtype) (s t : seq ndarray) :
  mapM Np.T s = Ok t ->
  mapM Np.T (map (promote d) s) = Ok (map (promote d) t).
Proof.
elim: s t => [|x s IH] t /=; first by case=> <-.
case Tx: (Np.T x) => [y|] //=; rewrite (Np_T_promote d Tx) /=.
case Ts: (mapM Np.T s) => [t'|] //= [<-] /=.
by rewrite (IH t' Ts).
Qed.

(** [np.array] on the one row of the transposes. *)
Lemma array_of_row (r c : nat) (row : seq ndarray) :
  row_of_shape r c row ->
  array_of_blocks [:: row] = Ok [:: map (promote (common_dtype row)) row].
Proof.
move=> shaped.
rewrite (@array_of_blocks_ok [:: row] (size row) [:: r; c]) /= ?eqxx //.
  by rewrite andbT; exact: row_shapes.
by rewrite cats0.
Qed.

Lemma common_dtype_promote (d : dtype) (bs : seq ndarray) :
  0 < size bs -> common_dtype (map (promote d) bs) = d.
Proof.
move=> gt0; apply: common_dtype_uniform; first by rewrite size_map.
by rewrite all_map; apply/(all_nthP unit_block) => k _ /=; case: d.
Qed.

(** What [T] returns on a constructed matrix of each class. *)
Lemma T_construct (cls : class) (r c : nat) (row : seq ndarray) (chk : bool)
    (A : matrix) :
  row_of_shape r c row -> construct cls [:: row] (checked chk) = Ok A ->
  exists trow,
    let d := common_dtype row in
    [/\ mapM Np.T row = Ok trow /\ mapM Np.T trow = Ok row,
        row_of_shape c r (map (promote d) trow) /\ size trow = size row,
        forall k, k < size row ->
          Np.T (nth unit_block row k) = Ok (nth unit_block trow k),
        T A = construct cls [:: map (promote d) trow] no_kwargs
      & construct cls [:: map (promote d) trow] no_kwargs = T A
        /\ 0 < size row].
Proof.
move=> shaped cons.
have [trow [mapT mapT' shaped' sz tr_k]] := transposed_row shaped.
have common_t : common_dtype trow = common_dtype row.
  by apply: same_dtypes_common => // k; rewrite sz => /tr_k [].
have [clsA rowA gt0] : [/\ __class__ A = cls, stored_row (base A) = row
                          & 0 < size row].
  case: (cls) cons => /=.
  - case/Toeplitz__init__P => b ini ->.
    by have [_ _ gt0 _] := BlockMatrix__init__P ini; rewrite /= (stored_row_init ini).
  - case/Even__init__P => b ini ->.
    by have [_ _ gt0 _] := BlockMatrix__init__P ini; rewrite /= (stored_row_init ini).
  case/Odd__init__P => b ini ->.
  by have [_ _ gt0 _] := BlockMatrix__init__P ini; rewrite /= (stored_row_init ini).
have T_A : T A = construct cls [:: map (promote (common_dtype row)) trow]
                   no_kwargs.
  by rewrite /T rowA mapT bindE (array_of_row shaped') bindE clsA common_t.
exists trow; split=> //.
- split=> //; apply: row_of_shape_promote => // d_real.
  rewrite -common_t in d_real; exact: common_dtype_real.
- by move=> k /tr_k [].
Qed.

(** *** The heap *)

Lemma mapM_cons (U V : Type) (f : U -> result V) (a : U) (s : seq U) :
  mapM f (a :: s) = (x <- f a ;; xs <- mapM f s ;; Ok (x :: xs)).
Proof. by []. Qed.

Lemma getitem_cat (h new : heap) (a : nat) (x : ndarray) :
  Py.getitem h (Posz a) = Ok x -> Py.getitem (h ++ new) (Posz a) = Ok x.
Proof.
case: h => [|y h] //=; case: ifP => // lt_a [<-].
by rewrite size_cat /= -addSn ltn_addr // -cat_cons nth_cat /= lt_a.
Qed.

Lemma deref_cat (h new : heap) (addrs : seq nat) (row : seq ndarray) :
  deref h addrs = Ok row -> deref (h ++ new) addrs = Ok row.
Proof.
rewrite /deref; elim: addrs row => [|a addrs IH] row //.
rewrite !mapM_cons; case get_a: (Py.getitem h (Posz a)) => [x|] //.
rewrite (getitem_cat new get_a) !bindE.
case rest: (mapM _ addrs) => [xs|] //; rewrite bindE => -[<-].
by rewrite (IH xs).
Qed.

Lemma deref_new (h new : heap) :
  deref (h ++ new) (iota (size h) (size new)) = Ok new.
Proof.
apply: (@mapM_nth2 _ _ _ 0 unit_block); first by rewrite size_iota.
move=> k; rewrite size_iota => lt_k; rewrite nth_iota //.
rewrite (@getitem_nat _ unit_block) ?size_cat ?ltn_add2l //.
by rewrite nth_cat ltnNge leq_addr /= addKn.
Qed.

(** C9.  The transpose of a Toeplitz matrix of blocks of shape [(r, c)] is
    a new Toeplitz matrix whose stored row holds, in the same order, the
    transposes of the stored blocks: the block at position [k] has the
    shape [(c, r)] and the entries of the transpose of the stored block
    [k]; it is that transpose, given the dtype of the row (its own dtype,
    unless the row mixes real and complex blocks, which [np.array] makes
    all complex).  On a heap that holds the stored blocks, [T] leaves
    every array as it was, so the stored blocks of the original are
    unmodified, and the stored blocks of the transpose are new arrays.
    The transpose of the transpose has the dense array of the original. *)
Theorem transpose_law (r c : nat) (row : seq ndarray) (chk : bool)
    (A : matrix) :
  row_of_shape r c row ->
  Toeplitz__init__ [:: row] (checked chk) = Ok A ->
  exists A' A'' D,
    [/\ T A = Ok A' /\ __class__ A' = Toeplitz,
        size (stored_row (base A')) = size row
        /\ forall k, k < size row ->
             let blk := nth unit_block row k in
             let t := nth unit_block (stored_row (base A')) k in
             exists t0,
               [/\ Np.T blk = Ok t0,
                   t = promote (common_dtype row) t0,
                   dtype_of blk = common_dtype row -> t = t0,
                   shape t = [:: c; r]
                 & forall i j, i < r -> j < c ->
                     nth 0%R (data t) (j * r + i)
                     = nth 0%R (data blk) (i * c + j)],
        forall (h : heap) (addrs : seq nat),
          deref h addrs = Ok row ->
          exists h' addrs',
            [/\ T_on_heap h Toeplitz addrs = Ok (h', addrs', A'),
                deref h' addrs = Ok row,
                deref h' addrs' = Ok (stored_row (base A'))
              & all (fun a => size h <= a) addrs'],
        T A' = Ok A''
      & full_matrix A'' = Ok D /\ full_matrix A = Ok D].
Proof.
move=> shaped cons.
have [trow [[mapT mapT'] [shaped' sz] tr_k T_A _]] :=
  @T_construct Toeplitz r c row chk A shaped cons.
case/Toeplitz__init__P: cons => b ini eqA.
have [_ _ gt0 _] := BlockMatrix__init__P ini.
move: ini; rewrite (init_store_of chk gt0 shaped) => -[eqb].
set d := common_dtype row in shaped' T_A.
set prow := map (promote d) trow in shaped' T_A.
have gt0' : 0 < size prow by rewrite size_map sz.
have consT : construct Toeplitz [:: prow] no_kwargs
             = Ok (BlockSymmetricToeplitzMatrix (store_of c r prow)).
  by rewrite /= /Toeplitz__init__ (@init_store_of c r _ true).
pose row2 := map (promote d) row.
have real_d : d = float64 -> all (fun x => dtype_eqb (dtype_of x) float64) row.
  exact: common_dtype_real.
have shaped2 : row_of_shape r c row2 by exact: row_of_shape_promote.
have gt2 : 0 < size row2 by rewrite size_map.
have T_A' : T (BlockSymmetricToeplitzMatrix (store_of c r prow))
            = Ok (BlockSymmetricToeplitzMatrix (store_of r c row2)).
  rewrite /T /= /stored_row /= (mapM_T_promote d mapT') bindE.
  rewrite (array_of_row shaped2) bindE /row2 common_dtype_promote //.
  rewrite -map_comp (@eq_map _ _ (promote d \o promote d) (promote d)) //.
  by rewrite /Toeplitz__init__ (@init_store_of r c _ true).
have [D okD] := Toeplitz_full_matrix_ok gt0 shaped.
have [sizes sz_flat] := Toeplitz_index_grid_sizes (size row).
have has_entries : 0 < size (flatten (Toeplitz_index_grid (Posz (size row)))).
  by rewrite sz_flat muln_gt0 gt0.
have full2 : full_matrix (BlockSymmetricToeplitzMatrix (store_of r c row2))
             = full_matrix (BlockSymmetricToeplitzMatrix (store_of r c row)).
  have okA := @all_blocks_ok (BlockSymmetricToeplitzMatrix (store_of r c row))
    _ row _ _ erefl erefl has_entries sizes
    (Toeplitz_index_grid_in_range _) (row_shapes shaped).
  have sz2 : size row2 = size row by rewrite size_map.
  have grid2 : _index_grid (BlockSymmetricToeplitzMatrix (store_of r c row2))
               = Ok (Toeplitz_index_grid (Posz (size row))).
    by rewrite /= sz2.
  have in_range2 :
      all (all (fun z => (0 <= z < Posz (size row2))%R))
          (Toeplitz_index_grid (Posz (size row))).
    by rewrite sz2; exact: Toeplitz_index_grid_in_range.
  have ok2 := @all_blocks_ok
    (BlockSymmetricToeplitzMatrix (store_of r c row2))
    _ row2 _ _ grid2 erefl has_entries sizes in_range2 (row_shapes shaped2).
  rewrite /full_matrix okA ok2 /= sz2.
  set rowsA := [seq [seq nth unit_block row (Py.to_nat z) | z <- zs]
               | zs <- Toeplitz_index_grid (Posz (size row))].
  set rows2 := [seq [seq nth unit_block row2 (Py.to_nat z) | z <- zs]
               | zs <- Toeplitz_index_grid (Posz (size row))].
  have rows2E : rows2 = [seq [seq promote d x | x <- xs] | xs <- rowsA].
    rewrite /rows2 /rowsA -map_comp; apply/eq_in_map => zs zs_in /=.
    rewrite -map_comp; apply/eq_in_map => z z_in /=.
    have /allP/(_ zs zs_in)/allP/(_ z z_in) :=
      Toeplitz_index_grid_in_range (size row).
    case: z {z_in} => // k; rewrite /= ltz_nat => lt_k.
    by rewrite (nth_map unit_block).
  have commonA : common_dtype (flatten rowsA) = d.
    exact: Toeplitz_rows_common.
  have sz_flatA : 0 < size (flatten rowsA).
    rewrite size_flatten /seq.shape -map_comp.
    move: has_entries; rewrite size_flatten /seq.shape.
    by rewrite (@eq_map _ _ (size \o _) size) // => zs /=; rewrite size_map.
  have common2 : common_dtype (flatten rows2) = d.
    rewrite rows2E.
    have -> : flatten [seq [seq promote d x | x <- xs] | xs <- rowsA]
              = map (promote d) (flatten rowsA).
      by rewrite map_flatten.
    exact: common_dtype_promote.
  have blocksE : [seq [seq promote (common_dtype (flatten rows2)) x | x <- xs]
                 | xs <- rows2]
               = [seq [seq promote (common_dtype (flatten rowsA)) x | x <- xs]
                 | xs <- rowsA].
    rewrite common2 commonA rows2E -map_comp; apply: eq_map => xs /=.
    by rewrite -map_comp; apply: eq_map.
  by rewrite blocksE.
exists (BlockSymmetricToeplitzMatrix (store_of c r prow)).
exists (BlockSymmetricToeplitzMatrix (store_of r c row2)), D.
split.
- by rewrite T_A consT.
- rewrite /= /stored_row /= size_map sz; split=> // k lt_k.
  have lt_k' : k < size trow by rewrite sz.
  exists (nth unit_block trow k); rewrite (nth_map unit_block) //.
  have sh_t : shape (nth unit_block trow k) = [:: c; r].
    have := row_of_shapeP shaped' (k := k).
    rewrite size_map (nth_map unit_block) // promote_shape => /(_ lt_k').
    by case.
  split=> //.
  - exact: tr_k.
  - have [_ dt] : Np.T (nth unit_block row k) = Ok (nth unit_block trow k)
                  /\ dtype_of (nth unit_block trow k)
                     = dtype_of (nth unit_block row k).
      have [t' [_ _ _ _ tr_k']] := transposed_row shaped.
      have [Tk' dt'] := tr_k' k lt_k.
      by move: (tr_k k lt_k); rewrite Tk' => -[<-].
    by move=> eq_d; rewrite /d -eq_d -dt promote_id.
  move=> i j lt_i lt_j; rewrite promote_data.
  case: (row_of_shapeP shaped lt_k) => sh _ _.
  exact: Np_T_entry sh (tr_k k lt_k) lt_i lt_j.
- move=> h addrs deref_ok.
  exists (h ++ prow), (iota (size h) (size prow)).
  have T_heap : T_on_heap h Toeplitz addrs
                = Ok (h ++ prow, iota (size h) (size prow),
                      BlockSymmetricToeplitzMatrix (store_of c r prow)).
    rewrite /T_on_heap deref_ok bindE mapT bindE.
    have [t' [mapT2 _ shaped_t _ _]] := transposed_row shaped.
    have eq_t : t' = trow by move: mapT2; rewrite mapT => -[].
    rewrite -eq_t in T_A consT *.
    rewrite (array_of_row shaped_t) bindE.
    have -> : common_dtype t' = d.
      rewrite eq_t; apply: same_dtypes_common => // k; rewrite sz => lt_k.
      have [t2 [mapT3 _ _ _ tr_k2]] := transposed_row shaped.
      have eq_t2 : t2 = trow by move: mapT3; rewrite mapT => -[].
      by have [_] := tr_k2 k lt_k; rewrite eq_t2.
    by rewrite eq_t consT bindE.
  split=> //.
  + exact: deref_cat.
  + exact: deref_new.
  by apply/allP => a; rewrite mem_iota => /andP [].
- exact: T_A'.
by rewrite eqA -eqb full2.
Qed.

Lemma transpose_law_witness :
  let A := BlockSymmetricToeplitzMatrix (store_of 1 2 [:: wide_block]) in
  exists A' A'' D,
    [/\ T A = Ok A' /\ __class__ A' = Toeplitz,
        size (stored_row (base A')) = 1
        /\ forall k, k < 1 ->
             let blk := nth unit_block [:: wide_block] k in
             let t := nth unit_block (stored_row (base A')) k in
             exists t0,
               [/\ Np.T blk = Ok t0,
                   t = promote (common_dtype [:: wide_block]) t0,
                   dtype_of blk = common_dtype [:: wide_block] -> t = t0,
                   shape t = [:: 2; 1]
                 & forall i j, i < 1 -> j < 2 ->
                     nth 0%R (data t) (j * 1 + i)
                     = nth 0%R (data blk) (i * 2 + j)],
        forall (h : heap) (addrs : seq nat),
          deref h addrs = Ok [:: wide_block] ->
          exists h' addrs',
            [/\ T_on_heap h Toeplitz addrs = Ok (h', addrs', A'),
                deref h' addrs = Ok [:: wide_block],
                deref h' addrs' = Ok (stored_row (base A'))
              & all (fun a => size h <= a) addrs'],
        T A' = Ok A''
      & full_matrix A'' = Ok D /\ full_matrix A = Ok D].
Proof.
apply: (@transpose_law 1 2 [:: wide_block] true); last by [].
by rewrite /row_of_shape /= /wf /= rpred1 rpred0.
Defined.

(** ** Offsets modulo the period *)

Lemma cyclic_sub (M m q : nat) :
  q < M -> m < M ->
  (m + M - q) %% M = if q <= m then m - q else m + M - q.
Proof.
move=> lt_q lt_m; case: (leqP q m) => h.
  have -> : m + M - q = (m - q) + M by slia.
  by rewrite modnDr modn_small //; slia.
by rewrite modn_small //; slia.
Qed.

Lemma cyclic_sub_dvd (M m q : nat) :
  q < M -> m < M -> M %| (m + M - q) %% M + q + (M - m).
Proof.
move=> lt_q lt_m; rewrite cyclic_sub //; case: (leqP q m) => h.
  by have -> : m - q + q + (M - m) = M by slia.
have -> : m + M - q + q + (M - m) = 2 * M by slia.
exact: dvdn_mull.
Qed.

Lemma cyclic_sub_uniq (M m p q : nat) :
  p < M -> q < M -> m < M ->
  M %| p + q + (M - m) -> p = (m + M - q) %% M.
Proof.
move=> lt_p lt_q lt_m /dvdnP [t eq_t]; rewrite cyclic_sub //.
case: (leqP q m) => h.
  have t1 : t = 1 by snia.
  by move: eq_t; rewrite t1; slia.
have t2 : t = 2 by snia.
by move: eq_t; rewrite t2; slia.
Qed.

(** ** The discrete Fourier transform of a circular convolution *)

Section Convolution.

Local Open Scope ring_scope.

Variables (M : nat) (w : algC).
Hypothesis prim_w : M.-primitive_root w.

Let M_gt0 : (0 < M)%N := prim_order_gt0 prim_w.

Lemma sum_root_pow (d : nat) :
  \sum_(0 <= k < M) w ^+ (d * k) = if (M %| d)%N then M%:R else 0.
Proof.
rewrite big_mkord; under eq_bigr do rewrite exprM.
case: ifP => [|/negbT]; rewrite (prim_order_dvd prim_w).
  move/eqP => ->; under eq_bigr do rewrite expr1n.
  by rewrite sumr_const card_ord.
move=> neq1; apply: (mulfI (x := w ^+ d - 1)); first by rewrite subr_eq0.
by rewrite -subrX1 mulr0 -exprM mulnC exprM (prim_expr_order prim_w)
     expr1n subrr.
Qed.

Lemma inv_root_pow (k m : nat) :
  (m <= M)%N -> w^-1 ^+ (k * m) = w ^+ (k * (M - m)).
Proof.
move=> le_m; have w_unit : w \is a GRing.unit.
  by rewrite unitfE (prim_root_eq0 prim_w) -lt0n.
rewrite exprVn; apply: (mulrI (unitrX (k * m) w_unit)).
rewrite divrr ?unitrX // -exprD -mulnDr subnKC // mulnC exprM.
by rewrite (prim_expr_order prim_w) expr1n.
Qed.

(** The inverse transform of the product of two transforms is the
    circular convolution. *)
Lemma circular_convolution (a b : nat -> algC) (m : nat) :
  (m < M)%N ->
  M%:R^-1 * \sum_(0 <= k < M)
              (\sum_(0 <= p < M) a p * w ^+ (p * k))
              * (\sum_(0 <= q < M) b q * w ^+ (q * k))
              * w^-1 ^+ (k * m)
  = \sum_(0 <= q < M) a ((m + M - q) %% M)%N * b q.
Proof.
move=> lt_m.
have M_neq0 : M%:R != 0 :> algC by rewrite pnatr_eq0 -lt0n.
apply: (mulfI M_neq0); rewrite mulrA divff // mul1r.
transitivity (\sum_(0 <= p < M) \sum_(0 <= q < M)
                a p * b q * \sum_(0 <= k < M) w ^+ ((p + q + (M - m)) * k)).
  under eq_bigr do rewrite big_distrl /= big_distrl /=.
  rewrite exchange_big /=.
  apply: eq_bigr => p _.
  under eq_bigr do rewrite big_distrr /= big_distrl /=.
  rewrite exchange_big /=; apply: eq_bigr => q _.
  rewrite big_distrr /=; apply: eq_bigr => k _.
  rewrite (inv_root_pow _ (ltnW lt_m)) !mulnDl !exprD.
  by rewrite [((M - m) * k)%N]mulnC; ring.
rewrite exchange_big /= big_distrr /= !big_mkord; apply: eq_bigr => q _.
set x := ((m + M - q) %% M)%N.
have lt_x : (x < M)%N by rewrite ltn_pmod.
rewrite big_mkord (bigD1 (Ordinal lt_x)) //=.
rewrite [X in _ + X]big1 => [p neq_p|].
  rewrite sum_root_pow; case: ifP => [dvd | _]; last by rewrite mulr0.
  case/negP: neq_p; apply/eqP/val_inj => /=.
  exact: (cyclic_sub_uniq _ _ lt_m dvd).
rewrite addr0 sum_root_pow; case: ifP => [_ | /negP []]; first by ring.
exact: cyclic_sub_dvd.
Qed.

End Convolution.

(** ** The numpy operations on stacks of matrices *)

Section Stacks.

Local Open Scope ring_scope.

Implicit Types (a b : ndarray) (m n k : nat).

Lemma fft_stack a m n k :
  shape a = [:: m; n; k] -> (0 < m)%N ->
  fft a = Ok (NdArray [:: m; n; k] complex128
    (mkseq (fun idx =>
       \sum_(0 <= l < m)
         nth 0 (data a) (l * (n * k) + idx %% (n * k))%N
         * omega m ^+ (l * (idx %/ (n * k))))
       (m * (n * k)))).
Proof.
rewrite /fft => -> /= m_gt0; rewrite /prod_shape /= muln1.
by case: m m_gt0.
Qed.

Lemma ifft_stack a m n k :
  shape a = [:: m; n; k] -> (0 < m)%N ->
  ifft a = Ok (NdArray [:: m; n; k] complex128
    (mkseq (fun idx =>
       m%:R^-1 *
       \sum_(0 <= l < m)
         nth 0 (data a) (l * (n * k) + idx %% (n * k))%N
         * (omega m)^-1 ^+ (l * (idx %/ (n * k))))
       (m * (n * k)))).
Proof.
rewrite /ifft => -> /= m_gt0; rewrite /prod_shape /= muln1.
by case: m m_gt0.
Qed.

Lemma matmul_stack a b m n k :
  shape a = [:: m; n; k] -> shape b = [:: m; k; 1%N] ->
  matmul a b = Ok (NdArray [:: m; n; 1%N]
    (result_type (dtype_of a) (dtype_of b))
    (mkseq (fun idx =>
       \sum_(0 <= t < k)
         nth 0 (data a) ((idx %/ n) * (n * k) + (idx %% n) * k + t)%N
         * nth 0 (data b) ((idx %/ n) * k + t)%N)
       (m * n))).
Proof.
rewrite /matmul => -> ->; rewrite !eqxx /= !muln1.
congr (Ok (NdArray _ _ _)); apply: eq_mkseq => idx.
by rewrite divn1 modn1; under eq_bigr do rewrite muln1 addn0.
Qed.

Lemma omega_prim m : (0 < m)%N -> m.-primitive_root (omega m).
Proof. by case: m => // m _; rewrite /omega; case: (C_prim_root_exists _). Qed.

End Stacks.

(** ** The first block line of a circulant matrix *)

Lemma nth_flatten_data (bs : seq ndarray) (sz p x : nat) :
  (forall k, k < size bs -> size (data (nth unit_block bs k)) = sz) ->
  p < size bs -> x < sz ->
  nth 0%R (flatten [seq data b | b <- bs]) (p * sz + x)
  = nth 0%R (data (nth unit_block bs p)) x.
Proof.
elim: bs p => [|b bs IH] //= p sizes lt_p lt_x.
rewrite nth_cat (sizes 0) //; case: p lt_p => [|p] lt_p.
  by rewrite mul0n add0n lt_x.
rewrite mulSn -addnA ltnNge leq_addr /= addKn.
by apply: IH => // k lt_k; apply: (sizes k.+1).
Qed.

(** ** The dense product in terms of the stored blocks *)

Lemma block_index (n r p t : nat) :
  p < n * r -> t < n * r ->
  (p * (n * r) + t) %/ (n * r) = p /\ (p * (n * r) + t) %% (n * r) = t.
Proof.
move=> lt_p lt_t; rewrite divnMDl; first by slia.
by rewrite modnMDl divn_small // modn_small // addn0.
Qed.

Lemma sum_by_blocks (n r : nat) (F : nat -> algC) :
  (\sum_(0 <= t < n * r) F t
   = \sum_(0 <= q < n) \sum_(0 <= t < r) F (q * r + t)%N)%R.
Proof.
rewrite big_nat_mul; apply: eq_bigr => q _.
rewrite -{1}[(q * r)%N]add0n big_addn mulSn addnK.
by apply: eq_bigr => t _; rewrite addnC.
Qed.

Lemma dense_matvec_blocks (self : matrix) (r n : nat)
    (blocks : seq (seq ndarray)) (index : nat -> nat -> nat)
    (row : seq ndarray) (v : ndarray) :
  all_blocks self = Ok blocks ->
  Py.to_nat (nb_blocks self).1 = n ->
  block_shape self = (r, r) ->
  (forall i j, i < n -> j < n ->
     data (nth (NdArray [::] float64 [::]) (nth [::] blocks i) j)
     = data (nth unit_block row (index i j))) ->
  shape v = [:: n * r] ->
  dense_matvec self v
  = Ok (NdArray [:: n * r]
          (result_type
             (foldr result_type float64 (map dtype_of (flatten blocks)))
             (dtype_of v))
          (block_product r n index row (data v))).
Proof.
move=> blocks_ok nb_ok sh_ok block_at sh_v.
rewrite /dense_matvec /full_matrix blocks_ok nb_ok sh_ok /=.
rewrite /matvec /= sh_v eqxx /=.
congr (Ok (NdArray _ _ _)); apply: (@eq_from_nth _ 0%R).
  by rewrite !size_mkseq.
move=> p; rewrite size_mkseq => lt_p.
rewrite /block_product !nth_mkseq // sum_by_blocks.
have r_gt0 : 0 < r by case: (r) lt_p => //; rewrite muln0.
apply: eq_big_nat => q /andP [_ lt_q]; apply: eq_big_nat => t /andP [_ lt_t].
have lt_qt : q * r + t < n * r by snia.
rewrite nth_mkseq; first by snia.
have [-> ->] := block_index lt_p lt_qt.
rewrite modnMDl divnMDl // (modn_small lt_t) (divn_small lt_t) addn0.
by rewrite block_at // ltn_divLR.
Qed.

Lemma fold_index_le (m k : nat) : k < m -> fold_index m k <= k.
Proof. by move=> lt_k; rewrite /fold_index; case: ifP => ?; slia. Qed.

Lemma fold_index_idem (m k : nat) :
  k < m -> fold_index m (fold_index m k) = fold_index m k.
Proof.
move=> lt_k; rewrite /fold_index; case: (leqP k (m - k)) => h.
  by rewrite h.
by have -> : m - k <= m - (m - k) by slia.
Qed.

Lemma dist_lt (n i j : nat) : i < n -> j < n -> dist i j < n.
Proof. by move=> lt_i lt_j; rewrite /dist; case: ifP => ?; slia. Qed.

Lemma fold_cyclic_sub (M m q : nat) :
  q < M -> m < M ->
  fold_index M ((m + M - q) %% M) = circulant_index M m q.
Proof.
move=> lt_q lt_m; rewrite cyclic_sub // /circulant_index /dist.
case: (ltngtP q m) => h //.
  have -> : m + M - q = M - (q - m) by slia.
  by rewrite fold_index_sym //; slia.
by rewrite h subnn.
Qed.

Section CirculantLine.

Variables (self : matrix) (r M : nat) (row : seq ndarray) (line0 : seq int).

Hypothesis not_Toeplitz : __class__ self <> Toeplitz.
Hypothesis base_self : base self = store_of r r row.
Hypothesis nb_self : nb_blocks self = (Posz M, Posz M).
Hypothesis M_gt0 : 0 < M.
Hypothesis baseline_self : _baseline_grid self = Ok line0.
Hypothesis size_line0 : size line0 = M.
Hypothesis line0_fold :
  forall k, k < M -> nth 0%R line0 k = Posz (fold_index M k).
Hypothesis fold_in_row : forall k, k < M -> fold_index M k < size row.
Hypothesis shaped : row_of_shape r r row.

Let fbl : seq ndarray :=
  [seq nth unit_block row (Py.to_nat z) | z <- line0].

Lemma size_fbl : size fbl = M.
Proof. by rewrite size_map. Qed.

Lemma nth_fbl (p : nat) :
  p < M -> nth unit_block fbl p = nth unit_block row (fold_index M p).
Proof.
by move=> lt_p; rewrite (nth_map 0%R) ?size_line0 // line0_fold.
Qed.

Lemma fbl_shape (p : nat) :
  p < M ->
  [/\ shape (nth unit_block fbl p) = [:: r; r],
      size (data (nth unit_block fbl p)) = r * r
    & wf (nth unit_block fbl p)].
Proof.
by move=> lt_p; rewrite nth_fbl //; apply: row_of_shapeP (fold_in_row lt_p).
Qed.

Lemma first_block_line_circulant : first_block_line self = Ok fbl.
Proof.
have -> : first_block_line self
          = (line <- _baseline_grid self ;;
             take_indices (stored_row (base self)) line).
  by case: self not_Toeplitz.
rewrite baseline_self base_self /= /stored_row /=.
apply: take_indices_ok; apply/(all_nthP 0%R) => k; rewrite size_line0 => lt_k.
by rewrite line0_fold //= ltz_nat fold_in_row.
Qed.

Lemma shape_of_circulant :
  shape_of self = (Posz (r * M), Posz (r * M)).
Proof.
rewrite /shape_of nb_self base_self /= nth_nseq.
by have -> : 0 < size row by apply: leq_ltn_trans (fold_in_row M_gt0).
Qed.

Lemma array_fbl :
  array fbl = Ok (NdArray [:: M; r; r]
                    (foldr result_type float64 (map dtype_of fbl))
                    (flatten (map data fbl))).
Proof.
rewrite /array; case eq_fbl: fbl => [|b0 bs].
  by move: size_fbl M_gt0; rewrite eq_fbl /= => <-.
rewrite -eq_fbl.
have sh0 : shape b0 = [:: r; r].
  by case: (fbl_shape M_gt0); rewrite eq_fbl.
have -> : all (fun x => shape x == shape b0) fbl.
  apply/(all_nthP unit_block) => k; rewrite size_fbl => lt_k.
  by case: (fbl_shape lt_k) => -> _ _; rewrite sh0.
by rewrite size_fbl sh0.
Qed.


Local Open Scope ring_scope.

Let w : algC := omega M.
Let prim_w : M.-primitive_root w := omega_prim M_gt0.

Let block_entry (p x : nat) : algC :=
  nth 0 (data (nth unit_block row (fold_index M p))) x.

Lemma nth_AA (p x : nat) :
  (p < M)%N -> (x < r * r)%N ->
  nth 0 (flatten (map data fbl)) (p * (r * r) + x) = block_entry p x.
Proof.
move=> lt_p lt_x; rewrite (@nth_flatten_data _ (r * r)%N) ?size_fbl //.
  by move=> k lt_k; case: (fbl_shape lt_k).
by rewrite nth_fbl.
Qed.

Lemma stack_index (k i t : nat) :
  (i < r)%N -> (t < r)%N ->
  ((k * (r * r) + i * r + t) %% (r * r) = i * r + t
   /\ (k * (r * r) + i * r + t) %/ (r * r) = k)%N.
Proof.
move=> lt_i lt_t; have lt_x : (i * r + t < r * r)%N by snia.
rewrite -addnA modnMDl divnMDl; first by snia.
by rewrite modn_small // divn_small // addn0.
Qed.

Lemma row_index (k t : nat) :
  (t < r)%N -> ((k * r + t) %% r = t /\ (k * r + t) %/ r = k)%N.
Proof.
move=> lt_t; rewrite modnMDl divnMDl; first by slia.
by rewrite modn_small // divn_small // addn0.
Qed.

Lemma Circulant_matmul_core (v : ndarray) :
  shape v = [:: (M * r)%N] -> size (data v) = (M * r)%N ->
  Circulant__matmul__ self (PyArray v)
  = Ok (Vector (asarray
         (NdArray [:: (r * M)%N] complex128
            (block_product r M (circulant_index M) row (data v)))
         (dtype_of v))).
Proof.
move=> sh_v sz_v.
rewrite /Circulant__matmul__ /ndim sh_v shape_of_circulant /=.
rewrite (mulnC M r) eqxx /= first_block_line_circulant /= array_fbl /=.
rewrite (@fft_stack _ M r r) //=.
rewrite /reshape /prod_shape /= sz_v !muln1 eqxx /=.
rewrite (@fft_stack _ M r 1) //=.
rewrite (@matmul_stack _ _ M r r) //=.
rewrite (@ifft_stack _ M r 1) //=.
rewrite /reshape_flat /reshape /prod_shape /= size_mkseq !muln1.
rewrite (mulnC M r) eqxx /=.
congr (Ok (Vector (asarray (NdArray _ _ _) _))).
rewrite /block_product (mulnC M r).
apply: (@eq_from_nth _ 0); rewrite !size_mkseq // => idx lt_idx.
rewrite !nth_mkseq //.
set m := (idx %/ r)%N; set i := (idx %% r)%N.
have r_gt0 : (0 < r)%N by case: (r) lt_idx.
have lt_m : (m < M)%N by rewrite ltn_divLR // mulnC.
have lt_i : (i < r)%N by rewrite ltn_pmod.
transitivity (M%:R^-1 * \sum_(0 <= l < M)
    (\sum_(0 <= t < r)
       (\sum_(0 <= p < M) block_entry p (i * r + t) * w ^+ (p * l))
       * (\sum_(0 <= q < M) nth 0 (data v) (q * r + t) * w ^+ (q * l)))
    * w^-1 ^+ (l * m)).
  congr (_ * _); apply: eq_big_nat => l /andP [_ lt_l].
  congr (_ * _); rewrite nth_mkseq; first by snia.
  have [-> ->] := row_index l lt_i.
  apply: eq_big_nat => t /andP [_ lt_t].
  rewrite nth_mkseq; first by snia.
  rewrite nth_mkseq; first by snia.
  have [-> ->] := stack_index l lt_i lt_t.
  have [-> ->] := row_index l lt_t.
  congr (_ * _); apply: eq_big_nat => p /andP [_ lt_p].
  by rewrite nth_AA //; snia.
transitivity (\sum_(0 <= t < r) \sum_(0 <= q < M)
    block_entry ((m + M - q) %% M) (i * r + t) * nth 0 (data v) (q * r + t)).
  under eq_bigr do rewrite big_distrl /=.
  rewrite exchange_big /= big_distrr /=; apply: eq_bigr => t _.
  exact: circular_convolution.
rewrite exchange_big /=; apply: eq_big_nat => q /andP [_ lt_q].
apply: eq_bigr => t _.
by rewrite /block_entry fold_cyclic_sub.
Qed.


Lemma index_grid_circulant :
  _index_grid self = Ok (Circulant_index_grid line0 (Posz M)).
Proof.
have -> : _index_grid self
          = (line <- _baseline_grid self ;;
             Ok (Circulant_index_grid line (nb_blocks self).1)).
  by case: self not_Toeplitz.
by rewrite baseline_self nb_self.
Qed.

Let grid : seq (seq int) := Circulant_index_grid line0 (Posz M).

Let rows : seq (seq ndarray) :=
  [seq [seq nth unit_block fbl (Py.to_nat z) | z <- zs] | zs <- grid].

Let blocks : seq (seq ndarray) :=
  [seq [seq promote (common_dtype (flatten rows)) x | x <- bs] | bs <- rows].

Lemma size_grid : size grid = M.
Proof.
have := @size_Circulant_index_grid line0.
by rewrite size_line0; apply.
Qed.

Lemma nth_grid (i : nat) : (i < M)%N -> nth [::] grid i = rotr i line0.
Proof.
have := @Circulant_rowE line0 i.
by rewrite size_line0; apply.
Qed.

Lemma entry_grid (i j : nat) :
  (i < M)%N -> (j < M)%N ->
  nth 0 (rotr i line0) j = Posz (fold_index M (dist i j)).
Proof.
move=> lt_i lt_j; rewrite -nth_grid //.
have := @Circulant_entry_fold line0 i j.
by rewrite size_line0; apply.
Qed.

Lemma grid_has_entries : (0 < size (flatten grid))%N.
Proof.
have := nth_grid M_gt0; have := size_grid; case: grid => [|zs g] /=.
  by move=> eqM; move: M_gt0; rewrite -eqM.
by move=> _ ->; rewrite size_cat size_rotr size_line0 addn_gt0 M_gt0.
Qed.

Lemma all_blocks_circulant : all_blocks self = Ok blocks.
Proof.
apply: (@all_blocks_ok _ _ _ M [:: r; r] index_grid_circulant
          first_block_line_circulant grid_has_entries).
- apply/(all_nthP [::]) => i; rewrite -/grid size_grid => lt_i.
  by rewrite nth_grid // size_rotr size_line0.
- rewrite size_fbl -/grid.
  apply/(all_nthP [::]) => i; rewrite size_grid => lt_i.
  apply/(all_nthP 0) => j; rewrite nth_grid // size_rotr size_line0 => lt_j.
  rewrite entry_grid //= ltz_nat.
  by apply: leq_ltn_trans (fold_index_le _) _; rewrite dist_lt.
apply/(all_nthP unit_block) => p; rewrite size_fbl => lt_p.
by have [-> _ _] := fbl_shape lt_p.
Qed.

Lemma block_shape_circulant : block_shape self = (r, r).
Proof.
rewrite /block_shape base_self /= nth_nseq.
by have -> : (0 < size row)%N by apply: leq_ltn_trans (fold_in_row M_gt0).
Qed.

Lemma blocks_at (i j : nat) :
  (i < M)%N -> (j < M)%N ->
  data (nth (NdArray [::] float64 [::]) (nth [::] blocks i) j)
  = data (nth unit_block row (circulant_index M i j)).
Proof.
move=> lt_i lt_j.
rewrite /blocks (nth_map [::]) ?size_map ?size_grid //.
rewrite (nth_map unit_block) /rows (nth_map [::]) ?size_grid //;
  rewrite nth_grid // ?size_map ?size_rotr ?size_line0 //.
rewrite promote_data (nth_map 0) ?size_rotr ?size_line0 // entry_grid //=.
rewrite nth_fbl /circulant_index ?fold_index_idem ?dist_lt //.
by apply: leq_ltn_trans (fold_index_le _) _; rewrite dist_lt.
Qed.

Lemma dense_circulant (v : ndarray) :
  shape v = [:: (M * r)%N] ->
  dense_matvec self v
  = Ok (NdArray [:: (M * r)%N]
          (result_type
             (foldr result_type float64 (map dtype_of (flatten blocks)))
             (dtype_of v))
          (block_product r M (circulant_index M) row (data v))).
Proof.
move=> sh_v; apply: dense_matvec_blocks all_blocks_circulant _ _ blocks_at sh_v.
  by rewrite nb_self.
exact: block_shape_circulant.
Qed.

End CirculantLine.

(** ** Constructed circulant matrices *)

Lemma fold_index_half (m k : nat) : k < m -> fold_index m k * 2 <= m.
Proof. by move=> lt_k; rewrite /fold_index; case: ifP => ?; slia. Qed.

Lemma circulant_of_construct (c : class) (r : nat) (row : seq ndarray)
    (chk : bool) (A : matrix) :
  c <> Toeplitz -> row_of_shape r r row ->
  construct c [:: row] (checked chk) = Ok A ->
  exists M line0,
    [/\ __class__ A <> Toeplitz /\ base A = store_of r r row,
        nb_blocks A = (Posz M, Posz M),
        _baseline_grid A = Ok line0 /\ size line0 = M,
        forall k, k < M -> nth 0%R line0 k = Posz (fold_index M k)
      & forall k, k < M -> fold_index M k < size row].
Proof.
move=> notT shaped cons.
have [line [base_ok nb line_fold sz]] := circulant_baseline_fold notT cons.
exists (size line), line.
have in_row k : k < size line -> fold_index (size line) k < size row.
  move=> lt_k; have := fold_index_half lt_k; move: lt_k; rewrite sz.
  by case: (c) => ? ?; slia.
case: c notT cons {sz} => [[]|_|_] //=.
  case/Even__init__P => b ini eqA.
  have [_ _ gt0 _] := BlockMatrix__init__P ini.
  have eqb : b = store_of r r row.
    by move: ini; rewrite (init_store_of chk gt0 shaped) => -[].
  by move: base_ok nb; rewrite eqA eqb /= => ? ->.
case/Odd__init__P => b ini eqA.
have [_ _ gt0 _] := BlockMatrix__init__P ini.
have eqb : b = store_of r r row.
  by move: ini; rewrite (init_store_of chk gt0 shaped) => -[].
by move: base_ok nb; rewrite eqA eqb /= => ? ->.
Qed.

(** ** Real data *)

Section RealData.

Local Open Scope ring_scope.

Lemma nth_real (s : seq algC) (k : nat) :
  all (fun x => x \is Num.real) s -> nth 0 s k \is Num.real.
Proof.
move=> /(all_nthP 0) real_s; case: (ltnP k (size s)) => h; first exact: real_s.
by rewrite nth_default // rpred0.
Qed.

Lemma real_row_data (row : seq ndarray) (r c k : nat) :
  row_of_shape r c row -> real_row row ->
  all (fun x => x \is Num.real) (data (nth unit_block row k)).
Proof.
move=> shaped real; case: (ltnP k (size row)) => h; last first.
  by rewrite nth_default //= rpred1.
case: (row_of_shapeP shaped h) => _ _ /andP [_].
by move/(all_nthP unit_block)/(_ k h): real; case: (dtype_of _).
Qed.

Lemma real_row_dtype (row : seq ndarray) (k : nat) :
  real_row row -> dtype_of (nth unit_block row k) = float64.
Proof.
move=> real; case: (ltnP k (size row)) => h; last by rewrite nth_default.
by move/(all_nthP unit_block)/(_ k h): real; case: (dtype_of _).
Qed.

Lemma block_product_real (r m : nat) (index : nat -> nat -> nat)
    (row : seq ndarray) (x : seq algC) (c : nat) :
  row_of_shape r c row -> real_row row ->
  all (fun z => z \is Num.real) x ->
  all (fun z => z \is Num.real) (block_product r m index row x).
Proof.
move=> shaped real real_x; apply/(all_nthP 0) => p.
rewrite size_mkseq => lt_p; rewrite nth_mkseq //.
apply: rpred_sum => q _; apply: rpred_sum => t _.
by rewrite rpredM // nth_real // (real_row_data _ shaped).
Qed.

Lemma map_Re_real (s : seq algC) :
  all (fun z => z \is Num.real) s -> [seq 'Re z | z <- s] = s.
Proof.
move=> /allP real_s; rewrite -[RHS]map_id; apply/eq_in_map => z z_in.
exact/Creal_ReP/real_s.
Qed.

Lemma result_type_complex (d : dtype) : result_type d complex128 = complex128.
Proof. by case: d. Qed.

Lemma foldr_result_type_real (bs : seq ndarray) :
  all (fun b => dtype_eqb (dtype_of b) float64) bs ->
  foldr result_type float64 (map dtype_of bs) = float64.
Proof.
by elim: bs => [|b bs IH] //= /andP [hb /IH ->]; case: (dtype_of b) hb.
Qed.

End RealData.

Lemma real_row_take (row : seq ndarray) (zs : seq int) :
  real_row row ->
  real_row [seq nth unit_block row (Py.to_nat z) | z <- zs].
Proof.
move=> real; rewrite /real_row all_map; apply/allP => z _ /=.
by rewrite real_row_dtype.
Qed.

Lemma real_grid_dtype (row : seq ndarray) (grid : seq (seq int)) :
  real_row row ->
  foldr result_type float64
    (map dtype_of
       (flatten [seq [seq nth unit_block row (Py.to_nat z) | z <- zs]
                | zs <- grid]))
  = float64.
Proof.
move=> real; apply: foldr_result_type_real; rewrite all_flatten_seq all_map.
by apply/allP => zs _ /=; apply: real_row_take.
Qed.

Lemma promoted_grid_dtype (d : dtype) (rows : seq (seq ndarray)) :
  d = float64 ->
  foldr result_type float64
    (map dtype_of
       (flatten [seq [seq promote d x | x <- bs] | bs <- rows]))
  = float64.
Proof.
move=> ->; apply: foldr_result_type_real; rewrite all_flatten_seq all_map.
apply/(all_nthP [::]) => k _ /=; rewrite all_map.
by apply/(all_nthP unit_block).
Qed.

Lemma vector_data (v : ndarray) (n : nat) :
  is_vector v -> shape v = [:: n] ->
  size (data v) = n
  /\ (dtype_of v = float64 -> all (fun z => z \is Num.real) (data v)).
Proof.
case/andP => _ /andP [/eqP -> real_v] -> /=; rewrite muln1; split=> // fl.
by move: real_v; rewrite fl.
Qed.

(** The result of the product (an array of dtype [dtype_of v]) and the
    dense product agree when the dtype of the vector can hold the
    products. *)
Lemma cast_agrees (sh : seq nat) (d : dtype) (v : ndarray) (y : seq algC) :
  dtype_of v = complex128
  \/ (d = float64 /\ all (fun z => z \is Num.real) y) ->
  asarray (NdArray sh complex128 y) (dtype_of v)
  = NdArray sh (result_type d (dtype_of v)) y.
Proof.
rewrite /asarray /=; case => [-> | [-> real_y]].
  by rewrite result_type_complex.
by case: (dtype_of v) => //=; rewrite map_Re_real.
Qed.

(** ** The circulant product *)

(** X26.  For a circulant matrix (even or odd) with [M >= 1] logical
    blocks, built on square [float64] or [complex128] blocks of shape
    [(r, r)], and a [float64] or [complex128] vector of length [M * r]
    whose dtype can hold the products (a [complex128] vector, or a
    [float64] vector when the stored blocks are [float64]), [__matmul__]
    returns exactly the product of the dense matrix with the vector. *)
Theorem circulant_matmul_dense (c : class) (r : nat) (row : seq ndarray)
    (chk : bool) (A : matrix) (v : ndarray) :
  c <> Toeplitz ->
  row_of_shape r r row ->
  construct c [:: row] (checked chk) = Ok A ->
  let M := Py.to_nat (nb_blocks A).1 in
  0 < M ->
  is_vector v -> shape v = [:: M * r] ->
  dtype_of v = complex128 \/ real_row row ->
  exists y,
    __matmul__ A (PyArray v) = Ok (Vector y) /\ dense_matvec A v = Ok y.
Proof.
move=> notT shaped cons.
have [M [line0 [[clsA baseA] nbA [blA szl] foldl inrow]]] :=
  circulant_of_construct notT shaped cons.
rewrite nbA /= => M_gt0 vec_v sh_v compat.
have [sz_v real_v] := vector_data vec_v sh_v.
have -> : __matmul__ A = Circulant__matmul__ A by case: (A) clsA.
rewrite (Circulant_matmul_core clsA baseA nbA M_gt0 blA szl foldl inrow
           shaped sh_v sz_v).
rewrite (dense_circulant clsA baseA nbA M_gt0 blA szl foldl inrow shaped sh_v).
eexists; split; first by []; congr Ok; rewrite (mulnC r M).
apply/esym/cast_agrees; case: compat => [-> | real]; first by left.
case dt_v: (dtype_of v); last by left.
right; split; last exact: block_product_real shaped real (real_v dt_v).
by apply: promoted_grid_dtype; apply: real_grid_dtype (real_row_take _ real).
Qed.

(** ** The even embedding of a Toeplitz matrix *)

Section Embedding.

Local Open Scope ring_scope.

Variables (r n : nat) (row : seq ndarray) (x : seq algC).

Hypothesis n_gt1 : (1 < n)%N.
Hypothesis size_x : size x = (n * r)%N.

Let M : nat := ((n - 1) * 2)%N.

Lemma embedding_index (i j : nat) :
  (i < n)%N -> (j < n)%N -> circulant_index M i j = dist i j.
Proof.
move=> lt_i lt_j; rewrite /circulant_index /fold_index /M.
by have := dist_lt lt_i lt_j; move: (dist i j) => d lt_d; case: ifP => ?; slia.
Qed.

(** The first [n * r] entries of the product of the embedding with the
    padded vector are the entries of the Toeplitz product. *)
Lemma embedding_product (k : nat) :
  take (n * r) (block_product r M (circulant_index M) row (x ++ nseq k 0))
  = block_product r n dist row x.
Proof.
have le_nM : (n * r <= M * r)%N by rewrite leq_mul2r /M; apply/orP; right; slia.
have sz_take : size (take (n * r)
    (block_product r M (circulant_index M) row (x ++ nseq k 0))) = (n * r)%N.
  by rewrite size_takel // size_mkseq.
apply: (@eq_from_nth _ 0); first by rewrite sz_take size_mkseq.
move=> p; rewrite sz_take => lt_p.
have r_gt0 : (0 < r)%N by case: (r) lt_p => //; rewrite muln0.
have lt_i : (p %/ r < n)%N by rewrite ltn_divLR.
rewrite nth_take // !nth_mkseq //; first exact: leq_trans lt_p le_nM.
rewrite (@big_cat_nat _ _ _ n) //=; first by rewrite /M; slia.
rewrite [X in _ + X]big1_seq => [q /andP [_]|].
  rewrite mem_index_iota => /andP [le_q _].
  apply: big1_seq => t _; rewrite nth_cat size_x.
  have -> : (q * r + t < n * r)%N = false.
    by apply/negbTE; rewrite -leqNgt; snia.
  by rewrite nth_nseq if_same mulr0.
rewrite addr0.
apply: eq_big_nat => q /andP [_ lt_q]; apply: eq_big_nat => t /andP [_ lt_t].
rewrite embedding_index // nth_cat size_x.
by have -> : (q * r + t < n * r)%N by snia.
Qed.

End Embedding.

(** ** The Toeplitz product *)

Lemma to_nat_dist (i j : nat) : Py.to_nat `|Posz i - Posz j|%R = dist i j.
Proof.
rewrite -abszE /= /dist; case: (leqP i j) => h; first by rewrite distnEr.
by rewrite distnEl // ltnW.
Qed.

Lemma Toeplitz__matmul__E (self : matrix) (v : ndarray) :
  ndim v = 1 -> (shape_of self).2 = Posz (nth 0 (shape v) 0) ->
  Toeplitz__matmul__ self (PyArray v)
  = (A <- Even__init__ (_stored_blocks (base self))
            (Kwargs (Some (_stored_block_shapes (base self))) false) ;;
     z <- zeros ((shape_of A).2 - (shape_of self).2)%R ;;
     b <- concatenate v z ;;
     Ab <- Circulant__matmul__ A (PyArray b) ;;
     match Ab with
     | Vector y => Ok (Vector (Np.slice_to (shape_of self).1 y))
     | NotImplemented => Raise NotModelled
     end).
Proof. by rewrite /Toeplitz__matmul__ => -> ->; rewrite !eqxx. Qed.

Section ToeplitzProduct.

Variables (r : nat) (row : seq ndarray) (v : ndarray).

Hypothesis shaped : row_of_shape r r row.
Hypothesis n_gt1 : 1 < size row.
Hypothesis sh_v : shape v = [:: size row * r].
Hypothesis sz_v : size (data v) = size row * r.

Let n : nat := size row.
Let M : nat := (n - 1) * 2.
Let A : matrix := BlockSymmetricToeplitzMatrix (store_of r r row).
Let E : matrix :=
  EvenBlockSymmetricCirculantMatrix (store_of r r row) (Posz M).

Let n_gt0 : 0 < n.
Proof. exact: ltnW. Qed.

Lemma embedding_construct :
  construct EvenCirculant [:: row] (checked true) = Ok E.
Proof.
rewrite /= /Even__init__ (init_store_of true n_gt0 shaped) /=.
by rewrite subzn // -PoszM.
Qed.

Lemma embedding_init :
  Even__init__ (_stored_blocks (base A))
    (Kwargs (Some (_stored_block_shapes (base A))) false) = Ok E.
Proof.
rewrite /Even__init__ /BlockMatrix__init__ /=.
have : 0 < size row by exact: n_gt0.
case eq_row: row => [|b00 row'] //= _.
by rewrite /E /M /n /store_of eq_row /Py.len /= subzn // -PoszM.
Qed.

Let pad : nat := M * r - n * r.

Lemma le_nM : n * r <= M * r.
Proof. by rewrite leq_mul2r /M /n; apply/orP; right; slia. Qed.

Lemma zeros_pad :
  zeros ((shape_of E).2 - (shape_of A).2)%R
  = Ok (NdArray [:: pad] float64 (nseq pad 0%R)).
Proof.
rewrite /shape_of /= nth_nseq n_gt0 -!PoszM subzn.
  by rewrite ![r * _]mulnC le_nM.
by rewrite /= /pad ![r * _]mulnC.
Qed.

(** The padded vector that [__matmul__] hands to the embedding. *)
Lemma concatenate_pad :
  concatenate v (NdArray [:: pad] float64 (nseq pad 0%R))
  = Ok (padded (M * r) v).
Proof.
rewrite /concatenate sh_v /= /padded sz_v /pad subnKC ?le_nM //.
by have -> : result_type (dtype_of v) float64 = dtype_of v by case: (dtype_of v).
Qed.

Lemma shape_of_Toeplitz : shape_of A = (Posz (r * n), Posz (r * n)).
Proof. by rewrite /shape_of /= nth_nseq n_gt0 -!PoszM. Qed.

Let yE : ndarray :=
  asarray (NdArray [:: r * M] complex128
             (block_product r M (circulant_index M) row
                (data (padded (M * r) v))))
          (dtype_of v).

Lemma embedding_matmul :
  Circulant__matmul__ E (PyArray (padded (M * r) v)) = Ok (Vector yE).
Proof.
have notT : EvenCirculant <> Toeplitz by [].
have [M' [line0 [[clsE baseE] nbE [blE szl] foldl inrow]]] :=
  circulant_of_construct notT shaped embedding_construct.
have eqM : M' = M by case: nbE.
move: nbE blE szl foldl inrow; rewrite {M'}eqM => nbE blE szl foldl inrow.
have M_gt0 : 0 < M by rewrite /M /n; slia.
apply: (Circulant_matmul_core clsE baseE nbE M_gt0 blE szl foldl inrow
          shaped) => //=.
rewrite size_cat size_nseq sz_v subnKC // leq_mul2r /M; apply/orP; right.
by rewrite /n; slia.
Qed.

Lemma Toeplitz_matmul_embedding :
  Toeplitz__matmul__ A (PyArray v)
  = Ok (Vector (Np.slice_to (Posz (r * n)) yE)).
Proof.
rewrite Toeplitz__matmul__E.
- by rewrite /ndim sh_v.
- by rewrite shape_of_Toeplitz sh_v /= mulnC.
rewrite embedding_init bindE zeros_pad bindE concatenate_pad bindE.
by rewrite embedding_matmul bindE shape_of_Toeplitz.
Qed.

Lemma slice_embedding :
  Np.slice_to (Posz (r * n)) yE
  = asarray (NdArray [:: n * r] complex128
               (block_product r n dist row (data v)))
            (dtype_of v).
Proof.
have sz_Y : size (block_product r M (circulant_index M) row
                    (data (padded (M * r) v))) = M * r.
  by rewrite size_mkseq.
have take_Y : take (r * n) (block_product r M (circulant_index M) row
                             (data (padded (M * r) v)))
              = block_product r n dist row (data v).
  by rewrite mulnC; apply: embedding_product.
have le_rn : r * n <= M * r by rewrite mulnC le_nM.
rewrite /Np.slice_to /Py.slice_to /Py.bound /yE /asarray /=.
case: (dtype_of v) => /=.
  rewrite size_map sz_Y (minn_idPl le_rn) -map_take take_Y.
  by rewrite size_map size_mkseq.
by rewrite sz_Y (minn_idPl le_rn) take_Y size_mkseq.
Qed.

Let rowsT : seq (seq ndarray) :=
  [seq [seq nth unit_block row (Py.to_nat z) | z <- zs]
  | zs <- Toeplitz_index_grid (Posz n)].

Let blocksT : seq (seq ndarray) :=
  [seq [seq promote (common_dtype (flatten rowsT)) x | x <- bs]
  | bs <- rowsT].

Lemma all_blocks_Toeplitz : all_blocks A = Ok blocksT.
Proof.
have [sizes entries] := Toeplitz_index_grid_sizes n.
have has_entries : 0 < size (flatten (Toeplitz_index_grid (Posz n))).
  by rewrite entries muln_gt0 n_gt0.
exact: (@all_blocks_ok A _ row n [:: r; r] erefl erefl has_entries sizes
          (Toeplitz_index_grid_in_range _) (row_shapes shaped)).
Qed.

Lemma blocksT_at (i j : nat) :
  i < n -> j < n ->
  data (nth (NdArray [::] float64 [::]) (nth [::] blocksT i) j)
  = data (nth unit_block row (dist i j)).
Proof.
move=> lt_i lt_j; case/andP: (Toeplitz_square n) => /eqP sz_grid.
move/(all_nthP [::]) => sz_rows.
have sz_row : size (nth [::] (Toeplitz_index_grid (Posz n)) i) = n.
  by apply/eqP/sz_rows; rewrite sz_grid.
have sz_rowsT : size rowsT = n by rewrite size_map.
have rowT : nth [::] rowsT i
            = [seq nth unit_block row (Py.to_nat z)
              | z <- nth [::] (Toeplitz_index_grid (Posz n)) i].
  by rewrite (nth_map [::]) ?sz_grid.
rewrite /blocksT (nth_map [::]) ?sz_rowsT // rowT.
rewrite (nth_map unit_block) ?size_map ?sz_row // promote_data.
rewrite (nth_map 0%R) ?sz_row //.
by rewrite -/(entry _ i j) Toeplitz_entry // to_nat_dist.
Qed.

Lemma dense_Toeplitz :
  dense_matvec A v
  = Ok (NdArray [:: n * r]
          (result_type
             (foldr result_type float64 (map dtype_of (flatten blocksT)))
             (dtype_of v))
          (block_product r n dist row (data v))).
Proof.
apply: dense_matvec_blocks all_blocks_Toeplitz _ _ blocksT_at sh_v => //.
by rewrite /block_shape /= nth_nseq n_gt0.
Qed.

End ToeplitzProduct.

(** X25.  For a Toeplitz matrix of [N >= 2] stored square [float64] or
    [complex128] blocks of shape [(r, r)] and a [float64] or [complex128]
    vector of length [N * r] whose dtype can hold the products (a
    [complex128] vector, or a [float64] vector when the stored blocks are
    [float64]), [__matmul__] returns exactly the product of the dense
    matrix with the vector; its result is the first [N * r] entries of the
    product of the even embedding with the zero-padded vector. *)
Theorem Toeplitz_matmul_dense (r : nat) (row : seq ndarray) (chk : bool)
    (A : matrix) (v : ndarray) :
  row_of_shape r r row -> 1 < size row ->
  Toeplitz__init__ [:: row] (checked chk) = Ok A ->
  is_vector v -> shape v = [:: size row * r] ->
  dtype_of v = complex128 \/ real_row row ->
  let M := (size row - 1) * 2 in
  exists y E yE,
    [/\ __matmul__ A (PyArray v) = Ok (Vector y),
        dense_matvec A v = Ok y,
        Even__init__ [:: row] (checked chk) = Ok E,
        __matmul__ E (PyArray (padded (M * r) v)) = Ok (Vector yE)
      & y = Np.slice_to (Posz (size row * r)) yE].
Proof.
move=> shaped n_gt1 /Toeplitz__init__P [b ini ->] vec_v sh_v compat M.
have n_gt0 : 0 < size row by exact: ltnW.
move: ini; rewrite (init_store_of chk n_gt0 shaped) => -[<-].
have [sz_v real_v] := vector_data vec_v sh_v.
eexists; eexists; eexists; split.
- exact: (Toeplitz_matmul_embedding shaped n_gt1 sh_v sz_v).
- rewrite (dense_Toeplitz shaped n_gt1 sh_v) slice_embedding //.
  congr Ok; apply/esym/cast_agrees; case: compat => [-> | real]; first by left.
  case dt_v: (dtype_of v); last by left.
  right; split; last exact: block_product_real shaped real (real_v dt_v).
  by apply: promoted_grid_dtype; apply: real_grid_dtype.
- by rewrite /Even__init__ (init_store_of chk n_gt0 shaped) /= subzn // -PoszM.
- exact: (embedding_matmul shaped n_gt1 sz_v).
by rewrite mulnC.
Qed.

(** ** Examples of the two products *)

Lemma scenario_row_shaped : row_of_shape 1 1 scenario_row.
Proof. by rewrite /row_of_shape /= /wf /= rpred1 !rpred_nat. Qed.

Lemma basis_vector_is_vector (n : nat) :
  0 < n -> is_vector (basis_vector n).
Proof.
case: n => // n _; rewrite /is_vector /wf /= size_nseq muln1 eqxx rpred1 /=.
by apply/allP => z /nseqP [-> _]; rewrite rpred0.
Qed.

Lemma circulant_matmul_dense_witness :
  let A := OddBlockSymmetricCirculantMatrix (store_of 1 1 scenario_row) 5 in
  exists y,
    __matmul__ A (PyArray (basis_vector 5)) = Ok (Vector y)
    /\ dense_matvec A (basis_vector 5) = Ok y.
Proof.
apply: (@circulant_matmul_dense OddCirculant 1 scenario_row true) => //.
- exact: scenario_row_shaped.
- exact: basis_vector_is_vector.
by right.
Defined.

Lemma Toeplitz_matmul_dense_witness :
  let A := BlockSymmetricToeplitzMatrix (store_of 1 1 scenario_row) in
  exists y E yE,
    [/\ __matmul__ A (PyArray (basis_vector 3)) = Ok (Vector y),
        dense_matvec A (basis_vector 3) = Ok y,
        Even__init__ [:: scenario_row] (checked true) = Ok E,
        __matmul__ E (PyArray (padded (4 * 1) (basis_vector 3)))
        = Ok (Vector yE)
      & y = Np.slice_to (Posz (3 * 1)) yE].
Proof.
apply: (@Toeplitz_matmul_dense 1 scenario_row true) => //.
- exact: scenario_row_shaped.
- exact: basis_vector_is_vector.
by right.
Defined.

(** ** Complex blocks and a real vector *)

Section CastCounterexamples.

Local Open Scope ring_scope.

(** C2.  The circulant product is not always the dense product: on the
    odd circulant matrix of the one complex block [[1j]] and the real
    vector [ones(1)], which passes the guard, [__matmul__] returns [0.],
    the real part of the dense product [1j]: the final
    [np.asarray(y, dtype=other.dtype)] discards the imaginary part. *)
Theorem circulant_matmul_drops_imaginary_part :
  let A := OddBlockSymmetricCirculantMatrix
             (store_of 1 1 [:: imaginary_block]) 1 in
  exists y d,
    [/\ construct OddCirculant [:: [:: imaginary_block]] no_kwargs = Ok A,
        __matmul__ A (PyArray (ones 1)) = Ok (Vector y),
        dense_matvec A (ones 1) = Ok d,
        data y = [:: 0] /\ data d = [:: 'i]
      & y <> d].
Proof.
move=> A.
have shaped : row_of_shape 1 1 [:: imaginary_block] by [].
have cons : construct OddCirculant [:: [:: imaginary_block]] (checked true)
            = Ok A by [].
have notT : OddCirculant <> Toeplitz by [].
have [M [line0 [[clsA baseA] nbA [blA szl] foldl inrow]]] :=
  circulant_of_construct notT shaped cons.
have eqM : M = 1%N by case: nbA.
move: nbA blA szl foldl inrow; rewrite {M}eqM => nbA blA szl foldl inrow.
have sh_v : shape (ones 1) = [:: (1 * 1)%N] by [].
have sz_v : size (data (ones 1)) = (1 * 1)%N by [].
have product : block_product 1 1 (circulant_index 1) [:: imaginary_block]
                 (data (ones 1)) = [:: 'i].
  by rewrite /block_product /mkseq /= !big_nat1 /= mulr1.
eexists; eexists; split.
- exact: cons.
- exact: (Circulant_matmul_core clsA baseA nbA _ blA szl foldl inrow
            shaped sh_v sz_v).
- exact: (dense_circulant clsA baseA nbA _ blA szl foldl inrow shaped sh_v).
- by rewrite product /= Re_i.
move=> /(congr1 data); rewrite product /= Re_i => -[] /eqP.
by rewrite eq_sym (negbTE (neq0Ci _)).
Qed.

(** C1.  The Toeplitz product is not always the dense product: on the
    Toeplitz matrix of the two complex blocks [[1j]] and [[0j]] and the
    real vector [ones(2)], which passes the guard, [__matmul__] returns
    [0., 0.], the real part of the dense product [1j, 1j]: the circulant
    product of the embedding ends in [np.asarray(y, dtype=other.dtype)],
    which discards the imaginary part. *)
Theorem Toeplitz_matmul_drops_imaginary_part :
  let row := [:: imaginary_block; scalar_block complex128 0] in
  let A := BlockSymmetricToeplitzMatrix (store_of 1 1 row) in
  exists y d,
    [/\ Toeplitz__init__ [:: row] no_kwargs = Ok A,
        __matmul__ A (PyArray (ones 2)) = Ok (Vector y),
        dense_matvec A (ones 2) = Ok d,
        data y = [:: 0; 0] /\ data d = [:: 'i; 'i]
      & y <> d].
Proof.
move=> row A.
have shaped : row_of_shape 1 1 row by [].
have n_gt1 : (1 < size row)%N by [].
have sh_v : shape (ones 2) = [:: (size row * 1)%N] by [].
have sz_v : size (data (ones 2)) = (size row * 1)%N by [].
have product : block_product 1 2 dist row [:: 1; 1] = [:: 'i; 'i].
  rewrite /block_product; set F := (fun p => _).
  have -> : mkseq F (2 * 1) = [:: F 0%N; F 1%N] by [].
  rewrite /F !(big_nat_recl 1) // !big_nat1.
  rewrite !divn1 !modn1 !mul0n !mul1n !addn0 /dist /row.
  do 20?[rewrite [nth _ _ _]/=].
  by rewrite !mulr1 addr0 add0r.
eexists; eexists; split.
- by [].
- have -> : __matmul__ A = Toeplitz__matmul__ A by [].
  rewrite (Toeplitz_matmul_embedding shaped n_gt1 sh_v sz_v).
  by rewrite slice_embedding.
- exact: (dense_Toeplitz shaped n_gt1 sh_v).
- by rewrite product /= Re_i.
move=> /(congr1 data); rewrite product /= Re_i => -[] /eqP.
by rewrite eq_sym (negbTE (neq0Ci _)).
Qed.

End CastCounterexamples.

(** ** Blocks that are not square *)

(** On blocks of shape [(r, c)] with [r <> c] the circulant product
    raises: the vector, of length [M * c], is reshaped to
    [AAt.shape[:2] + (1,)], that is [(M, r, 1)]. *)
Lemma non_square_circulant_matmul_raises :
  let A := OddBlockSymmetricCirculantMatrix
             (store_of 1 2 [:: wide_block]) 1 in
  [/\ construct OddCirculant [:: [:: wide_block]] no_kwargs = Ok A,
      shape_of A = (Posz 1, Posz 2),
      __matmul__ A (PyArray (ones 2)) = Raise ValueError
    & exists d, dense_matvec A (ones 2) = Ok d /\ shape d = [:: 1]].
Proof.
move=> A; split=> //.
by rewrite /dense_matvec /full_matrix /=; eexists; split.
Qed.

(** The Toeplitz product inherits the failure. *)
Lemma non_square_Toeplitz_matmul_raises :
  let A := BlockSymmetricToeplitzMatrix
             (store_of 1 2 [:: wide_block; wide_block]) in
  [/\ Toeplitz__init__ [:: [:: wide_block; wide_block]] no_kwargs = Ok A,
      shape_of A = (Posz 2, Posz 4)
    & __matmul__ A (PyArray (ones 4)) = Raise ValueError].
Proof. by []. Qed.


(** ** The scenario of three scalar blocks *)

Section Scenario.

Local Open Scope ring_scope.

(** The odd circulant matrix on the blocks [1], [2], [3] has the first
    column [1, 2, 3, 3, 2], and this is what [__matmul__] returns on the
    first basis vector. *)
Lemma scenario_first_column :
  let A := OddBlockSymmetricCirculantMatrix (store_of 1 1 scenario_row) 5 in
  let y := NdArray [:: 5%N] float64 [:: 1; 2%:R; 3%:R; 3%:R; 2%:R] in
  [/\ construct OddCirculant [:: scenario_row] no_kwargs = Ok A,
      _baseline_grid A = Ok [:: 0; 1; 2; 2; 1],
      __matmul__ A (PyArray (basis_vector 5)) = Ok (Vector y)
    & dense_matvec A (basis_vector 5) = Ok y].
Proof.
move=> A y.
have cons : construct OddCirculant [:: scenario_row] (checked true) = Ok A.
  by [].
have notT : OddCirculant <> Toeplitz by [].
have [M [line0 [[clsA baseA] nbA [blA szl] foldl inrow]]] :=
  circulant_of_construct notT scenario_row_shaped cons.
have eqM : M = 5%N by case: nbA.
move: nbA blA szl foldl inrow; rewrite {M}eqM => nbA blA szl foldl inrow.
have sh_v : shape (basis_vector 5) = [:: (5 * 1)%N] by [].
have sz_v : size (data (basis_vector 5)) = (5 * 1)%N by [].
have product :
    block_product 1 5 (circulant_index 5) scenario_row [:: 1; 0; 0; 0; 0]
    = [:: 1; 2%:R; 3%:R; 3%:R; 2%:R].
  rewrite /block_product; set F := (fun p => _).
  have -> : mkseq F (5 * 1) = [:: F 0%N; F 1%N; F 2%N; F 3%N; F 4%N] by [].
  rewrite /F !(big_nat_recl 4, big_nat_recl 3, big_nat_recl 2,
               big_nat_recl 1) // !big_nat1.
  rewrite !divn1 !modn1 !mul0n !mul1n !addn0.
  rewrite /circulant_index /dist /fold_index /scenario_row.
  do 60?[rewrite [nth _ _ _]/=].
  by rewrite !mulr0 !mulr1 !addr0.
have real_y : all (fun z : algC => z \is Num.real)
                 [:: 1; 2%:R; 3%:R; 3%:R; 2%:R].
  by rewrite /= rpred1 !rpred_nat.
split=> //.
- have -> : __matmul__ A = Circulant__matmul__ A by [].
  rewrite (Circulant_matmul_core clsA baseA nbA _ blA szl foldl inrow
             scenario_row_shaped sh_v sz_v) //.
  by rewrite product /asarray [dtype_of _]/= (map_Re_real real_y).
rewrite (dense_circulant clsA baseA nbA _ blA szl foldl inrow
           scenario_row_shaped sh_v) // product.
rewrite promoted_grid_dtype //.
exact: (real_grid_dtype _ (real_row_take _ _)).
Qed.

End Scenario.

(** ** A circulant matrix without blocks *)

(** The even variant built on one stored block has no logical block; on
    the empty vector its product raises, in [np.fft.fft] on an empty
    stack, and so does the dense matrix, in [all_blocks]: the index grid
    [np.array([[]])] is an array of floats, which cannot index the block
    line. *)
Lemma empty_even_matmul_raises :
  let A := EvenBlockSymmetricCirculantMatrix (sample_store 1) 0 in
  let v := NdArray [:: 0] float64 [::] in
  [/\ shape_of A = (Posz 0, Posz 0),
      __matmul__ A (PyArray v) = Raise ValueError
    & dense_matvec A v = Raise IndexError].
Proof. by []. Qed.

(** * Further properties of the accessors and of the products *)

(** ** Lists of pairs *)

Section PairLists.

Variables (U V : eqType).
Implicit Types (s : seq U) (t : U -> seq V).

Lemma mem_flatten_pairs s t (x : U) (y : V) :
  ((x, y) \in flatten [seq [seq (i, j) | j <- t i] | i <- s])
  = (x \in s) && (y \in t x).
Proof.
apply/flatten_mapP/andP => [[i i_in /mapP [j j_in [-> ->]]] | [x_in y_in]] //.
by exists x => //; apply/mapP; exists y.
Qed.

Lemma uniq_flatten_pairs s t :
  uniq s -> (forall i, uniq (t i)) ->
  uniq (flatten [seq [seq (i, j) | j <- t i] | i <- s]).
Proof.
move=> uniq_s uniq_t; elim: s uniq_s => [|i s IH] //= /andP [i_notin uniq_s].
rewrite cat_uniq IH // andbT map_inj_uniq ?uniq_t /=; first by move=> a b [].
apply/hasPn => -[x y]; rewrite mem_flatten_pairs => /andP [x_in _].
apply/negP => /mapP [j _ [eq_x _]].
by move: i_notin; rewrite -eq_x x_in.
Qed.

Lemma size_flatten_pairs s t :
  size (flatten [seq [seq (i, j) | j <- t i] | i <- s])
  = sumn [seq size (t i) | i <- s].
Proof.
rewrite size_flatten /seq.shape -map_comp; congr sumn.
by apply: eq_map => i /=; rewrite size_map.
Qed.

End PairLists.

Lemma sumn_add (U : Type) (f g : U -> nat) (s : seq U) :
  sumn [seq f i + g i | i <- s] = sumn (map f s) + sumn (map g s).
Proof. by elim: s => //= x s ->; slia. Qed.

Lemma mem_range0 (n : nat) (i : int) :
  (i \in Py.range 0 (Posz n)) = (0 <= i < Posz n)%R.
Proof.
rewrite range0_nat; case: i => [m | m].
  by rewrite mem_map ?mem_iota //; move=> a b [].
by apply/negbTE/mapP => -[x _].
Qed.

Lemma uniq_range0 (n : nat) : uniq (Py.range 0 (Posz n)).
Proof. by rewrite range0_nat map_inj_uniq ?iota_uniq //; move=> a b []. Qed.

Lemma abs_dist (i j : nat) : `|Posz i - Posz j|%R = Posz (dist i j).
Proof.
rewrite -abszE; congr Posz; rewrite /dist; case: (leqP i j) => h.
  by rewrite distnEr.
by rewrite distnEl // ltnW.
Qed.

(** ** Counting positions at a given distance *)

Lemma count_below (m n : nat) : count (fun i => i < m) (iota 0 n) = minn m n.
Proof.
elim: n => [|n IH]; first by rewrite minn0.
rewrite -addn1 iotaD count_cat IH /= add0n addn1.
by case: (ltnP n m) => h /=; rewrite /minn; do 2?[case: ifP => ?]; slia.
Qed.

Lemma count_above (k n : nat) : count (fun i => k <= i) (iota 0 n) = n - k.
Proof.
elim: n => [|n IH] //.
rewrite -addn1 iotaD count_cat IH /= add0n addn1.
by case: (leqP k n) => h /=; slia.
Qed.

Lemma count_dist_row (n i k : nat) :
  i < n ->
  count (fun j => dist i j == k) (iota 0 n)
  = if k == 0 then 1 else (k <= i) + (i + k < n).
Proof.
move=> lt_i; case: ifP => [/eqP -> | /negbT k_neq0].
  rewrite (@eq_count _ _ (pred1 i)) => [j /=|].
    by rewrite /dist; case: (leqP i j) => h; apply/eqP/eqP => h2; slia.
  by rewrite count_uniq_mem ?iota_uniq // mem_iota lt_i.
have k_gt0 : 0 < k by rewrite lt0n.
pose a1 := pred1 (i + k); pose a2 := [pred j | (k <= i) && (j == i - k)].
have split_pred : (fun j => dist i j == k) =1 predU a1 a2.
  move=> j /=; rewrite /dist; case: (leqP i j) => h.
    have -> : (k <= i) && (j == i - k) = false.
      by apply/negbTE/negP => /andP [? /eqP ?]; slia.
    by rewrite orbF; apply/eqP/eqP => h2; slia.
  have -> : (j == i + k) = false by apply/negbTE/eqP; slia.
  apply/eqP/andP => [h2 | [h2 /eqP h3]]; last by slia.
  by split; [slia | apply/eqP; slia].
have disjoint : predI a1 a2 =1 pred0.
  move=> j /=; apply/negbTE/negP => /andP [/eqP h1 /andP [h2 /eqP h3]].
  by slia.
have := count_predUI a1 a2 (iota 0 n).
rewrite (eq_count disjoint) count_pred0 addn0 (eq_count split_pred) => ->.
rewrite count_uniq_mem ?iota_uniq // mem_iota /= add0n addnC; congr (_ + _).
case: (leqP k i) => h.
  rewrite (@eq_count _ a2 (pred1 (i - k))) => [j|]; first by rewrite /a2 /= h.
  rewrite count_uniq_mem ?iota_uniq // mem_iota /= add0n.
  by have -> : i - k < n by slia.
rewrite (@eq_count _ a2 pred0) ?count_pred0 // => j.
by rewrite /a2 /= leqNgt h.
Qed.

Lemma sum_count_dist (n k : nat) :
  sumn [seq count (fun j => dist i j == k) (iota 0 n) | i <- iota 0 n]
  = if k == 0 then n else if k < n then 2 * (n - k) else 0.
Proof.
have -> : [seq count (fun j => dist i j == k) (iota 0 n) | i <- iota 0 n]
        = [seq if k == 0 then 1 else (k <= i) + (i + k < n) | i <- iota 0 n].
  apply/eq_in_map => i; rewrite mem_iota add0n /= => lt_i.
  exact: count_dist_row.
case: ifP => k0.
  have := sumn_count predT (iota 0 n).
  by rewrite count_predT size_iota.
rewrite sumn_add !sumn_count count_above.
have -> : count (fun i => i + k < n) (iota 0 n) = minn (n - k) n.
  rewrite -count_below; apply: eq_count => i /=.
  by apply/idP/idP => h; slia.
by rewrite /minn; case: ifP => h1; case: ifP => h2; slia.
Qed.

(** ** The positions of a stored block in a Toeplitz matrix *)

Lemma Toeplitz_positions_of_indexE (row : seq ndarray) (kw : kwargs)
    (A : matrix) (k : int) :
  Toeplitz__init__ [:: row] kw = Ok A ->
  _positions_of_index A k
  = Ok (Toeplitz_positions_of_index (Posz (size row)) k)
  /\ _index_grid A = Ok (Toeplitz_index_grid (Posz (size row))).
Proof.
by case/Toeplitz__init__P => b /BlockMatrix__init__P [_ nb _ _] -> /=; rewrite nb.
Qed.

Lemma Toeplitz_positions_head (n k : nat) :
  k < n ->
  head (0%R, 0%R) (Toeplitz_positions_of_index (Posz n) (Posz k))
  = (0%R, Posz k).
Proof.
move=> lt_k; rewrite /Toeplitz_positions_of_index.
set s := Py.range 0 (Posz n).
have s_cons : s = 0%R :: behead s by rewrite /s range0_nat; case: (n) lt_k.
have map_s (f : int -> seq (int * int)) :
    map f s = f 0%R :: map f (behead s).
  by rewrite {1}s_cons.
rewrite map_s.
have -> : [seq j <- s | `|0 - j|%R == Posz k] = [:: Posz k].
  rewrite (@eq_in_filter _ _ (pred1 (Posz k))) => [j|].
    rewrite mem_range0; case: j => // j _ /=.
    by rewrite sub0r normrN.
  by rewrite filter_pred1_uniq ?uniq_range0 // mem_range0 /= ltz_nat.
by [].
Qed.

(** X1.  [_positions_of_index(k)] of a Toeplitz matrix of [N] blocks lists,
    without repetition, exactly the positions [(i, j)] of the [N x N]
    index grid that hold [k]; when [0 <= k < N], the first position listed
    is [(0, k)], the one on the first block line. *)
Theorem Toeplitz_positions_of_index_spec (row : seq ndarray) (kw : kwargs)
    (A : matrix) (k : int) :
  Toeplitz__init__ [:: row] kw = Ok A ->
  let n := size row in
  exists ps grid,
    [/\ _positions_of_index A k = Ok ps,
        _index_grid A = Ok grid,
        uniq ps,
        forall i j : int,
          ((i, j) \in ps)
          = [&& (0 <= i < Posz n)%R, (0 <= j < Posz n)%R
              & entry grid (Py.to_nat i) (Py.to_nat j) == k]
      & (0 <= k < Posz n)%R -> head (0%R, 0%R) ps = (0%R, k)].
Proof.
move=> cons n; have [-> ->] := Toeplitz_positions_of_indexE k cons.
eexists; eexists; split; [by [] | by [] | | |].
- apply: uniq_flatten_pairs; first exact: uniq_range0.
  by move=> i; apply: filter_uniq; exact: uniq_range0.
- move=> i j; rewrite mem_flatten_pairs mem_filter !mem_range0.
  case: i => [i|i] //=; case: j => [j|j] /=; last by rewrite !andbF.
  rewrite !ltz_nat; case: (ltnP i n) => lt_i //=; case: (ltnP j n) => lt_j //=.
    by rewrite Toeplitz_entry // andbT.
  by rewrite andbF.
case: k => [k|k] //=; rewrite ltz_nat; exact: Toeplitz_positions_head.
Qed.

Lemma Toeplitz_positions_of_index_spec_witness :
  exists ps grid,
    [/\ _positions_of_index (BlockSymmetricToeplitzMatrix (sample_store 3))
          (Posz 1) = Ok ps,
        _index_grid (BlockSymmetricToeplitzMatrix (sample_store 3)) = Ok grid,
        uniq ps,
        forall i j : int,
          ((i, j) \in ps)
          = [&& (0 <= i < Posz 3)%R, (0 <= j < Posz 3)%R
              & entry grid (Py.to_nat i) (Py.to_nat j) == Posz 1]
      & (0 <= Posz 1 < Posz 3)%R -> head (0%R, 0%R) ps = (0%R, Posz 1)].
Proof.
apply: (@Toeplitz_positions_of_index_spec (row_of 3) no_kwargs).
by rewrite /Toeplitz__init__ sample_init.
Defined.

(** X2.  A Toeplitz matrix of [N] blocks holds the stored block [k] at [N]
    positions when [k = 0], at [2 * (N - k)] positions when [0 < k < N],
    and nowhere otherwise. *)
Theorem Toeplitz_positions_of_index_count (row : seq ndarray) (kw : kwargs)
    (A : matrix) (k : int) :
  Toeplitz__init__ [:: row] kw = Ok A ->
  let n := size row in
  exists ps,
    _positions_of_index A k = Ok ps
    /\ size ps = if (k == 0)%R then n
                 else if (0 < k < Posz n)%R then 2 * (n - Py.to_nat k)
                 else 0.
Proof.
move=> cons n; have [-> _] := Toeplitz_positions_of_indexE k cons.
eexists; split; first by [].
rewrite size_flatten_pairs range0_nat -map_comp.
have -> : [seq (size \o (fun i : int =>
                   [seq j <- [seq Posz x | x <- iota 0 n]
                   | `|i - j|%R == k]) \o Posz) i | i <- iota 0 n]
        = [seq count (fun j => Posz (dist i j) == k) (iota 0 n)
          | i <- iota 0 n].
  apply: eq_map => i /=; rewrite size_filter count_map.
  by apply: eq_count => j /=; rewrite abs_dist.
case: k => [k|k] /=.
  by rewrite sum_count_dist ltz_nat; case: (k) => [|k'].
have -> : [seq count (fun j => Posz (dist i j) == Negz k) (iota 0 n)
          | i <- iota 0 n] = [seq 0 | i <- iota 0 n].
  by apply: eq_map => i; rewrite (@eq_count _ _ pred0) ?count_pred0.
by elim: (iota 0 n).
Qed.

Lemma Toeplitz_positions_of_index_count_witness :
  exists ps,
    _positions_of_index (BlockSymmetricToeplitzMatrix (sample_store 4))
      (Posz 1) = Ok ps
    /\ size ps = 6.
Proof.
apply: (@Toeplitz_positions_of_index_count (row_of 4) no_kwargs _ (Posz 1)).
by rewrite /Toeplitz__init__ sample_init.
Defined.

(** ** Constructed circulant matrices, whatever the keyword arguments *)

(** The baseline grid of a circulant matrix built on [n] stored blocks. *)
Lemma circulant_constructP (c : class) (row : seq ndarray) (kw : kwargs)
    (A : matrix) :
  c <> Toeplitz -> construct c [:: row] kw = Ok A ->
  let a := if c is EvenCirculant then size row - 1 else size row in
  let line := ascending a ++ descending (size row - 1) (size row - 1) in
  [/\ __class__ A = c, stored_row (base A) = row, 0 < size row,
      _baseline_grid A = Ok line
    & nb_blocks A = (Posz (size line), Posz (size line))].
Proof.
case: c => [[]|_|_] //=.
  case/Even__init__P => b ini ->; rewrite /= Even_baseline_gridE.
  rewrite (stored_row_init ini) size_even_baseline.
  by case/BlockMatrix__init__P: ini.
case/Odd__init__P => b ini ->; rewrite /= Odd_baseline_gridE.
rewrite (stored_row_init ini).
case/BlockMatrix__init__P: ini => _ _ gt0 _.
by rewrite size_odd_baseline.
Qed.

Lemma circulant_line_fold (c : class) (n k : nat) :
  c <> Toeplitz -> 0 < n ->
  let a := if c is EvenCirculant then n - 1 else n in
  let line := ascending a ++ descending (n - 1) (n - 1) in
  k < size line ->
  nth 0%R line k = Posz (fold_index (size line) k)
  /\ fold_index (size line) k < n.
Proof.
case: c => [[]|_|_] //= gt0.
  rewrite size_even_baseline => lt_k; rewrite nth_even_baseline //; split=> //.
  by have := fold_index_half lt_k; slia.
rewrite size_odd_baseline // => lt_k; rewrite nth_odd_baseline //; split=> //.
by have := fold_index_half lt_k; slia.
Qed.

Lemma index_grid_of_baseline (A : matrix) (line : seq int) :
  __class__ A <> Toeplitz -> _baseline_grid A = Ok line ->
  _index_grid A = Ok (Circulant_index_grid line (nb_blocks A).1).
Proof. by case: A => [b|b n|b n] //= _ [->]. Qed.

(** ** The positions of a stored block in a circulant matrix *)

Lemma count_nth_iota (U : Type) (d : U) (p : pred U) (s : seq U) :
  count (fun j => p (nth d s j)) (iota 0 (size s)) = count p s.
Proof. by rewrite -[in RHS](mkseq_nth d s) /mkseq count_map. Qed.

Lemma getitem2_grid (line : seq int) (i j : nat) :
  i < size line -> j < size line ->
  let grid := Circulant_index_grid line (Posz (size line)) in
  getitem2 grid (Posz i) (Posz j) = Ok (entry grid i j).
Proof.
move=> lt_i lt_j grid; rewrite /getitem2.
have gt0 : 0 < size line by apply: leq_ltn_trans lt_i.
rewrite (@getitem_nat _ [::]) ?size_Circulant_index_grid // bindE.
by rewrite (@getitem_nat _ 0%R) // Circulant_rowE // size_rotr.
Qed.

Lemma Circulant_positions_of_indexE (line : seq int) (k : int) :
  let M := size line in
  let grid := Circulant_index_grid line (Posz M) in
  Circulant_positions_of_index grid (Posz M) k
  = Ok (flatten
          [seq [seq (i, j) | j <- Py.range 0 (Posz M)
                           & entry grid (Py.to_nat i) (Py.to_nat j) == k]
          | i <- Py.range 0 (Posz M)]).
Proof.
move=> M grid; rewrite /Circulant_positions_of_index.
have nth_range m : m < M -> nth 0%R (Py.range 0 (Posz M)) m = Posz m.
  by move=> lt_m; rewrite range0_nat (nth_map 0) ?size_iota // nth_iota.
have sz_range : size (Py.range 0 (Posz M)) = M.
  by rewrite range0_nat size_map size_iota.
rewrite (@mapM_nth _ _ _
          (fun i => [seq (i, j) | j <- Py.range 0 (Posz M)
                     & entry grid (Py.to_nat i) (Py.to_nat j) == k]) 0%R) //.
move=> i; rewrite sz_range => lt_i; rewrite nth_range //.
rewrite (@mapM_nth _ _ _
          (fun j => (j, entry grid i (Py.to_nat j) == k)) 0%R) /=.
  by move=> j; rewrite sz_range => lt_j; rewrite nth_range // getitem2_grid.
by rewrite filter_map -map_comp.
Qed.

(** X3.  [_positions_of_index(k)] of a circulant matrix of [M] blocks
    never raises: it lists, without repetition, exactly the positions
    [(i, j)] with [0 <= i, j < M] at which the index grid holds [k]. *)
Theorem Circulant_positions_of_index_spec (c : class) (row : seq ndarray)
    (kw : kwargs) (A : matrix) (k : int) :
  c <> Toeplitz -> construct c [:: row] kw = Ok A ->
  let M := Py.to_nat (nb_blocks A).1 in
  exists ps grid,
    [/\ _positions_of_index A k = Ok ps,
        _index_grid A = Ok grid,
        uniq ps
      & forall i j : int,
          ((i, j) \in ps)
          = [&& (0 <= i < Posz M)%R, (0 <= j < Posz M)%R
              & entry grid (Py.to_nat i) (Py.to_nat j) == k]].
Proof.
move=> notT cons; have [clsA _ _ bl nb] := circulant_constructP notT cons.
have notTA : __class__ A <> Toeplitz by rewrite clsA.
have grid_ok := index_grid_of_baseline notTA bl.
have -> : _positions_of_index A k
          = (grid <- _index_grid A ;;
             Circulant_positions_of_index grid (nb_blocks A).1 k).
  by case: (A) notTA.
rewrite grid_ok nb /= Circulant_positions_of_indexE.
eexists; eexists; split; [by [] | by [] | |].
  apply: uniq_flatten_pairs; first exact: uniq_range0.
  by move=> i; apply: filter_uniq; exact: uniq_range0.
move=> i j; rewrite mem_flatten_pairs mem_filter !mem_range0.
by congr (_ && _); rewrite andbC.
Qed.

Lemma Circulant_positions_of_index_spec_witness :
  let A := OddBlockSymmetricCirculantMatrix (sample_store 3) 5 in
  exists ps grid,
    [/\ _positions_of_index A (Posz 2) = Ok ps,
        _index_grid A = Ok grid,
        uniq ps
      & forall i j : int,
          ((i, j) \in ps)
          = [&& (0 <= i < Posz 5)%R, (0 <= j < Posz 5)%R
              & entry grid (Py.to_nat i) (Py.to_nat j) == Posz 2]].
Proof.
apply: (@Circulant_positions_of_index_spec OddCirculant (row_of 3) no_kwargs);
  first by [].
by rewrite /construct /Odd__init__ sample_init.
Defined.

Lemma sumn_const (U : Type) (m : nat) (s : seq U) :
  sumn [seq m | _ <- s] = size s * m.
Proof. by elim: s => //= _ s ->; rewrite mulSn. Qed.

Lemma count_ascending (a : nat) (k : int) :
  count_mem k (ascending a) = (0 <= k < Posz a)%R :> nat.
Proof.
by rewrite /ascending -range0_nat count_uniq_mem ?uniq_range0 // mem_range0.
Qed.

Lemma count_descending (h : nat) (k : int) :
  count_mem k (descending h h) = (0 < k <= Posz h)%R :> nat.
Proof.
have inj_Posz : injective Posz by move=> x y [].
rewrite -rev_iota1 count_uniq_mem.
  by rewrite map_inj_uniq // rev_uniq iota_uniq.
congr nat_of_bool; case: k => [k|k].
  by rewrite mem_map // mem_rev mem_iota add1n ltnS.
by apply/negbTE/mapP => -[x _].
Qed.

(** X4.  In a circulant matrix of [M] blocks built on [N_s] stored blocks,
    every row of the index grid holds the stored index [k] as often as
    the baseline grid does, so [_positions_of_index(k)] has [M] positions
    for the block [0] (and, in the even variant, for the last stored
    block), [2 * M] positions for the other stored blocks, and none for
    an integer that is no stored index. *)
Theorem Circulant_positions_of_index_count (c : class) (row : seq ndarray)
    (kw : kwargs) (A : matrix) (k : int) :
  c <> Toeplitz -> construct c [:: row] kw = Ok A ->
  let n := size row in
  let a := if c is EvenCirculant then n - 1 else n in
  let M := Py.to_nat (nb_blocks A).1 in
  exists ps,
    [/\ M = a + (n - 1),
        _positions_of_index A k = Ok ps
      & size ps = M * ((0 <= k < Posz a)%R + (0 < k < Posz n)%R)].
Proof.
move=> notT cons n a; have [clsA _ gt0 bl nb] := circulant_constructP notT cons.
have notTA : __class__ A <> Toeplitz by rewrite clsA.
have grid_ok := index_grid_of_baseline notTA bl.
have -> : _positions_of_index A k
          = (grid <- _index_grid A ;;
             Circulant_positions_of_index grid (nb_blocks A).1 k).
  by case: (A) notTA.
rewrite grid_ok nb /= Circulant_positions_of_indexE.
set line := ascending _ ++ _; set M := size line.
eexists; split; [| by [] |].
  by rewrite /M size_cat size_ascending size_descending.
rewrite size_flatten_pairs.
have -> : [seq size [seq j <- Py.range 0 (Posz M)
                    | entry (Circulant_index_grid line (Posz M))
                        (Py.to_nat i) (Py.to_nat j) == k]
          | i <- Py.range 0 (Posz M)]
        = [seq count_mem k line | _ <- Py.range 0 (Posz M)].
  apply/eq_in_map => i; rewrite mem_range0; case: i => // i /=.
  rewrite ltz_nat => lt_i.
  rewrite size_filter range0_nat count_map /entry Circulant_rowE //.
  rewrite -[M](size_rotr i line).
  rewrite (@count_nth_iota _ 0%R (pred1 k) (rotr i line)).
  by apply/permP; rewrite perm_rotr.
rewrite sumn_const range0_nat size_map size_iota; congr (_ * _).
rewrite count_cat count_ascending count_descending; congr (_ + _).
congr nat_of_bool; case: (k) => [k'|k'] //.
by rewrite !ltz_nat lez_nat /n; case: (k') => [|k''] //=; slia.
Qed.

Lemma Circulant_positions_of_index_count_witness :
  let A := EvenBlockSymmetricCirculantMatrix (sample_store 3) 4 in
  exists ps,
    [/\ 4 = 2 + 2, _positions_of_index A (Posz 1) = Ok ps & size ps = 4 * 2].
Proof.
move=> A.
apply: (@Circulant_positions_of_index_count EvenCirculant (row_of 3)
          no_kwargs A (Posz 1)); first by [].
by rewrite /construct /Even__init__ sample_init.
Defined.

(** ** The blocks of a constructed matrix *)

Lemma dtype_eqb_eq (a b : dtype) : dtype_eqb a b -> a = b.
Proof. by case: a; case: b. Qed.

(** [np.array] leaves blocks of one dtype as they are. *)
Lemma promote_common (d : dtype) (row : seq ndarray) (k : nat) :
  row_of_dtype d row -> k < size row ->
  promote (common_dtype row) (nth unit_block row k) = nth unit_block row k.
Proof.
move=> dt lt_k.
have gt0 : 0 < size row by apply: leq_ltn_trans lt_k.
rewrite (common_dtype_uniform gt0 dt).
move/(all_nthP unit_block)/(_ k lt_k): dt => /dtype_eqb_eq <-.
exact: promote_id.
Qed.

Lemma map_promote_common (d : dtype) (row : seq ndarray) :
  row_of_dtype d row -> map (promote (common_dtype row)) row = row.
Proof.
move=> dt; apply: (@eq_from_nth _ unit_block); first by rewrite size_map.
move=> k; rewrite size_map => lt_k; rewrite (nth_map unit_block) //.
exact: promote_common dt lt_k.
Qed.

(** The blocks that an index grid takes from a row are the blocks of the
    row when every index of the row occurs in the grid. *)
Lemma has_rows (p : pred ndarray) (row : seq ndarray)
    (grid : seq (seq int)) :
  all (all (fun z => (0 <= z < Posz (size row))%R)) grid ->
  (forall k, k < size row -> has (fun zs => Posz k \in zs) grid) ->
  has p (flatten [seq [seq nth unit_block row (Py.to_nat z) | z <- zs]
                 | zs <- grid])
  = has p row.
Proof.
move=> in_range covers; rewrite has_flatten_seq has_map.
apply/idP/idP.
  case/hasP => zs zs_in /=; rewrite has_map => /hasP [z z_in /= pz].
  have /allP/(_ zs zs_in)/allP/(_ z z_in) := in_range.
  case: z pz {z_in} => // k pz; rewrite /= ltz_nat => lt_k.
  by apply/(has_nthP unit_block); exists k.
case/(has_nthP unit_block) => k lt_k pk.
case/hasP: (covers k lt_k) => zs zs_in k_in.
apply/hasP; exists zs => //=; rewrite has_map.
by apply/hasP; exists (Posz k).
Qed.

Lemma rows_common (row : seq ndarray) (grid : seq (seq int)) :
  all (all (fun z => (0 <= z < Posz (size row))%R)) grid ->
  (forall k, k < size row -> has (fun zs => Posz k \in zs) grid) ->
  common_dtype
    (flatten [seq [seq nth unit_block row (Py.to_nat z) | z <- zs]
             | zs <- grid])
  = common_dtype row.
Proof.
by move=> in_range covers; rewrite !common_dtypeE (has_rows _ in_range covers).
Qed.

Lemma square_grid_has_entries (n : nat) (grid : seq (seq int)) :
  0 < n -> square_grid n grid -> 0 < size (flatten grid).
Proof.
move=> gt0 /andP [/eqP sz /(all_nthP [::]) rows].
case: grid sz rows => [|zs g] /= sz rows; first by rewrite -sz in gt0.
by rewrite size_cat addn_gt0 (eqP (rows 0 isT)) gt0.
Qed.

Lemma dist_sym (i j : nat) : dist i j = dist j i.
Proof. by rewrite /dist; case: (ltngtP i j) => // ->. Qed.

Lemma Toeplitz_nb_blocks (row : seq ndarray) (kw : kwargs) (A : matrix) :
  Toeplitz__init__ [:: row] kw = Ok A ->
  nb_blocks A = (Posz (size row), Posz (size row)) /\ 0 < size row.
Proof.
case/Toeplitz__init__P => b /BlockMatrix__init__P [_ nb gt0 _] -> /=.
by rewrite nb.
Qed.

Lemma Toeplitz_first_block_line (row : seq ndarray) (kw : kwargs)
    (A : matrix) :
  Toeplitz__init__ [:: row] kw = Ok A -> first_block_line A = Ok row.
Proof.
by case/Toeplitz__init__P => b ini ->; rewrite /= (stored_row_init ini).
Qed.

(** The first block line of a circulant matrix: the stored blocks, read
    at the distance to the nearer end of the period. *)
Lemma Circulant_first_block_line (c : class) (row : seq ndarray)
    (kw : kwargs) (A : matrix) :
  c <> Toeplitz -> construct c [:: row] kw = Ok A ->
  let M := Py.to_nat (nb_blocks A).1 in
  exists line,
    [/\ first_block_line A = Ok line, size line = M
      & forall k, k < M ->
          fold_index M k < size row
          /\ nth unit_block line k = nth unit_block row (fold_index M k)].
Proof.
move=> notT cons; have [clsA row_A gt0 bl nb] := circulant_constructP notT cons.
have notTA : __class__ A <> Toeplitz by rewrite clsA.
rewrite nb /=.
set line0 := ascending _ ++ _ in bl *; set M := size line0.
have fold k : k < M ->
    nth 0%R line0 k = Posz (fold_index M k) /\ fold_index M k < size row.
  exact: (circulant_line_fold notT gt0).
exists [seq nth unit_block row (Py.to_nat z) | z <- line0]; split.
- have -> : first_block_line A
            = (line <- _baseline_grid A ;;
               take_indices (stored_row (base A)) line).
    by case: (A) notTA.
  rewrite bl row_A /=; apply: take_indices_ok.
  apply/(all_nthP 0%R) => k lt_k; have [-> lt_f] := fold k lt_k.
  by rewrite /= ltz_nat.
- by rewrite size_map.
move=> k lt_k; have [eq_k lt_f] := fold k lt_k; split=> //.
by rewrite (nth_map 0%R) // eq_k.
Qed.

(** What [all_blocks] hands to [np.array] in a constructed matrix with
    blocks: the rows of stored blocks that the index grid selects.  The
    grid is square, holds the stored index of each position, and every
    stored index occurs in it. *)
Lemma construct_rows (c : class) (row : seq ndarray) (kw : kwargs)
    (A : matrix) :
  construct c [:: row] kw = Ok A ->
  let n := Py.to_nat (nb_blocks A).1 in
  0 < n ->
  exists grid,
    [/\ _index_grid A = Ok grid /\ square_grid n grid,
        all (all (fun z => (0 <= z < Posz (size row))%R)) grid,
        forall k, k < size row -> has (fun zs => Posz k \in zs) grid,
        forall i j, i < n -> j < n ->
          entry grid i j = Posz (stored_index c n i j)
      & all_blocks A
        = array_of_blocks
            [seq [seq nth unit_block row (Py.to_nat z) | z <- zs]
            | zs <- grid]].
Proof.
have [-> | notT] : c = Toeplitz \/ c <> Toeplitz by case: c; [left|right|right].
  move=> cons; have [nb gt0] := Toeplitz_nb_blocks cons.
  have [_ grid_ok] := Toeplitz_positions_of_indexE 0%R cons.
  have line_ok := Toeplitz_first_block_line cons.
  rewrite nb /= => _; set n := size row in grid_ok *.
  have [sizes entries] := Toeplitz_index_grid_sizes n.
  have has_entries : 0 < size (flatten (Toeplitz_index_grid (Posz n))).
    by rewrite entries muln_gt0 gt0.
  case/andP: (Toeplitz_square n) => /eqP sz_grid /(all_nthP [::]) sz_rows.
  have sz0 : size (nth [::] (Toeplitz_index_grid (Posz n)) 0) = n.
    by apply/eqP/sz_rows; rewrite sz_grid.
  exists (Toeplitz_index_grid (Posz n)); split.
  - by split=> //; exact: Toeplitz_square.
  - exact: Toeplitz_index_grid_in_range.
  - move=> k lt_k; apply/hasP.
    exists (nth [::] (Toeplitz_index_grid (Posz n)) 0).
      by rewrite mem_nth // sz_grid.
    have <- : entry (Toeplitz_index_grid (Posz n)) 0 k = Posz k.
      by rewrite Toeplitz_entry // sub0r normrN -abszE.
    by rewrite /entry mem_nth // sz0.
  - by move=> i j lt_i lt_j; rewrite Toeplitz_entry // abs_dist.
  exact: all_blocks_rows grid_ok line_ok has_entries
           (Toeplitz_index_grid_in_range _).
move=> cons.
have := Circulant_first_block_line notT cons.
have [clsA row_A gt0 bl nb] := circulant_constructP notT cons.
have notTA : __class__ A <> Toeplitz by rewrite clsA.
have := index_grid_of_baseline notTA bl; rewrite nb /=.
set line0 := ascending _ ++ _ in bl nb *; set M := size line0.
move=> grid_ok [line [line_ok sz_line foldl]] M_gt0.
have fold k : k < M ->
    nth 0%R line0 k = Posz (fold_index M k) /\ fold_index M k < size row.
  exact: (circulant_line_fold notT gt0).
set grid := Circulant_index_grid line0 (Posz M) in grid_ok *.
have sz_grid : size grid = M by exact: size_Circulant_index_grid.
have entryE i j : i < M -> j < M ->
    nth 0%R (rotr i line0) j = Posz (fold_index M (dist i j)).
  move=> lt_i lt_j; rewrite -Circulant_rowE // -/(entry _ i j).
  by rewrite Circulant_entry_fold // => k lt_k; have [] := fold k lt_k.
have lt_fold i j : i < M -> j < M -> fold_index M (dist i j) < M.
  by move=> lt_i lt_j; apply: leq_ltn_trans (fold_index_le _) _; rewrite dist_lt.
have square : square_grid M grid by exact: Circulant_square.
have in_line : all (all (fun z => (0 <= z < Posz (size line))%R)) grid.
  rewrite sz_line; apply/(all_nthP [::]) => i; rewrite sz_grid => lt_i.
  apply/(all_nthP 0%R) => j; rewrite Circulant_rowE // size_rotr => lt_j.
  by rewrite entryE //= ltz_nat lt_fold.
have in_row : all (all (fun z => (0 <= z < Posz (size row))%R)) grid.
  apply/(all_nthP [::]) => i; rewrite sz_grid => lt_i.
  apply/(all_nthP 0%R) => j; rewrite Circulant_rowE // size_rotr => lt_j.
  rewrite entryE //= ltz_nat.
  by have [_] := fold _ (dist_lt lt_i lt_j).
have rowsE :
    [seq [seq nth unit_block line (Py.to_nat z) | z <- zs] | zs <- grid]
    = [seq [seq nth unit_block row (Py.to_nat z) | z <- zs] | zs <- grid].
  apply: (@eq_from_nth _ [::]); first by rewrite !size_map.
  move=> i; rewrite size_map sz_grid => lt_i.
  rewrite !(nth_map [::]) ?sz_grid // Circulant_rowE //.
  apply: (@eq_from_nth _ unit_block); first by rewrite !size_map.
  move=> j; rewrite size_map size_rotr => lt_j.
  rewrite !(nth_map 0%R) ?size_rotr // entryE // [Py.to_nat _]/=.
  have [_ ->] := foldl _ (lt_fold i j lt_i lt_j).
  by rewrite fold_index_idem // dist_lt.
exists grid; split=> //.
- move=> k lt_k.
  have sz_M : M = (if c is EvenCirculant then size row - 1 else size row)
                  + (size row - 1).
    by rewrite /M size_cat size_ascending size_descending.
  have lt_kM : k < M by move: M_gt0; rewrite sz_M; case: (c); slia.
  have fold_k : fold_index M k = k.
    by rewrite /fold_index sz_M; case: (c) => /=; case: ifP => ?; slia.
  apply/hasP; exists (nth [::] grid 0); first by rewrite mem_nth // sz_grid.
  rewrite Circulant_rowE // /rotr subn0 rot_size.
  have [eq_k _] := fold k lt_kM.
  by rewrite -[Posz k]/(Posz k) -{1}fold_k -eq_k mem_nth.
- move=> i j lt_i lt_j; rewrite /entry Circulant_rowE // entryE //.
  by case: (c) notT.
by rewrite (all_blocks_rows grid_ok line_ok
              (square_grid_has_entries M_gt0 square) in_line) rowsE.
Qed.

(** The blocks of [all_blocks], when the stored blocks have one shape:
    the stored blocks, taken at the stored index of their position and
    cast to the common dtype of the stored row. *)
Lemma all_blocks_construct (c : class) (sh : seq nat) (row : seq ndarray)
    (kw : kwargs) (A : matrix) :
  all (fun b => shape b == sh) row ->
  construct c [:: row] kw = Ok A ->
  let n := Py.to_nat (nb_blocks A).1 in
  0 < n ->
  exists blocks,
    [/\ all_blocks A = Ok blocks,
        size blocks = n,
        forall i, i < n -> size (nth [::] blocks i) = n
      & forall i j, i < n -> j < n ->
          stored_index c n i j < size row
          /\ block_at blocks i j
             = promote (common_dtype row)
                 (nth unit_block row (stored_index c n i j))].
Proof.
move=> shapes cons n n_gt0.
have [grid [[_ /andP [/eqP sz_grid /(all_nthP [::]) sz_rows]] in_range covers
              entryE ->]] := construct_rows cons n_gt0.
set rows := [seq _ | zs <- grid].
have sz_row i : i < n -> size (nth [::] grid i) = n.
  by move=> lt_i; apply/eqP/sz_rows; rewrite sz_grid.
have sz_rws : size rows = n by rewrite size_map.
have nth_rws i : i < n ->
    nth [::] rows i
    = [seq nth unit_block row (Py.to_nat z) | z <- nth [::] grid i].
  by move=> lt_i; rewrite (nth_map [::]) ?sz_grid.
have sz_nth i : i < n -> size (nth [::] rows i) = n.
  by move=> lt_i; rewrite nth_rws // size_map sz_row.
have lt_idx i j : i < n -> j < n -> stored_index c n i j < size row.
  move=> lt_i lt_j; have lt_i' : i < size grid by rewrite sz_grid.
  have lt_j' : j < size (nth [::] grid i) by rewrite sz_row.
  have := all_nthP 0%R (all_nthP [::] in_range i lt_i') j lt_j'.
  by rewrite -/(entry grid i j) entryE //= ltz_nat.
have at_rws i j : i < n -> j < n ->
    nth unit_block (nth [::] rows i) j
    = nth unit_block row (stored_index c n i j).
  move=> lt_i lt_j; rewrite nth_rws // (nth_map 0%R) ?sz_row //.
  by rewrite -/(entry grid i j) entryE.
have sizes : all (fun r => size r == n) rows.
  by apply/(all_nthP [::]) => i; rewrite sz_rws => lt_i; rewrite sz_nth.
have shaped : all (all (fun x => shape x == sh)) rows.
  apply/(all_nthP [::]) => i; rewrite sz_rws => lt_i.
  apply/(all_nthP unit_block) => j; rewrite sz_nth // => lt_j.
  by rewrite at_rws //; apply: (all_nthP unit_block shapes); apply: lt_idx.
rewrite (array_of_blocks_ok sizes shaped) (rows_common in_range covers).
eexists; split; first by [].
- by rewrite size_map.
- by move=> i lt_i; rewrite (nth_map [::]) ?sz_rws // size_map sz_nth.
move=> i j lt_i lt_j; split; first exact: lt_idx.
rewrite /block_at (nth_map [::]) ?sz_rws // (nth_map unit_block) ?sz_nth //.
by rewrite at_rws.
Qed.

(** The same blocks when the stored row has one dtype: [np.array] then
    casts nothing. *)
Lemma all_blocks_uniform (c : class) (d : dtype) (r c' : nat)
    (row : seq ndarray) (kw : kwargs) (A : matrix) :
  row_of_dtype d row -> row_of_shape r c' row ->
  construct c [:: row] kw = Ok A ->
  let n := Py.to_nat (nb_blocks A).1 in
  0 < n ->
  exists blocks,
    [/\ all_blocks A = Ok blocks,
        size blocks = n,
        forall i, i < n -> size (nth [::] blocks i) = n
      & forall i j, i < n -> j < n ->
          stored_index c n i j < size row
          /\ block_at blocks i j = nth unit_block row (stored_index c n i j)].
Proof.
move=> dt shaped cons n n_gt0.
have [blocks [ok sz sz_rows at_ij]] :=
  all_blocks_construct (row_shapes shaped) cons n_gt0.
exists blocks; split=> // i j lt_i lt_j.
have [lt_k ->] := at_ij i j lt_i lt_j.
by rewrite (promote_common dt lt_k).
Qed.

Lemma Toeplitz_all_blocks (r c : nat) (row : seq ndarray) (kw : kwargs)
    (A : matrix) :
  row_of_shape r c row ->
  Toeplitz__init__ [:: row] kw = Ok A ->
  let n := size row in
  exists blocks,
    [/\ first_block_line A = Ok row,
        all_blocks A = Ok blocks /\ size blocks = n,
        forall i, i < n -> size (nth [::] blocks i) = n
      & forall i j, i < n -> j < n ->
          block_at blocks i j
          = promote (common_dtype row) (nth unit_block row (dist i j))].
Proof.
move=> shaped cons n; have [nb gt0] := Toeplitz_nb_blocks cons.
have cons' : construct Toeplitz [:: row] kw = Ok A by [].
have := all_blocks_construct (row_shapes shaped) cons'.
rewrite nb /= => /(_ gt0) [blocks [ok sz sz_rows at_ij]].
exists blocks; split=> //; first exact: Toeplitz_first_block_line cons.
by move=> i j lt_i lt_j; have [_] := at_ij i j lt_i lt_j.
Qed.

Lemma Circulant_all_blocks (c : class) (r c' : nat) (row : seq ndarray)
    (kw : kwargs) (A : matrix) :
  c <> Toeplitz -> row_of_shape r c' row -> construct c [:: row] kw = Ok A ->
  let M := Py.to_nat (nb_blocks A).1 in
  0 < M ->
  exists line blocks,
    [/\ first_block_line A = Ok line /\ size line = M,
        all_blocks A = Ok blocks /\ size blocks = M,
        forall i, i < M -> size (nth [::] blocks i) = M,
        forall k, k < M ->
          fold_index M k < size row
          /\ nth unit_block line k = nth unit_block row (fold_index M k)
      & forall i j, i < M -> j < M ->
          block_at blocks i j
          = promote (common_dtype row)
              (nth unit_block row (circulant_index M i j))].
Proof.
move=> notT shaped cons M M_gt0.
have [line [line_ok sz_line foldl]] := Circulant_first_block_line notT cons.
have [blocks [ok sz sz_rows at_ij]] :=
  all_blocks_construct (row_shapes shaped) cons M_gt0.
exists line, blocks; split=> // i j lt_i lt_j.
have [_ ->] := at_ij i j lt_i lt_j.
by have -> : stored_index c M i j = circulant_index M i j by case: (c) notT.
Qed.

Lemma construct_store (c : class) (r c' : nat) (row : seq ndarray)
    (chk : bool) (A : matrix) :
  row_of_shape r c' row -> construct c [:: row] (checked chk) = Ok A ->
  [/\ base A = store_of r c' row, 0 < size row & __class__ A = c].
Proof.
move=> shaped.
have store b : BlockMatrix__init__ [:: row] (checked chk) = Ok b ->
    b = store_of r c' row /\ 0 < size row.
  move=> ini; have [_ _ gt0 _] := BlockMatrix__init__P ini.
  by move: ini; rewrite (init_store_of chk gt0 shaped) => -[].
case: c => /=.
- by case/Toeplitz__init__P => b /store [-> gt0] ->.
- by case/Even__init__P => b /store [-> gt0] ->.
by case/Odd__init__P => b /store [-> gt0] ->.
Qed.

(** ** The shapes of the blocks *)

Lemma block_shapes_construct (cls : class) (r c : nat)
    (row : seq ndarray) (chk : bool) (A : matrix) :
  row_of_shape r c row -> construct cls [:: row] (checked chk) = Ok A ->
  exists m,
    nb_blocks A = (Posz m, Posz m)
    /\ block_shapes A = Ok (nseq m r, nseq m c).
Proof.
move=> shaped cons; have [baseA gt0 clsA] := construct_store shaped cons.
have nbA : exists m, nb_blocks A = (Posz m, Posz m)
                     /\ (cls = Toeplitz -> m = size row).
  case: (cls) cons => /=.
  - move=> cons; have [-> _] := Toeplitz_nb_blocks cons.
    by exists (size row).
  - by case/Even__init__P => b _ ->; eexists; split.
  by case/Odd__init__P => b _ ->; eexists; split.
case: nbA => m [nb m_row]; exists m; split=> //.
rewrite /block_shapes baseA nb /= /Py.repeat /=.
case: (A) clsA m_row => [b|b k|b k] /= <- => [-> //| _ | _].
  by case: (size row) gt0.
by case: (size row) gt0.
Qed.

(** X5.  For a matrix of any of the three classes built on blocks of
    shape [(r, c)], [block_shapes] returns one row count [r] and one
    column count [c] per block of [nb_blocks], [block_shape] is [(r, c)],
    and the two lists of [block_shapes] sum to the two components of
    [shape]. *)
Theorem block_shapes_sum_to_shape (cls : class) (r c : nat)
    (row : seq ndarray) (chk : bool) (A : matrix) :
  row_of_shape r c row -> construct cls [:: row] (checked chk) = Ok A ->
  let n := Py.to_nat (nb_blocks A).1 in
  exists rs cs,
    [/\ block_shapes A = Ok (rs, cs),
        rs = nseq n r /\ cs = nseq n c,
        nb_blocks A = (Posz (size rs), Posz (size cs)),
        block_shape A = (r, c)
      & shape_of A = (Posz (sumn rs), Posz (sumn cs))].
Proof.
move=> shaped cons; have [baseA gt0 _] := construct_store shaped cons.
have [m [nb ->]] := block_shapes_construct shaped cons.
rewrite nb /=; exists (nseq m r), (nseq m c); split=> //.
- by rewrite !size_nseq.
- by rewrite /block_shape baseA /= nth_nseq gt0.
by rewrite /shape_of baseA nb /= nth_nseq gt0 !sumn_nseq -!PoszM.
Qed.

Lemma block_shapes_sum_to_shape_witness :
  let A := EvenBlockSymmetricCirculantMatrix
             (store_of 1 2 [:: wide_block; wide_block; wide_block]) 4 in
  exists rs cs,
    [/\ block_shapes A = Ok (rs, cs),
        rs = nseq 4 1 /\ cs = nseq 4 2,
        nb_blocks A = (Posz (size rs), Posz (size cs)),
        block_shape A = (1, 2)
      & shape_of A = (Posz (sumn rs), Posz (sumn cs))].
Proof.
move=> A.
apply: (@block_shapes_sum_to_shape EvenCirculant 1 2
          [:: wide_block; wide_block; wide_block] true A); last by [].
by rewrite /row_of_shape /= /wf /= rpred1 rpred0.
Defined.

(** X6.  [all_blocks] of a constructed matrix with [n >= 1] blocks per
    side has [n] rows of [n] blocks, and the block at [(i, j)] has the
    shape that [block_shapes] announces for row [i] and column [j]. *)
Theorem all_blocks_shapes (cls : class) (r c : nat) (row : seq ndarray)
    (chk : bool) (A : matrix) :
  row_of_shape r c row -> construct cls [:: row] (checked chk) = Ok A ->
  let n := Py.to_nat (nb_blocks A).1 in
  0 < n ->
  exists blocks rs cs,
    [/\ all_blocks A = Ok blocks,
        block_shapes A = Ok (rs, cs),
        size blocks = n,
        forall i, i < n -> size (nth [::] blocks i) = n
      & forall i j, i < n -> j < n ->
          shape (block_at blocks i j) = [:: nth 0 rs i; nth 0 cs j]
          /\ wf (block_at blocks i j)].
Proof.
move=> shaped cons n n_gt0.
have [m [nb bs_ok]] := block_shapes_construct shaped cons.
have eq_m : n = m by rewrite /n nb.
have [blocks [ok sz sz_rows at_ij]] :=
  all_blocks_construct (row_shapes shaped) cons n_gt0.
exists blocks, (nseq m r), (nseq m c); split=> // i j lt_i lt_j.
have [lt_k ->] := at_ij i j lt_i lt_j.
have [sh _ wf_k] := row_of_shapeP shaped lt_k.
rewrite !nth_nseq -eq_m lt_i lt_j promote_shape; split=> //.
apply: wf_promote => // /common_dtype_real /(all_nthP unit_block) /(_ _ lt_k).
exact: dtype_eqb_eq.
Qed.

Lemma wide_row_shaped (n : nat) : row_of_shape 1 2 (nseq n wide_block).
Proof.
by rewrite /row_of_shape all_nseq /= /wf /= rpred1 rpred0 orbT.
Qed.

Lemma all_blocks_shapes_witness :
  let A := OddBlockSymmetricCirculantMatrix
             (store_of 1 2 (nseq 2 wide_block)) 3 in
  exists blocks rs cs,
    [/\ all_blocks A = Ok blocks,
        block_shapes A = Ok (rs, cs),
        size blocks = 3,
        forall i, i < 3 -> size (nth [::] blocks i) = 3
      & forall i j, i < 3 -> j < 3 ->
          shape (block_at blocks i j) = [:: nth 0 rs i; nth 0 cs j]
          /\ wf (block_at blocks i j)].
Proof.
move=> A.
apply: (@all_blocks_shapes OddCirculant 1 2 (nseq 2 wide_block) true A) => //.
exact: wide_row_shaped.
Defined.

(** ** The block structure of the full matrix *)

(** X7.  The blocks of a Toeplitz matrix built on blocks of one shape
    and of one dtype:
    the first row of [all_blocks] is [first_block_line], which is the
    stored row; the block at [(i, j)] is the stored block [|i - j|], so it
    depends only on the distance of [i] and [j] and the matrix of blocks
    is symmetric. *)
Theorem Toeplitz_all_blocks_law (d : dtype) (r c : nat) (row : seq ndarray)
    (kw : kwargs) (A : matrix) :
  row_of_dtype d row -> row_of_shape r c row ->
  Toeplitz__init__ [:: row] kw = Ok A ->
  let n := size row in
  exists blocks,
    [/\ all_blocks A = Ok blocks,
        first_block_line A = Ok row /\ nth [::] blocks 0 = row,
        forall i j, i < n -> j < n ->
          block_at blocks i j
          = nth unit_block row (Py.to_nat `|Posz i - Posz j|%R)
      & forall i j, i < n -> j < n ->
          block_at blocks i j = block_at blocks j i].
Proof.
move=> dt shaped cons n; have [_ n_gt0] := Toeplitz_nb_blocks cons.
have [blocks [line_ok [ok sz] sz_rows at_p]] :=
  Toeplitz_all_blocks shaped cons.
have at_ij i j : i < n -> j < n ->
    block_at blocks i j = nth unit_block row (dist i j).
  by move=> lt_i lt_j; rewrite at_p // (promote_common dt) // dist_lt.
exists blocks; split=> //.
- split=> //; apply: (@eq_from_nth _ unit_block); first exact: sz_rows.
  move=> j; rewrite sz_rows // => lt_j.
  by rewrite -/(block_at blocks 0 j) at_ij // /dist leq0n subn0.
- by move=> i j lt_i lt_j; rewrite to_nat_dist at_ij.
by move=> i j lt_i lt_j; rewrite !at_ij // dist_sym.
Qed.

Lemma Toeplitz_all_blocks_law_witness :
  let A := BlockSymmetricToeplitzMatrix (store_of 1 1 scenario_row) in
  exists blocks,
    [/\ all_blocks A = Ok blocks,
        first_block_line A = Ok scenario_row
        /\ nth [::] blocks 0 = scenario_row,
        forall i j, i < 3 -> j < 3 ->
          block_at blocks i j
          = nth unit_block scenario_row (Py.to_nat `|Posz i - Posz j|%R)
      & forall i j, i < 3 -> j < 3 ->
          block_at blocks i j = block_at blocks j i].
Proof.
move=> A.
apply: (@Toeplitz_all_blocks_law float64 1 1 scenario_row no_kwargs A) => //.
exact: scenario_row_shaped.
Defined.

(** X8.  The blocks of a circulant matrix of [M >= 1] blocks per side,
    built on blocks of one shape and of one dtype:
    [first_block_line] has [M] blocks, the one at position [k] being the
    stored block at the distance of [k] to the nearer end of the period;
    it is the first row of [all_blocks]; the block at [(i, j)] is the
    block of the first line at [(j - i) mod M], and the matrix of blocks
    is symmetric. *)
Theorem Circulant_all_blocks_law (c : class) (d : dtype) (r c' : nat)
    (row : seq ndarray) (kw : kwargs) (A : matrix) :
  row_of_dtype d row -> row_of_shape r c' row ->
  c <> Toeplitz -> construct c [:: row] kw = Ok A ->
  let M := Py.to_nat (nb_blocks A).1 in
  0 < M ->
  exists line blocks,
    [/\ first_block_line A = Ok line /\ size line = M,
        forall k, k < M ->
          nth unit_block line k = nth unit_block row (fold_index M k),
        all_blocks A = Ok blocks /\ nth [::] blocks 0 = line,
        forall i j, i < M -> j < M ->
          block_at blocks i j
          = nth unit_block line (Py.to_nat (cyclic_offset M i j))
      & forall i j, i < M -> j < M ->
          block_at blocks i j = block_at blocks j i].
Proof.
move=> dt shaped notT cons M M_gt0.
have [line [blocks [[line_ok sz_line] [ok sz] sz_rows fold at_p]]] :=
  Circulant_all_blocks notT shaped cons M_gt0.
have at_ij i j : i < M -> j < M ->
    block_at blocks i j = nth unit_block row (circulant_index M i j).
  move=> lt_i lt_j; rewrite at_p // (promote_common dt) //.
  by have [] := fold _ (dist_lt lt_i lt_j).
have dist0 j : dist 0 j = j by rewrite /dist leq0n subn0.
exists line, blocks; split=> //.
- by move=> k lt_k; have [] := fold k lt_k.
- split=> //; apply: (@eq_from_nth _ unit_block).
    by rewrite sz_rows // sz_line.
  move=> j; rewrite sz_rows // => lt_j.
  rewrite -/(block_at blocks 0 j) at_ij // /circulant_index dist0.
  by have [_ ->] := fold j lt_j.
- move=> i j lt_i lt_j; rewrite cyclic_offsetE //=.
  have lt_x : (j + M - i) %% M < M by rewrite ltn_pmod.
  have [_ ->] := fold _ lt_x.
  by rewrite at_ij // fold_cyclic_sub // /circulant_index dist_sym.
by move=> i j lt_i lt_j; rewrite !at_ij // /circulant_index dist_sym.
Qed.

Lemma Circulant_all_blocks_law_witness :
  let A := OddBlockSymmetricCirculantMatrix (store_of 1 1 scenario_row) 5 in
  exists line blocks,
    [/\ first_block_line A = Ok line /\ size line = 5,
        forall k, k < 5 ->
          nth unit_block line k
          = nth unit_block scenario_row (fold_index 5 k),
        all_blocks A = Ok blocks /\ nth [::] blocks 0 = line,
        forall i j, i < 5 -> j < 5 ->
          block_at blocks i j
          = nth unit_block line (Py.to_nat (cyclic_offset 5 i j))
      & forall i j, i < 5 -> j < 5 ->
          block_at blocks i j = block_at blocks j i].
Proof.
move=> A.
apply: (@Circulant_all_blocks_law OddCirculant float64 1 1 scenario_row
          no_kwargs A) => //.
exact: scenario_row_shaped.
Defined.

(** ** The index grid as a table of stored indices *)

(** X9.  The index grid of a constructed matrix with [n] blocks per
    side has [max(1, n)] rows of [n] entries; every entry at a position
    [(i, j)] of the matrix is a valid index of the stored row, and the
    diagonal holds the stored index [0]. *)
Theorem index_grid_in_stored_row (c : class) (row : seq ndarray)
    (kw : kwargs) (A : matrix) :
  construct c [:: row] kw = Ok A ->
  let n := Py.to_nat (nb_blocks A).1 in
  exists grid,
    [/\ _index_grid A = Ok grid,
        size grid = maxn 1 n,
        all (fun line => size line == n) grid
      & forall i j, i < n -> j < n ->
          [/\ i < size grid, j < size (nth [::] grid i),
              (0 <= entry grid i j < Posz (size row))%R
            & entry grid i i = 0%R]].
Proof.
have [-> | notT] : c = Toeplitz \/ c <> Toeplitz by case: c; [left|right|right].
  move=> cons; have [nb gt0] := Toeplitz_nb_blocks cons.
  have [_ ->] := Toeplitz_positions_of_indexE 0%R cons.
  rewrite nb /=; eexists; split; first by [].
  - case/andP: (Toeplitz_square (size row)) => /eqP -> _.
    by rewrite /maxn; case: ifP => ?; slia.
  - by case/andP: (Toeplitz_square (size row)).
  case/andP: (Toeplitz_square (size row)) => /eqP sz /(all_nthP [::]) rows.
  move=> i j lt_i lt_j; have lt_i' := lt_i; rewrite -sz in lt_i'.
  rewrite (eqP (rows i lt_i')) sz; split=> //.
    by rewrite !Toeplitz_entry // !abs_dist /= ltz_nat dist_lt.
  by rewrite !Toeplitz_entry // !abs_dist /dist leqnn subnn.
move=> cons; have [clsA _ gt0 bl nb] := circulant_constructP notT cons.
have notTA : __class__ A <> Toeplitz by rewrite clsA.
rewrite (index_grid_of_baseline notTA bl) nb /=.
set line0 := ascending _ ++ _; set M := size line0.
have fold k : k < M ->
    nth 0%R line0 k = Posz (fold_index M k) /\ fold_index M k < size row.
  exact: (circulant_line_fold notT gt0).
have [sz_grid sz_rows] := Circulant_index_grid_sizes line0.
eexists; split; first by [].
- exact: sz_grid.
- exact: sz_rows.
move=> i j lt_i lt_j.
have lt_i' : i < size (Circulant_index_grid line0 (Posz M)).
  by rewrite sz_grid /maxn; case: ifP => ?; slia.
rewrite (eqP (all_nthP [::] sz_rows i lt_i')); split=> //.
  rewrite !Circulant_entry_fold //; try by move=> k lt_k; have [] := fold k lt_k.
  by rewrite /= ltz_nat; have [_] := fold _ (@dist_lt M i j lt_i lt_j).
rewrite !Circulant_entry_fold //; try by move=> k lt_k; have [] := fold k lt_k.
by rewrite leqnn subnn /fold_index.
Qed.

Lemma index_grid_in_stored_row_witness :
  let A := EvenBlockSymmetricCirculantMatrix (sample_store 3) 4 in
  exists grid,
    [/\ _index_grid A = Ok grid,
        size grid = maxn 1 4,
        all (fun line => size line == 4) grid
      & forall i j, i < 4 -> j < 4 ->
          [/\ i < size grid, j < size (nth [::] grid i),
              (0 <= entry grid i j < Posz 3)%R
            & entry grid i i = 0%R]].
Proof.
move=> A.
apply: (@index_grid_in_stored_row EvenCirculant (row_of 3) no_kwargs A).
by rewrite /construct /Even__init__ sample_init.
Defined.

(** X10.  The index grid of a circulant matrix always has a first row,
    the baseline grid: it has [max(1, M)] rows of [M] entries.  So the
    even variant built on a single stored block, for which [M = 0], has a
    grid of one empty row, [np.array([[]])], which is an array of floats:
    [all_blocks] raises [IndexError] when it indexes the block line with
    this row. *)
Theorem circulant_index_grid_rows (c : class) (row : seq ndarray)
    (kw : kwargs) (A : matrix) :
  c <> Toeplitz -> construct c [:: row] kw = Ok A ->
  let M := Py.to_nat (nb_blocks A).1 in
  exists grid,
    [/\ _index_grid A = Ok grid,
        size grid = maxn 1 M,
        all (fun line => size line == M) grid
      & M = 0 -> grid = [:: [::]] /\ all_blocks A = Raise IndexError].
Proof.
move=> notT cons; have [clsA row_A gt0 bl nb] := circulant_constructP notT cons.
have notTA : __class__ A <> Toeplitz by rewrite clsA.
have grid_ok := index_grid_of_baseline notTA bl.
rewrite /all_blocks grid_ok nb /=.
have -> : first_block_line A
          = (line <- _baseline_grid A ;;
             take_indices (stored_row (base A)) line).
  by case: (A) notTA.
rewrite bl /=.
set line0 := ascending _ ++ _; set M := size line0.
have [sz_grid sz_rows] := Circulant_index_grid_sizes line0.
eexists; split; first by [].
- exact: sz_grid.
- exact: sz_rows.
by move=> M0; have eq0 := size0nil M0; rewrite /M eq0.
Qed.

Lemma circulant_index_grid_rows_witness :
  let A := EvenBlockSymmetricCirculantMatrix (sample_store 1) 0 in
  exists grid,
    [/\ _index_grid A = Ok grid,
        size grid = maxn 1 0,
        all (fun line => size line == 0) grid
      & 0 = 0 -> grid = [:: [::]] /\ all_blocks A = Raise IndexError].
Proof.
move=> A.
apply: (@circulant_index_grid_rows EvenCirculant (row_of 1) no_kwargs A).
  by [].
by rewrite /construct /Even__init__ sample_init.
Defined.

(** ** The even embedding, block by block *)

Lemma init_unchecked (row : seq ndarray)
    (shapes : seq nat * seq nat) :
  0 < size row ->
  BlockMatrix__init__ [:: row] (Kwargs (Some shapes) false)
  = Ok (mkBlockMatrix [:: row] (1%R, Posz (size row)) shapes).
Proof. by case: row. Qed.

Lemma circulant_index_leading (n i j : nat) :
  1 < n -> i < n -> j < n -> circulant_index ((n - 1) * 2) i j = dist i j.
Proof.
move=> gt1 lt_i lt_j; rewrite /circulant_index /fold_index.
by have := dist_lt lt_i lt_j; move: (dist i j) => d lt_d; case: ifP => ?; slia.
Qed.

(** X11.  The even circulant matrix that the Toeplitz [__matmul__] builds
    on the stored blocks of a Toeplitz matrix of [N >= 2] blocks of one
    shape has [2 * (N - 1)] blocks per side, and its leading [N x N]
    blocks are the blocks of the Toeplitz matrix. *)
Theorem embedding_leading_blocks (r c : nat) (row : seq ndarray)
    (kw : kwargs) (A : matrix) :
  row_of_shape r c row ->
  1 < size row -> Toeplitz__init__ [:: row] kw = Ok A ->
  exists E bA bE,
    [/\ Even__init__ (_stored_blocks (base A))
          (Kwargs (Some (_stored_block_shapes (base A))) false) = Ok E,
        nb_blocks E
        = ((2 * (Posz (size row) - 1))%R, (2 * (Posz (size row) - 1))%R),
        all_blocks A = Ok bA,
        all_blocks E = Ok bE
      & forall i j, i < size row -> j < size row ->
          block_at bE i j = block_at bA i j].
Proof.
move=> shaped gt1 cons; have gt0 : 0 < size row by exact: ltnW.
have [bA [_ [okA _] _ atA]] := Toeplitz_all_blocks shaped cons.
case/Toeplitz__init__P: cons => b /BlockMatrix__init__P [stored _ _ _] eqA.
set kwE := Kwargs _ _.
have [E consE] : exists E, Even__init__ (_stored_blocks (base A)) kwE = Ok E.
  by rewrite eqA /= stored /Even__init__ /kwE init_unchecked //=; eexists.
have consE' : construct EvenCirculant [:: row] kwE = Ok E.
  by move: consE; rewrite eqA /= stored.
have notT : EvenCirculant <> Toeplitz by [].
have [_ _ _ _ nbE] := circulant_constructP notT consE'.
move: nbE; rewrite size_even_baseline => nbE.
have M_gt0 : 0 < Py.to_nat (nb_blocks E).1 by rewrite nbE /=; slia.
have [_ [bE [_ [okE _] _ _ atE]]] :=
  Circulant_all_blocks notT shaped consE' M_gt0.
exists E, bA, bE; split=> //.
  by rewrite nbE PoszM mulrC subzn.
move=> i j lt_i lt_j; rewrite atA // atE; try by rewrite nbE /=; slia.
by rewrite nbE /= circulant_index_leading.
Qed.

Lemma embedding_leading_blocks_witness :
  let A := BlockSymmetricToeplitzMatrix (store_of 1 1 scenario_row) in
  exists E bA bE,
    [/\ Even__init__ (_stored_blocks (base A))
          (Kwargs (Some (_stored_block_shapes (base A))) false) = Ok E,
        nb_blocks E = ((2 * (Posz 3 - 1))%R, (2 * (Posz 3 - 1))%R),
        all_blocks A = Ok bA,
        all_blocks E = Ok bE
      & forall i j, i < 3 -> j < 3 -> block_at bE i j = block_at bA i j].
Proof.
move=> A.
apply: (@embedding_leading_blocks 1 1 scenario_row no_kwargs A) => //.
exact: scenario_row_shaped.
Defined.

(** ** Transposition in the three classes *)

Lemma constructE (c : class) (blocks : seq (seq ndarray)) (kw : kwargs) :
  construct c blocks kw
  = (b <- BlockMatrix__init__ blocks kw ;; Ok (instance_of c b)).
Proof. by case: c. Qed.

Lemma construct_checked (c : class) (r c' : nat) (row : seq ndarray)
    (chk : bool) :
  0 < size row -> row_of_shape r c' row ->
  construct c [:: row] (checked chk) = Ok (instance_of c (store_of r c' row)).
Proof. by move=> gt0 shaped; rewrite constructE (init_store_of chk gt0 shaped). Qed.

(** The transpose of a matrix built on blocks of one dtype: [np.array]
    casts nothing, and the stored row is the row of the transposed
    blocks. *)
Lemma T_uniform (cls : class) (d : dtype) (r c : nat) (row : seq ndarray) :
  row_of_dtype d row -> row_of_shape r c row -> 0 < size row ->
  exists trow,
    [/\ T (instance_of cls (store_of r c row))
        = Ok (instance_of cls (store_of c r trow)),
        T (instance_of cls (store_of c r trow))
        = Ok (instance_of cls (store_of r c row)),
        row_of_shape c r trow /\ row_of_dtype d trow,
        size trow = size row
      & forall k, k < size row ->
          Np.T (nth unit_block row k) = Ok (nth unit_block trow k)].
Proof.
move=> dt shaped gt0.
have [trow [mapT mapT' shaped' sz tr_k]] := transposed_row shaped.
have gt0' : 0 < size trow by rewrite sz.
have dt' : row_of_dtype d trow.
  apply/(all_nthP unit_block) => k; rewrite sz => lt_k.
  have [_ ->] := tr_k k lt_k.
  by move/(all_nthP unit_block)/(_ k lt_k): dt.
have row_of k a b s : stored_row (base (instance_of k (store_of a b s))) = s.
  by case: k.
have cls_of k b : __class__ (instance_of k b) = k by case: k.
exists trow; split=> //.
- rewrite /T row_of mapT bindE (array_of_row shaped') bindE cls_of.
  by rewrite (map_promote_common dt') (@construct_checked _ c r _ true).
- rewrite /T row_of mapT' bindE (array_of_row shaped) bindE cls_of.
  by rewrite (map_promote_common dt) (@construct_checked _ r c _ true).
by move=> k lt_k; have [] := tr_k k lt_k.
Qed.

Lemma shape_of_instance (c : class) (r c' : nat) (row : seq ndarray) :
  0 < size row ->
  let A := instance_of c (store_of r c' row) in
  shape_of A = ((Posz r * (nb_blocks A).1)%R, (Posz c' * (nb_blocks A).2)%R).
Proof. by move=> gt0; case: c => /=; rewrite /shape_of /= nth_nseq gt0. Qed.

Lemma nb_blocks_instance (c : class) (r1 c1 r2 c2 : nat)
    (row1 row2 : seq ndarray) :
  size row1 = size row2 ->
  nb_blocks (instance_of c (store_of r1 c1 row1))
  = nb_blocks (instance_of c (store_of r2 c2 row2)).
Proof. by move=> sz; case: c => /=; rewrite sz. Qed.

(** X12.  In each of the three classes the transpose of a matrix built on
    blocks of shape [(r, c)] and of one dtype is a matrix of the same class with the same
    number of blocks and the two components of [shape] exchanged, and the
    transpose of the transpose is the matrix itself. *)
Theorem T_involutive (cls : class) (d : dtype) (r c : nat)
    (row : seq ndarray) (chk : bool) (A : matrix) :
  row_of_dtype d row ->
  row_of_shape r c row -> construct cls [:: row] (checked chk) = Ok A ->
  exists A',
    [/\ T A = Ok A',
        T A' = Ok A,
        __class__ A' = cls,
        nb_blocks A' = nb_blocks A
      & shape_of A' = ((shape_of A).2, (shape_of A).1)].
Proof.
move=> dt shaped cons; have [_ gt0 _] := construct_store shaped cons.
move: cons; rewrite (construct_checked _ _ gt0 shaped) => -[<-].
have [trow [T_ok T_back [shaped' _] sz _]] := T_uniform cls dt shaped gt0.
have gt0' : 0 < size trow by rewrite sz.
exists (instance_of cls (store_of c r trow)); split=> //.
- by case: (cls).
- exact: nb_blocks_instance.
rewrite !shape_of_instance //=.
by rewrite (@nb_blocks_instance cls c r r c trow row sz); case: (cls).
Qed.

Lemma T_involutive_witness :
  let A := EvenBlockSymmetricCirculantMatrix
             (store_of 1 2 (nseq 2 wide_block)) 2 in
  exists A',
    [/\ T A = Ok A',
        T A' = Ok A,
        __class__ A' = EvenCirculant,
        nb_blocks A' = nb_blocks A
      & shape_of A' = ((shape_of A).2, (shape_of A).1)].
Proof.
move=> A.
apply: (@T_involutive EvenCirculant float64 1 2 (nseq 2 wide_block) true A)
  => //.
exact: wide_row_shaped.
Defined.

Lemma stored_index_sym (c : class) (n i j : nat) :
  stored_index c n i j = stored_index c n j i.
Proof. by case: c; rewrite /= /circulant_index dist_sym. Qed.

(** X13.  For blocks of one dtype, the transpose is the transpose of the
    block matrix: block
    [(i, j)] of [all_blocks] of the transpose is the numpy transpose of
    block [(j, i)] of [all_blocks] of the matrix. *)
Theorem T_all_blocks (cls : class) (d : dtype) (r c : nat)
    (row : seq ndarray) (chk : bool) (A : matrix) :
  row_of_dtype d row ->
  row_of_shape r c row -> construct cls [:: row] (checked chk) = Ok A ->
  let n := Py.to_nat (nb_blocks A).1 in
  0 < n ->
  exists A' blocks blocks',
    [/\ T A = Ok A',
        all_blocks A = Ok blocks,
        all_blocks A' = Ok blocks'
      & forall i j, i < n -> j < n ->
          Np.T (block_at blocks j i) = Ok (block_at blocks' i j)].
Proof.
move=> dt shaped cons n n_gt0; have [_ gt0 _] := construct_store shaped cons.
have [blocks [ok _ _ at_ij]] := all_blocks_uniform dt shaped cons n_gt0.
have [trow [T_ok _ [shaped' dt'] sz tr_k]] := T_uniform cls dt shaped gt0.
have gt0' : 0 < size trow by rewrite sz.
have consT := @construct_checked cls c r trow true gt0' shaped'.
have eqA : A = instance_of cls (store_of r c row).
  by move: cons; rewrite (construct_checked _ _ gt0 shaped) => -[].
have nbT : nb_blocks (instance_of cls (store_of c r trow)) = nb_blocks A.
  by rewrite eqA; apply: nb_blocks_instance.
have n_gt0' : 0 < Py.to_nat (nb_blocks (instance_of cls (store_of c r trow))).1.
  by rewrite nbT.
have [blocks' [ok' _ _ at_ij']] :=
  all_blocks_uniform dt' shaped' consT n_gt0'.
exists (instance_of cls (store_of c r trow)), blocks, blocks'; split=> //.
  by rewrite eqA.
move=> i j lt_i lt_j.
have [lt_k ->] := at_ij j i lt_j lt_i.
have lt_i' : i < Py.to_nat (nb_blocks (instance_of cls (store_of c r trow))).1.
  by rewrite nbT.
have lt_j' : j < Py.to_nat (nb_blocks (instance_of cls (store_of c r trow))).1.
  by rewrite nbT.
have [_ ->] := at_ij' i j lt_i' lt_j'.
by rewrite nbT -/n (stored_index_sym cls n i j) tr_k.
Qed.

Lemma T_all_blocks_witness :
  let A := OddBlockSymmetricCirculantMatrix
             (store_of 1 2 (nseq 2 wide_block)) 3 in
  exists A' blocks blocks',
    [/\ T A = Ok A',
        all_blocks A = Ok blocks,
        all_blocks A' = Ok blocks'
      & forall i j, i < 3 -> j < 3 ->
          Np.T (block_at blocks j i) = Ok (block_at blocks' i j)].
Proof.
move=> A.
apply: (@T_all_blocks OddCirculant float64 1 2 (nseq 2 wide_block) true A)
  => //.
exact: wide_row_shaped.
Defined.

(** ** The dtype and the rank of a product *)

Lemma reshape_flat_shape (y z : ndarray) (n : int) :
  reshape_flat y n = Ok z -> ndim z = 1 /\ dtype_of z = dtype_of y.
Proof.
case: n => [k|k] //=; rewrite /reshape; case: ifP => // _ [<-].
by [].
Qed.

Lemma Circulant_matmul_dtype (self : matrix) (v y : ndarray) :
  Circulant__matmul__ self (PyArray v) = Ok (Vector y) ->
  dtype_of y = dtype_of v /\ ndim y = 1.
Proof.
rewrite /Circulant__matmul__; case: ifP => // _.
case: (first_block_line self) => // line; rewrite bindE.
case: (array line) => // AA; rewrite bindE.
case: (fft AA) => // AAt; rewrite bindE.
case: (reshape v _) => // o3; rewrite bindE.
case: (fft o3) => // bt; rewrite bindE.
case: (matmul AAt bt) => // yt; rewrite bindE.
case: (ifft yt) => // yi; rewrite bindE.
case flat: (reshape_flat yi _) => [z|] //; rewrite bindE => -[<-].
by have [? _] := reshape_flat_shape flat.
Qed.

Lemma Toeplitz_matmul_dtype (self : matrix) (v y : ndarray) :
  Toeplitz__matmul__ self (PyArray v) = Ok (Vector y) ->
  dtype_of y = dtype_of v /\ ndim y = 1.
Proof.
rewrite /Toeplitz__matmul__; case: ifP => // _.
case: (Even__init__ _ _) => // A; rewrite bindE.
case zs: (zeros _) => [z|] //; rewrite bindE.
case cat: (concatenate v z) => [b|] //; rewrite bindE.
case prod: (Circulant__matmul__ A (PyArray b)) => [[yE|]|] //.
rewrite bindE => -[<-] /=; split=> //.
have [-> _] := Circulant_matmul_dtype prod.
have dt_z : dtype_of z = float64.
  by move: zs; case: (_ - _)%R => // k [<-].
move: cat; rewrite /concatenate; case: (shape v) => [|n [|? ?]] //.
case: (shape z) => [|m [|? ?]] // [<-] /=.
by rewrite dt_z; case: (dtype_of v).
Qed.

(** X14.  Whenever [self @ v] returns an array, for a matrix of any of the
    three classes and a [float64] or [complex128] array [v], the array is
    a vector of the dtype of [v]: complex blocks never make the product of
    a real vector complex. *)
Theorem matmul_keeps_dtype (self : matrix) (v y : ndarray) :
  __matmul__ self (PyArray v) = Ok (Vector y) ->
  dtype_of y = dtype_of v /\ ndim y = 1.
Proof.
case: self => [b|b n|b n].
- exact: Toeplitz_matmul_dtype.
- exact: (@Circulant_matmul_dtype (EvenBlockSymmetricCirculantMatrix b n)).
exact: (@Circulant_matmul_dtype (OddBlockSymmetricCirculantMatrix b n)).
Qed.

Lemma matmul_keeps_dtype_witness :
  let A := OddBlockSymmetricCirculantMatrix (store_of 1 1 scenario_row) 5 in
  let y := NdArray [:: 5] float64
             [:: 1; 2%:R; 3%:R; 3%:R; 2%:R]%R in
  dtype_of y = dtype_of (basis_vector 5) /\ ndim y = 1.
Proof.
move=> A y; apply: (@matmul_keeps_dtype A (basis_vector 5) y).
by have [_ _ -> _] := scenario_first_column.
Defined.

(** ** The products as casts of the dense product *)

(** X15.  For a circulant matrix with [M >= 1] square blocks per side,
    [float64] or [complex128], and a [float64] or [complex128] vector [v]
    of length [M * r], [__matmul__] returns the dense product cast to the
    dtype of [v]: its entries are the real parts of the entries of the
    dense product when [v] is [float64], and the entries themselves when
    [v] is [complex128]. *)
Theorem circulant_matmul_cast (c : class) (r : nat) (row : seq ndarray)
    (chk : bool) (A : matrix) (v : ndarray) :
  c <> Toeplitz ->
  row_of_shape r r row ->
  construct c [:: row] (checked chk) = Ok A ->
  let M := Py.to_nat (nb_blocks A).1 in
  0 < M ->
  is_vector v -> shape v = [:: M * r] ->
  exists d y,
    [/\ dense_matvec A v = Ok d,
        __matmul__ A (PyArray v) = Ok (Vector y),
        y = asarray d (dtype_of v),
        dtype_of v = float64 -> data y = [seq ('Re z)%R | z <- data d]
      & dtype_of v = complex128 -> data y = data d].
Proof.
move=> notT shaped cons.
have [M [line0 [[clsA baseA] nbA [blA szl] foldl inrow]]] :=
  circulant_of_construct notT shaped cons.
rewrite nbA /= => M_gt0 vec_v sh_v.
have [sz_v _] := vector_data vec_v sh_v.
have -> : __matmul__ A = Circulant__matmul__ A by case: (A) clsA.
rewrite (Circulant_matmul_core clsA baseA nbA M_gt0 blA szl foldl inrow
           shaped sh_v sz_v).
rewrite (dense_circulant clsA baseA nbA M_gt0 blA szl foldl inrow shaped sh_v).
eexists; eexists; split; [by [] | by [] | | |].
- by rewrite /asarray /= (mulnC r M).
- by move=> ->.
by move=> ->.
Qed.

Lemma ones_is_vector (n : nat) : is_vector (ones n).
Proof.
rewrite /is_vector /wf /= size_nseq muln1 eqxx /=.
by rewrite all_nseq rpred1 orbT.
Qed.

Lemma circulant_matmul_cast_witness :
  let A := OddBlockSymmetricCirculantMatrix
             (store_of 1 1 [:: imaginary_block]) 1 in
  exists d y,
    [/\ dense_matvec A (ones 1) = Ok d,
        __matmul__ A (PyArray (ones 1)) = Ok (Vector y),
        y = asarray d float64,
        float64 = float64 -> data y = [seq ('Re z)%R | z <- data d]
      & float64 = complex128 -> data y = data d].
Proof.
move=> A.
apply: (@circulant_matmul_cast OddCirculant 1 [:: imaginary_block] true A) => //.
exact: ones_is_vector.
Defined.

(** X16.  For a Toeplitz matrix of [N >= 2] square blocks, [float64] or
    [complex128], and a [float64] or [complex128] vector [v] of length
    [N * r], [__matmul__] returns the dense product cast to the dtype of
    [v]: the real parts of its entries when [v] is [float64], the entries
    themselves when [v] is [complex128]. *)
Theorem Toeplitz_matmul_cast (r : nat) (row : seq ndarray) (chk : bool)
    (A : matrix) (v : ndarray) :
  row_of_shape r r row -> 1 < size row ->
  Toeplitz__init__ [:: row] (checked chk) = Ok A ->
  is_vector v -> shape v = [:: size row * r] ->
  exists d y,
    [/\ dense_matvec A v = Ok d,
        __matmul__ A (PyArray v) = Ok (Vector y),
        y = asarray d (dtype_of v),
        dtype_of v = float64 -> data y = [seq ('Re z)%R | z <- data d]
      & dtype_of v = complex128 -> data y = data d].
Proof.
move=> shaped n_gt1 /Toeplitz__init__P [b ini ->] vec_v sh_v.
have n_gt0 : 0 < size row by exact: ltnW.
move: ini; rewrite (init_store_of chk n_gt0 shaped) => -[<-].
have [sz_v _] := vector_data vec_v sh_v.
have -> : __matmul__ (BlockSymmetricToeplitzMatrix (store_of r r row))
          = Toeplitz__matmul__ (BlockSymmetricToeplitzMatrix (store_of r r row)).
  by [].
rewrite (Toeplitz_matmul_embedding shaped n_gt1 sh_v sz_v) slice_embedding //.
rewrite (dense_Toeplitz shaped n_gt1 sh_v).
eexists; eexists; split; [by [] | by [] | by [] | |].
  by move=> ->.
by move=> ->.
Qed.

Lemma Toeplitz_matmul_cast_witness :
  let row := [:: imaginary_block; scalar_block complex128 0%R] in
  let A := BlockSymmetricToeplitzMatrix (store_of 1 1 row) in
  exists d y,
    [/\ dense_matvec A (ones 2) = Ok d,
        __matmul__ A (PyArray (ones 2)) = Ok (Vector y),
        y = asarray d float64,
        float64 = float64 -> data y = [seq ('Re z)%R | z <- data d]
      & float64 = complex128 -> data y = data d].
Proof.
move=> row A.
apply: (@Toeplitz_matmul_cast 1 row true A) => //.
exact: ones_is_vector.
Defined.

(** ** Products that raise *)

Lemma Circulant_matmul_non_square (c : class) (r c' : nat)
    (row : seq ndarray) (kw : kwargs) (A : matrix) (v : ndarray) :
  c <> Toeplitz -> construct c [:: row] kw = Ok A ->
  _stored_block_shapes (base A) = ([:: r], nseq (size row) c') ->
  row_of_shape r c' row ->
  let M := Py.to_nat (nb_blocks A).1 in
  0 < M -> r <> c' ->
  shape v = [:: M * c'] -> size (data v) = M * c' ->
  Circulant__matmul__ A (PyArray v) = Raise ValueError.
Proof.
move=> notT cons shapes shaped M M_gt0 neq sh_v sz_v.
have [line [blocks [[line_ok sz_line] _ _ fold _]]] :=
  Circulant_all_blocks notT shaped cons M_gt0.
have [_ _ gt0 _ nb] := circulant_constructP notT cons.
have nbM : nb_blocks A = (Posz M, Posz M) by rewrite /M nb.
have sh_line k : k < M -> shape (nth unit_block line k) = [:: r; c'].
  move=> lt_k; have [lt_f ->] := fold k lt_k.
  by case: (row_of_shapeP shaped lt_f).
have array_ok : array line
    = Ok (NdArray [:: M; r; c']
            (foldr result_type float64 (map dtype_of line))
            (flatten (map data line))).
  rewrite /array; case eq_line: line => [|b0 bs].
    by move: M_gt0; rewrite /M -sz_line eq_line.
  rewrite -eq_line.
  have sh0 : shape b0 = [:: r; c'].
    by have := sh_line 0 M_gt0; rewrite eq_line.
  have -> : all (fun x => shape x == shape b0) line.
    apply/(all_nthP unit_block) => k; rewrite sz_line => lt_k.
    by rewrite sh_line // sh0.
  by rewrite sz_line sh0.
have guard : (ndim v == 1) && ((shape_of A).2 == Posz (nth 0 (shape v) 0)).
  by rewrite /ndim sh_v /shape_of shapes nbM /= nth_nseq gt0 -PoszM mulnC eqxx.
rewrite /Circulant__matmul__ guard.
rewrite line_ok bindE array_ok bindE (@fft_stack _ M r c') // bindE.
rewrite /reshape /prod_shape [foldr _ _ _]/= [data _]/= sz_v !muln1.
have -> : (M * r == M * c') = false.
  by rewrite eqn_pmul2l //; apply/eqP.
by [].
Qed.

(** X17.  On blocks of shape [(r, c)] with [r <> c] the product of a
    circulant matrix of [M >= 1] blocks per side with a vector of the
    right length [M * c] raises [ValueError]: the vector is reshaped to
    [AAt.shape[:2] + (1,)], that is to [(M, r, 1)]. *)
Theorem circulant_matmul_non_square_raises (c : class) (r c' : nat)
    (row : seq ndarray) (chk : bool) (A : matrix) (v : ndarray) :
  c <> Toeplitz ->
  row_of_shape r c' row -> r <> c' ->
  construct c [:: row] (checked chk) = Ok A ->
  let M := Py.to_nat (nb_blocks A).1 in
  0 < M ->
  is_vector v -> shape v = [:: M * c'] ->
  (shape_of A).2 = Posz (nth 0 (shape v) 0)
  /\ __matmul__ A (PyArray v) = Raise ValueError.
Proof.
move=> notT shaped neq cons M M_gt0 vec_v sh_v.
have [baseA gt0 clsA] := construct_store shaped cons.
have [sz_v _] := vector_data vec_v sh_v.
have [_ _ _ _ nb] := circulant_constructP notT cons.
split.
  by rewrite /shape_of baseA sh_v /= nth_nseq gt0 /M nb /= -PoszM mulnC.
have -> : __matmul__ A = Circulant__matmul__ A.
  by case: (A) clsA notT => [b|b n|b n] //= <-.
apply: (Circulant_matmul_non_square notT cons _ shaped M_gt0 neq sh_v sz_v).
by rewrite baseA.
Qed.

Lemma circulant_matmul_non_square_raises_witness :
  let A := OddBlockSymmetricCirculantMatrix
             (store_of 1 2 (nseq 2 wide_block)) 3 in
  (shape_of A).2 = Posz (nth 0 (shape (ones 6)) 0)
  /\ __matmul__ A (PyArray (ones 6)) = Raise ValueError.
Proof.
move=> A.
apply: (@circulant_matmul_non_square_raises OddCirculant 1 2
          (nseq 2 wide_block) true A (ones 6)) => //.
- exact: wide_row_shaped.
exact: ones_is_vector.
Defined.

(** X18.  The Toeplitz product inherits the failure: on [N >= 2] blocks of
    shape [(r, c)] with [r <> c], the product with a vector of the right
    length [N * c] raises [ValueError]. *)
Theorem Toeplitz_matmul_non_square_raises (r c : nat) (row : seq ndarray)
    (chk : bool) (A : matrix) (v : ndarray) :
  row_of_shape r c row -> r <> c -> 1 < size row ->
  Toeplitz__init__ [:: row] (checked chk) = Ok A ->
  is_vector v -> shape v = [:: size row * c] ->
  (shape_of A).2 = Posz (nth 0 (shape v) 0)
  /\ __matmul__ A (PyArray v) = Raise ValueError.
Proof.
move=> shaped neq n_gt1 /Toeplitz__init__P [b ini ->] vec_v sh_v.
have n_gt0 : 0 < size row by exact: ltnW.
move: ini; rewrite (init_store_of chk n_gt0 shaped) => -[<-].
have [sz_v _] := vector_data vec_v sh_v.
set n := size row in sh_v sz_v *; set M := (n - 1) * 2.
set A0 := BlockSymmetricToeplitzMatrix _.
have sh_A : shape_of A0 = (Posz (r * n), Posz (c * n)).
  by rewrite /shape_of /= nth_nseq n_gt0 -!PoszM.
have guard : (shape_of A0).2 = Posz (nth 0 (shape v) 0).
  by rewrite sh_A sh_v /= mulnC.
split=> //.
have -> : __matmul__ A0 = Toeplitz__matmul__ A0 by [].
rewrite Toeplitz__matmul__E //; first by rewrite /ndim sh_v.
set kwE := Kwargs _ _.
pose E := EvenBlockSymmetricCirculantMatrix (store_of r c row) (Posz M).
have consE : construct EvenCirculant [:: row] kwE = Ok E.
  rewrite /= /Even__init__ /kwE init_unchecked //= /E /store_of.
  by rewrite subzn // -PoszM.
have -> : Even__init__ (_stored_blocks (base A0)) kwE = Ok E by exact: consE.
have le_nM : c * n <= c * M by rewrite leq_mul2l /M; apply/orP; right; slia.
have sh_E : shape_of E = (Posz (r * M), Posz (c * M)).
  by rewrite /shape_of /= nth_nseq n_gt0 -!PoszM.
rewrite bindE sh_E sh_A [(_, _).2]/= [(_, _).2]/= subzn // /zeros bindE.
rewrite /concatenate sh_v [shape _]/= bindE.
set w := NdArray _ _ _.
have nbE : Py.to_nat (nb_blocks E).1 = M by [].
have M_gt0 : 0 < Py.to_nat (nb_blocks E).1 by rewrite nbE /M; slia.
have notT : EvenCirculant <> Toeplitz by [].
rewrite (@Circulant_matmul_non_square EvenCirculant r c row kwE E w) //.
- by rewrite nbE /w /= (mulnC n c) subnKC // mulnC.
by rewrite nbE /w /= size_cat size_nseq sz_v (mulnC n c) subnKC // mulnC.
Qed.

Lemma Toeplitz_matmul_non_square_raises_witness :
  let A := BlockSymmetricToeplitzMatrix (store_of 1 2 (nseq 2 wide_block)) in
  (shape_of A).2 = Posz (nth 0 (shape (ones 4)) 0)
  /\ __matmul__ A (PyArray (ones 4)) = Raise ValueError.
Proof.
move=> A.
apply: (@Toeplitz_matmul_non_square_raises 1 2 (nseq 2 wide_block) true A
          (ones 4)) => //.
- exact: wide_row_shaped.
exact: ones_is_vector.
Defined.

(** X19.  The product of a Toeplitz matrix built on a single stored block
    with a vector of the right length always raises [ValueError], whatever
    the block: the even embedding has no block, so either the padding
    length is negative, or the block has no column and the transform
    meets an empty stack. *)
Theorem single_block_Toeplitz_matmul_raises (blk v : ndarray) (r c : nat)
    (chk : bool) (A : matrix) :
  shape blk = [:: r; c] -> shape v = [:: c] ->
  Toeplitz__init__ [:: [:: blk]] (checked chk) = Ok A ->
  (shape_of A).2 = Posz (nth 0 (shape v) 0)
  /\ __matmul__ A (PyArray v) = Raise ValueError.
Proof.
move=> sh_blk sh_v /Toeplitz__init__P [b ini ->].
have eq_b : b = mkBlockMatrix [:: [:: blk]] (1%R, 1%R) ([:: r], [:: c]).
  move: ini; rewrite /BlockMatrix__init__ /= sh_blk /=.
  by case: chk => -[<-].
rewrite eq_b; split; first by rewrite /shape_of sh_v /= mulr1.
rewrite /= /ndim sh_v /= mulr1 eqxx /= mulr0 mulr1 sub0r.
case: c sh_v {eq_b sh_blk} => [|c] sh_v //.
by rewrite /= /concatenate sh_v /= /ndim /=.
Qed.

Lemma single_block_Toeplitz_matmul_raises_witness :
  let A := BlockSymmetricToeplitzMatrix (store_of 1 2 [:: wide_block]) in
  (shape_of A).2 = Posz (nth 0 (shape (ones 2)) 0)
  /\ __matmul__ A (PyArray (ones 2)) = Raise ValueError.
Proof.
move=> A.
by apply: (@single_block_Toeplitz_matmul_raises wide_block (ones 2) 1 2 true A).
Defined.

(** ** Positions and blocks *)

Lemma entry_stored_index (c : class) (row : seq ndarray) (kw : kwargs)
    (A : matrix) :
  construct c [:: row] kw = Ok A ->
  let n := Py.to_nat (nb_blocks A).1 in
  exists grid,
    _index_grid A = Ok grid
    /\ forall i j, i < n -> j < n ->
         entry grid i j = Posz (stored_index c n i j).
Proof.
have [-> | notT] : c = Toeplitz \/ c <> Toeplitz by case: c; [left|right|right].
  move=> cons; have [nb _] := Toeplitz_nb_blocks cons.
  have [_ ->] := Toeplitz_positions_of_indexE 0%R cons.
  rewrite nb /=; eexists; split; first by []; move=> i j lt_i lt_j.
  by rewrite Toeplitz_entry // abs_dist.
move=> cons; have [clsA _ gt0 bl nb] := circulant_constructP notT cons.
have notTA : __class__ A <> Toeplitz by rewrite clsA.
rewrite (index_grid_of_baseline notTA bl) nb /=.
set line0 := ascending _ ++ _; set M := size line0.
have fold k : k < M ->
    nth 0%R line0 k = Posz (fold_index M k) /\ fold_index M k < size row.
  exact: (circulant_line_fold notT gt0).
eexists; split; first by []; move=> i j lt_i lt_j.
rewrite Circulant_entry_fold //; first by move=> k lt_k; have [] := fold k lt_k.
by case: (c) notT.
Qed.

Lemma positions_of_index_construct (c : class) (row : seq ndarray)
    (kw : kwargs) (A : matrix) (k : int) :
  construct c [:: row] kw = Ok A ->
  let n := Py.to_nat (nb_blocks A).1 in
  exists ps,
    _positions_of_index A k = Ok ps
    /\ forall i j : nat,
         ((Posz i, Posz j) \in ps)
         = [&& i < n, j < n & Posz (stored_index c n i j) == k].
Proof.
have [-> | notT] : c = Toeplitz \/ c <> Toeplitz by case: c; [left|right|right].
  move=> cons; have [nb _] := Toeplitz_nb_blocks cons.
  have [-> _] := Toeplitz_positions_of_indexE k cons.
  rewrite nb /=; eexists; split; first by []; move=> i j.
  rewrite mem_flatten_pairs mem_filter !mem_range0 /= !ltz_nat abs_dist.
  by congr (_ && _); rewrite andbC.
move=> cons; have [grid [grid_ok entryE]] := entry_stored_index cons.
have [clsA _ gt0 bl nb] := circulant_constructP notT cons.
have notTA : __class__ A <> Toeplitz by rewrite clsA.
have -> : _positions_of_index A k
          = (grid <- _index_grid A ;;
             Circulant_positions_of_index grid (nb_blocks A).1 k).
  by case: (A) notTA.
move: grid_ok entryE; rewrite (index_grid_of_baseline notTA bl) nb /=.
move=> [<-] entryE.
rewrite Circulant_positions_of_indexE; eexists; split; first by [].
move=> i j; rewrite mem_flatten_pairs mem_filter !mem_range0 /= !ltz_nat.
case: (ltnP i _) => lt_i //=; case: (ltnP j _) => lt_j; last by rewrite andbF.
by rewrite andbT entryE.
Qed.

(** X20.  What [_positions_of_index(k)] finds: in a constructed matrix of
    any of the three classes, built on blocks of one shape and of one
    dtype, every position
    it lists is a position of the full matrix at which [all_blocks] holds
    the stored block [k], and [k] is then an index of the stored row;
    with a position [(i, j)] it lists the position [(j, i)]. *)
Theorem positions_hold_stored_block (c : class) (d : dtype) (r c' : nat)
    (row : seq ndarray) (kw : kwargs) (A : matrix) (k : int) :
  row_of_dtype d row -> row_of_shape r c' row ->
  construct c [:: row] kw = Ok A ->
  let n := Py.to_nat (nb_blocks A).1 in
  0 < n ->
  exists ps blocks,
    [/\ _positions_of_index A k = Ok ps,
        all_blocks A = Ok blocks,
        forall i j : nat,
          (Posz i, Posz j) \in ps ->
          [/\ i < n, j < n, (0 <= k < Posz (size row))%R
            & block_at blocks i j = nth unit_block row (Py.to_nat k)]
      & forall i j : nat,
          ((Posz i, Posz j) \in ps) = ((Posz j, Posz i) \in ps)].
Proof.
move=> dt shaped cons n n_gt0.
have [ps [ps_ok mem_ps]] := positions_of_index_construct k cons.
have [blocks [ok _ _ at_ij]] := all_blocks_uniform dt shaped cons n_gt0.
exists ps, blocks; split=> // i j.
  rewrite mem_ps => /and3P [lt_i lt_j /eqP <-].
  have [lt_k ->] := at_ij i j lt_i lt_j.
  by split.
by rewrite !mem_ps (stored_index_sym c _ i j) andbCA.
Qed.

Lemma positions_hold_stored_block_witness :
  let A := OddBlockSymmetricCirculantMatrix (store_of 1 1 scenario_row) 5 in
  exists ps blocks,
    [/\ _positions_of_index A (Posz 2) = Ok ps,
        all_blocks A = Ok blocks,
        forall i j : nat,
          (Posz i, Posz j) \in ps ->
          [/\ i < 5, j < 5, (0 <= Posz 2 < Posz 3)%R
            & block_at blocks i j = nth unit_block scenario_row 2]
      & forall i j : nat,
          ((Posz i, Posz j) \in ps) = ((Posz j, Posz i) \in ps)].
Proof.
move=> A.
apply: (@positions_hold_stored_block OddCirculant float64 1 1 scenario_row
          no_kwargs A (Posz 2)) => //.
exact: scenario_row_shaped.
Defined.

(** ** The dimension check and the array of all blocks *)

Lemma construct_base (c : class) (row : seq ndarray) (kw : kwargs)
    (A : matrix) :
  construct c [:: row] kw = Ok A ->
  [/\ stored_row (base A) = row, 0 < size row
    & check_dim kw -> _check_dimension (base A)].
Proof.
rewrite constructE; case ini: (BlockMatrix__init__ _ _) => [b|] //= [<-].
have [_ _ gt0 chk] := BlockMatrix__init__P ini.
have -> : base (instance_of c b) = b by case: (c).
by rewrite (stored_row_init ini).
Qed.

(** [np.array] refuses blocks that have not all one shape. *)
Lemma array_of_blocks_ragged (rows : seq (seq ndarray)) :
  (forall sh, ~~ all (fun x => shape x == sh) (flatten rows)) ->
  array_of_blocks rows = Raise ValueError.
Proof.
move=> ragged; rewrite /array_of_blocks; case: ifP => // _.
case eq_bs: (flatten rows) => [|b bs].
  by have := ragged [::]; rewrite eq_bs.
by have := ragged (shape b); rewrite eq_bs => /negbTE ->.
Qed.

(** X21.  What the dimension check is for.  A matrix of any of the three
    classes constructed with [check_dim] on passes [_check_dimension];
    and for a constructed matrix with [n >= 1] blocks per side,
    [all_blocks] returns [n] rows of [n] blocks, all of the shape of the
    first stored block, when the matrix passes [_check_dimension], and
    raises [ValueError], in [np.array], when it does not, as a matrix
    constructed with [check_dim] off may. *)
Theorem check_dimension_all_blocks (c : class) (row : seq ndarray)
    (kw : kwargs) (A : matrix) :
  construct c [:: row] kw = Ok A ->
  let n := Py.to_nat (nb_blocks A).1 in
  0 < n ->
  [/\ check_dim kw -> _check_dimension (base A),
      _check_dimension (base A) ->
      exists blocks,
        [/\ all_blocks A = Ok blocks, size blocks = n
          & forall i j, i < n -> j < n ->
              size (nth [::] blocks i) = n
              /\ shape (block_at blocks i j) = shape (nth unit_block row 0)]
    & ~~ _check_dimension (base A) -> all_blocks A = Raise ValueError].
Proof.
move=> cons n n_gt0; have [row_A gt0 chk] := construct_base cons.
have chkE : _check_dimension (base A)
            = all (fun b => shape b == shape (nth unit_block row 0)) row.
  rewrite /_check_dimension row_A; case: (row) gt0 => [|b0 bs] //= _.
  by rewrite eqxx.
split=> //.
  rewrite chkE => shapes.
  have [blocks [ok sz sz_rows at_ij]] := all_blocks_construct shapes cons n_gt0.
  exists blocks; split=> // i j lt_i lt_j; split; first exact: sz_rows.
  have [lt_k ->] := at_ij i j lt_i lt_j.
  by rewrite promote_shape (eqP (all_nthP unit_block shapes _ lt_k)).
rewrite chkE => ragged.
have [grid [_ in_range covers _ ->]] := construct_rows cons n_gt0.
apply: array_of_blocks_ragged => sh; apply/negP => same.
have all_sh : all (fun b => shape b == sh) row.
  apply/negPn; rewrite -has_predC -(has_rows _ in_range covers) has_predC.
  exact/negPn.
case/negP: ragged; apply/(all_nthP unit_block) => k lt_k.
rewrite (eqP (all_nthP unit_block all_sh k lt_k)).
by rewrite (eqP (all_nthP unit_block all_sh 0 gt0)).
Qed.

Lemma check_dimension_all_blocks_witness :
  let A := BlockSymmetricToeplitzMatrix
             (mkBlockMatrix [:: [:: unit_block; wide_block]] (1%R, 2%R)
                ([:: 1], [:: 1; 2])) in
  [/\ check_dim (Kwargs None false) -> _check_dimension (base A),
      _check_dimension (base A) ->
      exists blocks,
        [/\ all_blocks A = Ok blocks, size blocks = 2
          & forall i j, i < 2 -> j < 2 ->
              size (nth [::] blocks i) = 2
              /\ shape (block_at blocks i j)
                 = shape (nth unit_block [:: unit_block; wide_block] 0)]
    & ~~ _check_dimension (base A) -> all_blocks A = Raise ValueError].
Proof.
move=> A.
by apply: (@check_dimension_all_blocks Toeplitz [:: unit_block; wide_block]
             (Kwargs None false) A).
Defined.

(** ** The first position of a stored block in a circulant matrix *)

Lemma filter_first (p : pred nat) (M k : nat) :
  k < M -> p k -> (forall j, j < k -> ~~ p j) ->
  exists rest, filter p (iota 0 M) = k :: rest.
Proof.
move=> lt_k pk below; rewrite -(subnKC (ltnW lt_k)) iotaD filter_cat add0n.
have -> : filter p (iota 0 k) = [::].
  rewrite (@eq_in_filter _ _ pred0) ?filter_pred0 // => j.
  by rewrite mem_iota add0n /= => lt_j; exact/negbTE/below.
have -> : M - k = (M - k).-1.+1 by slia.
by rewrite /= pk; eexists.
Qed.

(** X22.  In a circulant matrix with [M >= 1] blocks per side built on
    [N_s] stored blocks, the first position that [_positions_of_index(k)]
    lists for a stored index [k < N_s] is [(0, k)], the position of the
    block on the first block line, which is what [_patches] skips with
    [[1:]]; for [k >= N_s], although the first block line has a block at
    position [k] when [k < M], the list is empty. *)
Theorem Circulant_positions_first_line (c : class) (row : seq ndarray)
    (kw : kwargs) (A : matrix) (k : nat) :
  c <> Toeplitz -> construct c [:: row] kw = Ok A ->
  let M := Py.to_nat (nb_blocks A).1 in
  0 < M ->
  exists ps,
    [/\ _positions_of_index A (Posz k) = Ok ps,
        k < size row -> head (0%R, 0%R) ps = (0%R, Posz k)
      & size row <= k -> ps = [::]].
Proof.
move=> notT cons; have [clsA _ gt0 bl nb] := circulant_constructP notT cons.
have notTA : __class__ A <> Toeplitz by rewrite clsA.
have grid_ok := index_grid_of_baseline notTA bl.
have -> : _positions_of_index A (Posz k)
          = (grid <- _index_grid A ;;
             Circulant_positions_of_index grid (nb_blocks A).1 (Posz k)).
  by case: (A) notTA.
rewrite grid_ok nb /= Circulant_positions_of_indexE.
set line0 := ascending _ ++ _; set M := size line0 => M_gt0.
have fold j : j < M ->
    nth 0%R line0 j = Posz (fold_index M j) /\ fold_index M j < size row.
  exact: (circulant_line_fold notT gt0).
have entryE i j : i < M -> j < M ->
    entry (Circulant_index_grid line0 (Posz M)) i j
    = Posz (fold_index M (dist i j)).
  move=> lt_i lt_j; rewrite Circulant_entry_fold //.
  by move=> x lt_x; have [] := fold x lt_x.
have sz_line : M = (if c is EvenCirculant then size row - 1 else size row)
                   + (size row - 1).
  by rewrite /M size_cat size_ascending size_descending.
eexists; split; first by [].
- move=> lt_k.
  have lt_kM : k < M by move: M_gt0; rewrite sz_line; case: (c); slia.
  have fold_k : fold_index M k = k.
    by rewrite /fold_index sz_line; case: (c) => /=; case: ifP => ?; slia.
  have [rest filterE] : exists rest,
      [seq j <- iota 0 M | fold_index M j == k] = k :: rest.
    apply: filter_first => //; first by rewrite fold_k.
    move=> j lt_j; apply/eqP => eq_k.
    by have := fold_index_le (ltn_trans lt_j lt_kM); rewrite eq_k; slia.
  set s := Py.range 0 (Posz M).
  have s_cons : s = 0%R :: behead s.
    by rewrite /s range0_nat; case: (M) M_gt0.
  have map_s (f : int -> seq (int * int)) :
      map f s = f 0%R :: map f (behead s).
    by rewrite {1}s_cons.
  rewrite map_s [flatten _]/= {1}/s range0_nat filter_map.
  have -> : [seq j <- iota 0 M
            | preim Posz
                (fun j : int =>
                   entry (Circulant_index_grid line0 (Posz M))
                     (Py.to_nat 0) (Py.to_nat j) == Posz k) j]
          = [seq j <- iota 0 M | fold_index M j == k].
    apply/eq_in_filter => j; rewrite mem_iota add0n /= => lt_j.
    by rewrite entryE // /dist leq0n subn0.
  by rewrite filterE.
move=> le_k; set ps := flatten _.
case eq_ps: ps => [|[i j] ps'] //.
have : (i, j) \in ps by rewrite eq_ps mem_head.
rewrite mem_flatten_pairs mem_filter !mem_range0.
case: i {eq_ps} => [i|i] //; case: j => [j|j]; last by rewrite !andbF.
rewrite /= !ltz_nat => /andP [lt_i /andP [/eqP eq_k lt_j]].
move: eq_k; rewrite entryE // => -[eq_k].
have [_] := fold _ (dist_lt lt_i lt_j).
by rewrite eq_k; slia.
Qed.

Lemma Circulant_positions_first_line_witness :
  let A := OddBlockSymmetricCirculantMatrix (sample_store 3) 5 in
  exists ps,
    [/\ _positions_of_index A (Posz 2) = Ok ps,
        2 < 3 -> head (0%R, 0%R) ps = (0%R, Posz 2)
      & 3 <= 2 -> ps = [::]].
Proof.
move=> A.
by apply: (@Circulant_positions_first_line OddCirculant (row_of 3)
             no_kwargs A 2).
Defined.

(** ** Vectors that are not declined *)

Lemma Circulant_matmul_accepts (self : matrix) (v : ndarray)
    (res : matmul_value) :
  ndim v = 1 -> (shape_of self).2 = Posz (nth 0 (shape v) 0) ->
  Circulant__matmul__ self (PyArray v) = Ok res ->
  exists y, res = Vector y.
Proof.
move=> v1 len; rewrite /Circulant__matmul__ v1 len !eqxx /=.
case: (first_block_line self) => // line; rewrite bindE.
case: (array line) => // AA; rewrite bindE.
case: (fft AA) => // AAt; rewrite bindE.
case: (reshape v _) => // o3; rewrite bindE.
case: (fft o3) => // bt; rewrite bindE.
case: (matmul AAt bt) => // yt; rewrite bindE.
case: (ifft yt) => // yi; rewrite bindE.
case: (reshape_flat yi _) => [z|] //; rewrite bindE => -[<-].
by eexists.
Qed.

(** X23.  A one-dimensional array whose length is the column count is
    never declined: whatever the matrix, [self @ v] does not return
    [NotImplemented] for it, so [NotImplemented] is returned for the
    operands that fail the guard and for no other. *)
Theorem matmul_accepts_matching_vector (self : matrix) (v : ndarray)
    (res : matmul_value) :
  ndim v = 1 -> (shape_of self).2 = Posz (nth 0 (shape v) 0) ->
  __matmul__ self (PyArray v) = Ok res ->
  exists y, res = Vector y.
Proof.
move=> v1 len; case: self len => [b|b n|b n] len.
- rewrite /__matmul__ Toeplitz__matmul__E //.
  case: (Even__init__ _ _) => // A; rewrite bindE.
  case: (zeros _) => [z|] //; rewrite bindE.
  case: (concatenate v z) => [w|] //; rewrite bindE.
  case: (Circulant__matmul__ A (PyArray w)) => [[yE|]|] //.
  by rewrite bindE => -[<-]; eexists.
- exact: (@Circulant_matmul_accepts (EvenBlockSymmetricCirculantMatrix b n)).
exact: (@Circulant_matmul_accepts (OddBlockSymmetricCirculantMatrix b n)).
Qed.

Lemma matmul_accepts_matching_vector_witness :
  let A := OddBlockSymmetricCirculantMatrix (store_of 1 1 scenario_row) 5 in
  exists y,
    Vector (NdArray [:: 5] float64 [:: 1; 2%:R; 3%:R; 3%:R; 2%:R]%R)
    = Vector y.
Proof.
move=> A.
apply: (@matmul_accepts_matching_vector A (basis_vector 5)) => //.
by have [_ _ -> _] := scenario_first_column.
Defined.

(** ** The product of a circulant matrix without blocks *)


